(** * sam-web: inference orchestration and tensor shaping

    A shallow embedding of the TypeScript sources of sam-web
    (models/config.ts, core/imageutils.ts, core/worker.ts, core/SAM2.ts,
    SAMWorker.ts, SAMClient.ts) together with the properties that the
    specification states about them, and further properties of the code.

    Conventions of the embedding.
    - A JavaScript [number] is the type [number] below: an exact rational,
      or one of NaN, +Infinity, -Infinity.  Arithmetic follows the IEEE
      rules for the special values and is exact on finite values: rounding
      to binary64 (and to binary32 when a Float32Array element is stored)
      and the sign of zero are not represented.
    - Array lengths, loop counters, tensor dimensions and pixel coordinates
      are natural numbers or integers.
    - A typed array is a list; reading past the end gives [undefined]
      (NaN once used as a number) and writing past the end does nothing,
      as in the source language.
    - Code that talks to the browser (cache, network, inference backend,
      image scaling) takes the outcome of each such call from an explicit
      [World] or [Browser] argument and threads its state; a canvas is its
      size and bitmap, and the argument checks of [drawImage],
      [getImageData] and [new ImageData] are kept.
    - The worker is run synchronously: posting a request yields the list
      of messages the handler posts in answer. *)

From Stdlib Require Import QArith Qcanon Qround ZArith Lia Lqa.
From Stdlib.Strings Require Import Byte Ascii.
From stdpp Require Import base numbers list strings gmap.

Local Open Scope Z_scope.
Local Open Scope nat_scope.

(** ** JavaScript numbers *)

Inductive number : Type :=
  | NaN
  | PosInfinity
  | NegInfinity
  | Fin (q : Qc).

Definition Qc_of_Z (z : Z) : Qc := Q2Qc (inject_Z z).
Definition num_of_Z (z : Z) : number := Fin (Qc_of_Z z).
Definition num_of_nat (n : nat) : number := num_of_Z (Z.of_nat n).

Definition Qc_ltb (a b : Qc) : bool :=
  match (a ?= b)%Qc with Lt => true | _ => false end.
Definition Qc_eqb (a b : Qc) : bool :=
  match (a ?= b)%Qc with Eq => true | _ => false end.

(** Sign of a finite value: [Lt] negative, [Eq] zero, [Gt] positive. *)
Definition Qc_sign (a : Qc) : comparison := (a ?= 0)%Qc.

(** [a * b] *)
Definition nmul (a b : number) : number :=
  match a, b with
  | NaN, _ | _, NaN => NaN
  | Fin x, Fin y => Fin (x * y)%Qc
  | PosInfinity, PosInfinity | NegInfinity, NegInfinity => PosInfinity
  | PosInfinity, NegInfinity | NegInfinity, PosInfinity => NegInfinity
  | PosInfinity, Fin y | Fin y, PosInfinity =>
      match Qc_sign y with Gt => PosInfinity | Eq => NaN | Lt => NegInfinity end
  | NegInfinity, Fin y | Fin y, NegInfinity =>
      match Qc_sign y with Gt => NegInfinity | Eq => NaN | Lt => PosInfinity end
  end.

(** [a + b] *)
Definition nadd (a b : number) : number :=
  match a, b with
  | NaN, _ | _, NaN => NaN
  | Fin x, Fin y => Fin (x + y)%Qc
  | PosInfinity, NegInfinity | NegInfinity, PosInfinity => NaN
  | PosInfinity, _ | _, PosInfinity => PosInfinity
  | NegInfinity, _ | _, NegInfinity => NegInfinity
  end.

(** [a - b] *)
Definition nsub (a b : number) : number :=
  match a, b with
  | NaN, _ | _, NaN => NaN
  | Fin x, Fin y => Fin (x - y)%Qc
  | PosInfinity, PosInfinity | NegInfinity, NegInfinity => NaN
  | PosInfinity, _ | _, NegInfinity => PosInfinity
  | NegInfinity, _ | _, PosInfinity => NegInfinity
  end.

(** [a / b] *)
Definition ndiv (a b : number) : number :=
  match a, b with
  | NaN, _ | _, NaN => NaN
  | Fin x, Fin y =>
      if Qc_eqb y 0 then
        match Qc_sign x with Gt => PosInfinity | Eq => NaN | Lt => NegInfinity end
      else Fin (x / y)%Qc
  | Fin _, (PosInfinity | NegInfinity) => Fin 0
  | (PosInfinity | NegInfinity), (PosInfinity | NegInfinity) => NaN
  | PosInfinity, Fin y =>
      match Qc_sign y with Lt => NegInfinity | _ => PosInfinity end
  | NegInfinity, Fin y =>
      match Qc_sign y with Lt => PosInfinity | _ => NegInfinity end
  end.

(** [a > b] *)
Definition ngt (a b : number) : bool :=
  match a, b with
  | NaN, _ | _, NaN => false
  | Fin x, Fin y => Qc_ltb y x
  | PosInfinity, PosInfinity => false
  | PosInfinity, _ => true
  | NegInfinity, _ => false
  | Fin _, PosInfinity => false
  | Fin _, NegInfinity => true
  end.

(** [a === b] on numbers *)
Definition nseq (a b : number) : bool :=
  match a, b with
  | Fin x, Fin y => Qc_eqb x y
  | PosInfinity, PosInfinity | NegInfinity, NegInfinity => true
  | _, _ => false
  end.

(** [Math.floor] *)
Definition nfloor (a : number) : number :=
  match a with
  | Fin x => num_of_Z (Qfloor x)
  | other => other
  end.

(** Truthiness of a number: everything but 0 and NaN. *)
Definition truthy (a : number) : bool :=
  match a with
  | NaN => false
  | Fin x => negb (Qc_eqb x 0)
  | _ => true
  end.

(** The orders used to state properties ([a <= b], [a < b]); both are
    false as soon as one side is NaN. *)
Definition nlt (a b : number) : bool := ngt b a.
Definition nle (a b : number) : bool := ngt b a || nseq a b.

(** ** Typed arrays *)

Abbreviation Float32Array := (list number).
Abbreviation Uint8ClampedArray := (list byte).

(** [new Float32Array(n)] *)
Definition new_Float32Array (n : nat) : Float32Array := replicate n (Fin 0).

(** [a[i]] used as a number (an absent element is [undefined], that is NaN). *)
Definition aget (a : list number) (i : nat) : number := default NaN (a !! i).

(** [px[i]] of a byte array, used as a number. *)
Definition bget (px : Uint8ClampedArray) (i : nat) : number :=
  match px !! i with
  | Some b => num_of_Z (Z.of_N (Byte.to_N b))
  | None => NaN
  end.

(** [for (let i = 0; i < n; i++) body] over a loop state. *)
Definition for_range {S : Type} (n : nat) (body : nat → S → S) (s : S) : S :=
  foldl (fun acc i => body i acc) s (seq 0 n).

(** ** models/types.ts *)

Inductive TensorFormat := CHW | HWC.
Inductive ModelType := sam2 | mobilesam.

(** Image and mask dimensions, in pixels. *)
Record Size := { w : nat; h : nat }.

Record Normalization := {
  mean : list number;
  std : list number;
  scale : number
}.

Record ModelConfig := {
  id : string;
  name : string;
  description : string;
  encoderUrl : string;
  decoderUrl : string;
  imageSize : Size;
  maskSize : Size;
  modelType : ModelType;
  encoderInputName : string;
  useBatchDimension : bool;
  tensorFormat : TensorFormat;
  inputRange : option number;
  normalization : option Normalization
}.

(** [BoundingBox], with fields [x], [y], [width], [height]. *)
Record BoundingBox := { bb_x : Z; bb_y : Z; bb_width : Z; bb_height : Z }.

(** ** core/worker.ts: tensor shaping *)

(** [chwToHwc]: convert CHW [C, H, W] to HWC [H, W, C]. *)
Definition chwToHwc (chwArray : Float32Array) (channels height width : nat)
  : Float32Array :=
  let hwcArray := new_Float32Array (length chwArray) in
  let channelSize := height * width in
  for_range height (fun h hwcArray =>
    for_range width (fun w hwcArray =>
      for_range channels (fun c hwcArray =>
        let chwIdx := c * channelSize + h * width + w in
        let hwcIdx := h * width * channels + w * channels + c in
        <[hwcIdx := aget chwArray chwIdx]> hwcArray) hwcArray) hwcArray) hwcArray.

(** [applyNormalization]: (pixel * scale - mean) / std, per channel. *)
Definition applyNormalization (data : Float32Array) (channels height width : nat)
    (normalization : Normalization) : Float32Array :=
  let channelSize := height * width in
  let normalizedData := new_Float32Array (length data) in
  for_range channels (fun c normalizedData =>
    for_range channelSize (fun i normalizedData =>
      let idx := c * channelSize + i in
      <[idx := ndiv (nsub (nmul (aget data idx) (scale normalization))
                          (aget (mean normalization) c))
                    (aget (std normalization) c)]> normalizedData)
      normalizedData) normalizedData.

(** Entry [i] of a shape array; an absent entry is [undefined], against
    which every loop bound compares false, as against 0. *)
Definition dim (shape : list nat) (i : nat) : nat := default 0 (shape !! i).

(** The scaling step of the [encodeImage] branch:
    [if (sam.modelConfig.inputRange) { scaledData[i] = tensorData[i] * inputRange }]. *)
Definition scaleInputRange (cfg : ModelConfig) (tensorData : Float32Array)
  : Float32Array :=
  match inputRange cfg with
  | Some r =>
      if truthy r then
        for_range (length tensorData) (fun i scaledData =>
          <[i := nmul (aget tensorData i) r]> scaledData)
          (new_Float32Array (length tensorData))
      else tensorData
  | None => tensorData
  end.

(** The normalization step of the [encodeImage] branch. *)
Definition normalizeInput (cfg : ModelConfig) (tensorData : Float32Array)
    (shape : list nat) : Float32Array :=
  match normalization cfg with
  | Some n => applyNormalization tensorData (dim shape 1) (dim shape 2) (dim shape 3) n
  | None => tensorData
  end.

(** The tensor-format step of the [encodeImage] branch; returns the data
    and the shape handed to [new Tensor]. *)
Definition convertTensorFormat (cfg : ModelConfig) (tensorData : Float32Array)
    (shape : list nat) : Float32Array * list nat :=
  match tensorFormat cfg with
  | HWC =>
      let actualShape := if useBatchDimension cfg then shape else drop 1 shape in
      let channels := dim actualShape 0 in
      let height := dim actualShape 1 in
      let width := dim actualShape 2 in
      (chwToHwc tensorData channels height width, [height; width; channels])
  | CHW =>
      (tensorData, if useBatchDimension cfg then shape else drop 1 shape)
  end.

(** The tensor built by the [encodeImage] branch of the worker's message
    handler from the posted [float32Array] and [shape]. *)
Definition encodeImageTensor (cfg : ModelConfig) (float32Array : Float32Array)
    (shape : list nat) : Float32Array * list nat :=
  let tensorData := normalizeInput cfg float32Array shape in
  let tensorData := scaleInputRange cfg tensorData in
  convertTensorFormat cfg tensorData shape.

(** ** models/config.ts *)

Definition MOBILESAM_CONFIG : ModelConfig := {|
  id := "mobilesam";
  name := "MobileSAM";
  description := "Mobile SAM (45 MB, TinyViT encoder) - Fast and lightweight";
  encoderUrl := "https://huggingface.co/Acly/MobileSAM/resolve/main/mobile_sam_image_encoder.onnx";
  decoderUrl := "https://huggingface.co/Acly/MobileSAM/resolve/main/sam_mask_decoder_multi.onnx";
  imageSize := {| w := 1024; h := 1024 |};
  maskSize := {| w := 256; h := 256 |};
  modelType := mobilesam;
  encoderInputName := "input_image";
  useBatchDimension := false;
  tensorFormat := HWC;
  inputRange := Some (num_of_Z 255);
  normalization := None
|}.

Definition SAM2_TINY_CONFIG : ModelConfig := {|
  id := "sam2_tiny";
  name := "SAM2 Tiny";
  description := "Meta's SAM2 Tiny (151 MB, Hiera encoder) - Higher quality";
  encoderUrl := "https://huggingface.co/g-ronimo/sam2-tiny/resolve/main/sam2_hiera_tiny_encoder.with_runtime_opt.ort";
  decoderUrl := "https://huggingface.co/g-ronimo/sam2-tiny/resolve/main/sam2_hiera_tiny_decoder_pr1.onnx";
  imageSize := {| w := 1024; h := 1024 |};
  maskSize := {| w := 256; h := 256 |};
  modelType := sam2;
  encoderInputName := "image";
  useBatchDimension := true;
  tensorFormat := CHW;
  inputRange := None;
  normalization := None
|}.

(** [MODEL_CONFIGS]: the own properties of the object literal, in insertion
    order (the order [Object.keys] reports them in). *)
Definition MODEL_CONFIGS : list (string * ModelConfig) :=
  [ ("mobilesam", MOBILESAM_CONFIG);
    ("sam2_tiny", SAM2_TINY_CONFIG);
    ("sam2", SAM2_TINY_CONFIG) ].

Definition DEFAULT_MODEL_ID : string := "sam2_tiny".

(** [Object.keys(o)] *)
Definition Object_keys {V : Type} (o : list (string * V)) : list string := o.*1.

(** Own property [o[key]] of an object literal. *)
Fixpoint own_property {V : Type} (o : list (string * V)) (key : string) : option V :=
  match o with
  | [] => None
  | (k, v) :: rest => if decide (k = key) then Some v else own_property rest key
  end.

(** The properties every object literal inherits from [Object.prototype];
    each holds a function or an object, hence a truthy value. *)
Definition Object_prototype_keys : list string :=
  [ "constructor"; "__proto__"; "hasOwnProperty"; "isPrototypeOf";
    "propertyIsEnumerable"; "toLocaleString"; "toString"; "valueOf";
    "__defineGetter__"; "__defineSetter__"; "__lookupGetter__";
    "__lookupSetter__" ].

(** What the property access [MODEL_CONFIGS[modelId]] evaluates to when it
    is not [undefined]. *)
Inductive property (V : Type) : Type :=
  | OwnValue (v : V)
  | ObjectPrototypeMember (key : string).
Arguments OwnValue {V} v.
Arguments ObjectPrototypeMember {V} key.

(** [o[key]]: own properties first, then the prototype chain; [None] is
    [undefined]. *)
Definition get_property {V : Type} (o : list (string * V)) (key : string)
  : option (property V) :=
  match own_property o key with
  | Some v => Some (OwnValue v)
  | None =>
      if decide (key ∈ Object_prototype_keys)
      then Some (ObjectPrototypeMember key)
      else None
  end.

(** The outcome of a call: a value, an [Error] thrown with a message (for
    an [async] function, a rejected promise), or a promise that is never
    settled. *)
Inductive result (A : Type) : Type :=
  | Ok (a : A)
  | Throw (message : string)
  | Pending.
Arguments Ok {A} a.
Arguments Throw {A} message.
Arguments Pending {A}.

(** [getModelConfig] *)
Definition getModelConfig (modelId : string) : result (property ModelConfig) :=
  match get_property MODEL_CONFIGS modelId with
  | Some config => Ok config
  | None =>
      Throw ("Unknown model: " +:+ modelId +:+ ". Available models: "
             +:+ String.concat ", " (Object_keys MODEL_CONFIGS))
  end.

(** ** core/imageutils.ts *)

(** A canvas (or image bitmap): its size and its RGBA bitmap, row by row. *)
Record Canvas := {
  width : nat;
  height : nat;
  bitmap : Uint8ClampedArray
}.

(** The rectangle [{ x, y, w, h }] returned by [resizeAndPadBox]. *)
Record Box := { box_x : number; box_y : number; box_w : number; box_h : number }.

(** The part of the 2D context that the browser implements: the bitmap that
    [ctx.drawImage(source, sx, sy, sw, sh, dx, dy, dw, dh)] leaves in the
    destination canvas (source rectangle and destination rectangle as
    boxes).  Scaling and filtering are the browser's. *)
Record Browser := {
  drawImage_bitmap : Canvas → Box → Box → Canvas → Uint8ClampedArray
}.

(** [ctx.drawImage(...)] on the context of [dst] with a canvas as source:
    it throws when the source canvas has no pixels; the size of [dst] is
    not affected. *)
Definition drawImage (br : Browser) (dst source : Canvas) (src_rect dst_rect : Box)
  : result Canvas :=
  if decide (width source = 0 ∨ height source = 0)
  then Throw "InvalidStateError: the image argument is a canvas element with a width or height of 0."
  else Ok {| width := width dst; height := height dst;
             bitmap := drawImage_bitmap br source src_rect dst_rect dst |}.

(** [ctx.getImageData(0, 0, canvas.width, canvas.height).data]: the bitmap
    of the canvas; it throws when the rectangle has no pixels. *)
Definition getImageData (canvas : Canvas) : result Uint8ClampedArray :=
  if decide (width canvas = 0 ∨ height canvas = 0)
  then Throw "IndexSizeError: the source width or height is 0."
  else Ok (bitmap canvas).

(** [new OffscreenCanvas(w, h)] followed by [canvas.width = w; canvas.height = h]:
    a transparent black bitmap. *)
Definition new_Canvas (w h : nat) : Canvas :=
  {| width := w; height := h; bitmap := replicate (4 * (w * h)) "000"%byte |}.

(** [ctx.fillStyle = '#000000'; ctx.fillRect(0, 0, w, h)] over the whole canvas. *)
Definition fillRect_black (canvas : Canvas) : Canvas :=
  {| width := width canvas; height := height canvas;
     bitmap := mjoin (replicate (width canvas * height canvas)
                        ["000"; "000"; "000"; "255"]%byte) |}.

(** [resizeCanvas] *)
Definition resizeCanvas (br : Browser) (canvasOrig : Canvas) (size : Size)
  : result Canvas :=
  let canvas := new_Canvas (w size) (h size) in
  drawImage br canvas canvasOrig
    {| box_x := num_of_Z 0; box_y := num_of_Z 0;
       box_w := num_of_nat (width canvasOrig); box_h := num_of_nat (height canvasOrig) |}
    {| box_x := num_of_Z 0; box_y := num_of_Z 0;
       box_w := num_of_nat (w size); box_h := num_of_nat (h size) |}.

(** [resizeAndPadBox]: the box that fits the source into the target
    preserving the aspect ratio. *)
Definition resizeAndPadBox (sourceDim targetDim : Size) : Box :=
  if nseq (num_of_nat (h sourceDim)) (num_of_nat (w sourceDim)) then
    {| box_x := num_of_Z 0; box_y := num_of_Z 0;
       box_w := num_of_nat (w targetDim); box_h := num_of_nat (h targetDim) |}
  else if ngt (num_of_nat (h sourceDim)) (num_of_nat (w sourceDim)) then
    (* Portrait => resize and pad left/right *)
    let newW := nmul (ndiv (num_of_nat (w sourceDim)) (num_of_nat (h sourceDim)))
                     (num_of_nat (w targetDim)) in
    let padLeft := nfloor (ndiv (nsub (num_of_nat (w targetDim)) newW) (num_of_Z 2)) in
    {| box_x := padLeft; box_y := num_of_Z 0;
       box_w := newW; box_h := num_of_nat (h targetDim) |}
  else
    (* Landscape => resize and pad top/bottom *)
    let newH := nmul (ndiv (num_of_nat (h sourceDim)) (num_of_nat (w sourceDim)))
                     (num_of_nat (h targetDim)) in
    let padTop := nfloor (ndiv (nsub (num_of_nat (h targetDim)) newH) (num_of_Z 2)) in
    {| box_x := num_of_Z 0; box_y := padTop;
       box_w := num_of_nat (w targetDim); box_h := newH |}.

(** [createSquareCanvas]: a canvas of the target size, filled with black,
    with the source drawn into the padded position. *)
Definition createSquareCanvas (br : Browser) (source : Canvas) (targetSize : Size)
  : result Canvas :=
  let canvas := new_Canvas (w targetSize) (h targetSize) in
  let canvas := fillRect_black canvas in
  let box := resizeAndPadBox {| w := width source; h := height source |} targetSize in
  drawImage br canvas source
    {| box_x := num_of_Z 0; box_y := num_of_Z 0;
       box_w := num_of_nat (width source); box_h := num_of_nat (height source) |}
    box.

(** The loop of [canvasToFloat32Array] over the RGBA [imageData]. *)
Definition rgbaToChw (imageData : Uint8ClampedArray) (channelSize : nat)
  : Float32Array :=
  for_range channelSize (fun i float32Array =>
    let idx := i * 4 in
    let float32Array :=
      <[i := ndiv (bget imageData idx) (num_of_Z 255)]> float32Array in
    let float32Array :=
      <[i + channelSize := ndiv (bget imageData (idx + 1)) (num_of_Z 255)]> float32Array in
    <[i + 2 * channelSize := ndiv (bget imageData (idx + 2)) (num_of_Z 255)]> float32Array)
    (new_Float32Array (3 * channelSize)).

(** [canvasToFloat32Array]: the tensor in CHW format and its shape
    [1, 3, H, W]. *)
Definition canvasToFloat32Array (canvas : Canvas)
  : result (Float32Array * list nat) :=
  match getImageData canvas with
  | Ok imageData =>
      let shape := [1; 3; height canvas; width canvas] in
      let channelSize := height canvas * width canvas in
      Ok (rgbaToChw imageData channelSize, shape)
  | Throw message => Throw message
  | Pending => Pending
  end.

(** [maskCanvasToFloat32Array]: the average of the RGB channels. *)
Definition maskCanvasToFloat32Array (canvas : Canvas) : result Float32Array :=
  match getImageData canvas with
  | Ok imageData =>
      let n := width canvas * height canvas in
      Ok (for_range n (fun i float32Array =>
            let idx := i * 4 in
            <[i := ndiv (nadd (nadd (bget imageData idx) (bget imageData (idx + 1)))
                              (bget imageData (idx + 2)))
                        (nmul (num_of_Z 3) (num_of_Z 255))]> float32Array)
            (new_Float32Array n))
  | Throw message => Throw message
  | Pending => Pending
  end.

(** [TypedArray.prototype.slice(start, end)] on integer arguments: negative
    arguments count from the end, both are clamped to the length. *)
Definition typed_array_slice {A : Type} (data : list A) (start_ end_ : Z) : list A :=
  let len := Z.of_nat (length data) in
  let k := if (start_ <? 0)%Z then Z.max (len + start_) 0 else Z.min start_ len in
  let final := if (end_ <? 0)%Z then Z.max (len + end_) 0 else Z.min end_ len in
  take (Z.to_nat (final - k)) (drop (Z.to_nat k) data).

(** [sliceTensor]: one mask of a multi-mask tensor [B, Masks, W, H].  When
    [dims] has no entry 2 or 3 the stride is NaN and [slice(NaN, NaN)] is
    [slice(0, 0)]. *)
Definition sliceTensor (data : Float32Array) (dims : list nat) (maskIndex : nat)
  : Float32Array :=
  match dims !! 2, dims !! 3 with
  | Some width, Some height =>
      let stride := width * height in
      let start_ := stride * maskIndex in
      let end_ := start_ + stride in
      typed_array_slice data (Z.of_nat start_) (Z.of_nat end_)
  | _, _ => typed_array_slice data 0 0
  end.

(** [float32ArrayToCanvas]: the mask as a green overlay.  [new ImageData]
    throws unless the data has [4 * width * height] elements and is not
    empty. *)
Definition float32ArrayToCanvas (array : Float32Array) (width height : nat)
  : result Canvas :=
  let imageData :=
    mjoin ((fun v => if ngt v (num_of_Z 0)
                     then ["050"; "205"; "050"; "255"]%byte
                     else ["000"; "000"; "000"; "000"]%byte) <$> array) in
  if decide (0 < length array ∧ length array = width * height)
  then Ok {| width := width; height := height; bitmap := imageData |}
  else Throw "ImageData: the input data length is not equal to (4 * width * height)".

(** The loop state of [findMaskBounds]: [minX], [minY], [maxX], [maxY]. *)
Record Extent := { minX : Z; minY : Z; maxX : Z; maxY : Z }.

(** The scan of [findMaskBounds]. *)
Definition scanMask (data : Float32Array) (width height : nat) (threshold : number)
  : Extent :=
  for_range height (fun y e =>
    for_range width (fun x e =>
      let idx := y * width + x in
      if ngt (aget data idx) threshold then
        {| minX := Z.min (minX e) (Z.of_nat x); minY := Z.min (minY e) (Z.of_nat y);
           maxX := Z.max (maxX e) (Z.of_nat x); maxY := Z.max (maxY e) (Z.of_nat y) |}
      else e) e)
    {| minX := Z.of_nat width; minY := Z.of_nat height; maxX := 0; maxY := 0 |}.

(** [findMaskBounds]: the bounding box of the mask; [threshold] defaults
    to 0. *)
Definition findMaskBounds (data : Float32Array) (width height : nat)
    (threshold : option number) : BoundingBox :=
  let threshold := default (num_of_Z 0) threshold in
  let e := scanMask data width height threshold in
  (* Handle empty mask *)
  if ((minX e >? maxX e) || (minY e >? maxY e))%Z then
    {| bb_x := 0; bb_y := 0; bb_width := 0; bb_height := 0 |}
  else
    {| bb_x := minX e; bb_y := minY e;
       bb_width := maxX e - minX e + 1; bb_height := maxY e - minY e + 1 |}.

(** [canvasToImageBitmap] *)
Definition canvasToImageBitmap (canvas : Canvas) : Canvas := canvas.

(** ** core/SAM2.ts *)

Abbreviation ArrayBuffer := (list byte).

(** An [ort.Tensor] of type float32. *)
Record Tensor := { t_data : Float32Array; t_dims : list nat }.

(** A map from tensor names to tensors (an entry may hold [undefined]). *)
Abbreviation TensorMap := (list (string * option Tensor)).

(** An inference session: the model it was created from and its execution
    provider. *)
Record Session := { session_model : ArrayBuffer; session_provider : string }.

(** The response of [fetch]: a transport error, or a response with its
    [ok] flag, status and body ([None] when reading the body fails). *)
Inductive FetchOutcome :=
  | TransportError
  | HttpResponse (ok : bool) (status : nat) (body : option ArrayBuffer).

(** What the code does to its environment, in order. *)
Inductive Event :=
  | EvFetch (url : string)
  | EvCacheWrite (filename : string)
  | EvSessionCreate (ep : string)
  | EvSessionRun (session : Session) (inputs : TensorMap)
  | EvSessionRelease (session : Session).

(** The environment of the worker: the origin private file system ([None]
    when [navigator.storage.getDirectory()] fails), the network, the
    inference backend, and the trace of what was done to them. *)
Record World := {
  opfs : option (gmap string ArrayBuffer);
  trace : list Event;
  fetch : string → FetchOutcome;
  opfs_write_ok : string → bool;
  session_create_ok : ArrayBuffer → string → bool;
  session_outputNames : Session → list string;
  session_run : Session → TensorMap → result TensorMap
}.

Definition with_opfs (wd : World) (files : option (gmap string ArrayBuffer)) : World :=
  {| opfs := files; trace := trace wd; fetch := fetch wd;
     opfs_write_ok := opfs_write_ok wd; session_create_ok := session_create_ok wd;
     session_outputNames := session_outputNames wd; session_run := session_run wd |}.

Definition log_event (ev : Event) (wd : World) : World :=
  {| opfs := opfs wd; trace := trace wd ++ [ev]; fetch := fetch wd;
     opfs_write_ok := opfs_write_ok wd; session_create_ok := session_create_ok wd;
     session_outputNames := session_outputNames wd; session_run := session_run wd |}.

(** [s.split('/')] *)
Fixpoint split_slash_from (current : string) (s : string) : list string :=
  match s with
  | EmptyString => [current]
  | String c rest =>
      if decide (c = "/"%char) then current :: split_slash_from "" rest
      else split_slash_from (current +:+ String c "") rest
  end.
Definition split_slash (s : string) : list string := split_slash_from "" s.

(** [url.split('/').pop() ?? 'model.onnx'] *)
Definition model_filename (url : string) : string :=
  default "model.onnx" (last (split_slash url)).

(** Step 1 of [downloadModel]: the cached file, when it exists and is not
    empty. *)
Definition cache_lookup (wd : World) (filename : string) : option ArrayBuffer :=
  match opfs wd with
  | Some files =>
      match files !! filename with
      | Some file => if decide (0 < length file) then Some file else None
      | None => None
      end
  | None => None
  end.

(** Step 3 of [downloadModel]: cache in OPFS; a failure is only logged. *)
Definition cache_store (wd : World) (filename : string) (buffer : ArrayBuffer) : World :=
  match opfs wd with
  | Some files =>
      if opfs_write_ok wd filename
      then log_event (EvCacheWrite filename)
             (with_opfs wd (Some (<[filename := buffer]> files)))
      else wd
  | None => wd
  end.

(** [downloadModel]: download a single model with OPFS caching; [None] is
    [null]. *)
Definition downloadModel (url : string) (wd : World) : option ArrayBuffer * World :=
  let filename := model_filename url in
  (* Step 1: Check OPFS cache *)
  match cache_lookup wd filename with
  | Some file => (Some file, wd)
  | None =>
      (* Step 2: Download *)
      let wd := log_event (EvFetch url) wd in
      match fetch wd url with
      | HttpResponse true _ (Some buffer) =>
          (* Step 3: Cache in OPFS *)
          (Some buffer, cache_store wd filename buffer)
      | _ => (None, wd)
      end
  end.

Record SAM2 := {
  bufferEncoder : option ArrayBuffer;
  bufferDecoder : option ArrayBuffer;
  sessionEncoder : option (Session * string);
  sessionDecoder : option (Session * string);
  imageEncoded : option TensorMap;
  modelConfig : ModelConfig
}.

(** [new SAM2(modelConfig)] *)
Definition new_SAM2 (cfg : ModelConfig) : SAM2 :=
  {| bufferEncoder := None; bufferDecoder := None;
     sessionEncoder := None; sessionDecoder := None;
     imageEncoded := None; modelConfig := cfg |}.

(** [downloadModels] *)
Definition downloadModels (this : SAM2) (wd : World) : SAM2 * World :=
  let '(enc, wd) := downloadModel (encoderUrl (modelConfig this)) wd in
  let '(dec, wd) := downloadModel (decoderUrl (modelConfig this)) wd in
  ({| bufferEncoder := enc; bufferDecoder := dec;
      sessionEncoder := sessionEncoder this; sessionDecoder := sessionDecoder this;
      imageEncoded := imageEncoded this; modelConfig := modelConfig this |}, wd).

(** One turn of the provider loop of [getORTSession]. *)
Definition try_provider (model : ArrayBuffer) (ep : string) (wd : World)
  : option (Session * string) * World :=
  let wd := log_event (EvSessionCreate ep) wd in
  if session_create_ok wd model ep
  then (Some ({| session_model := model; session_provider := ep |}, ep), wd)
  else (None, wd).

(** [getORTSession]: tries WebGPU first, falls back to CPU. *)
Definition getORTSession (model : ArrayBuffer) (wd : World)
  : result (Session * string) * World :=
  match try_provider model "webgpu" wd with
  | (Some s, wd) => (Ok s, wd)
  | (None, wd) =>
      match try_provider model "cpu" wd with
      | (Some s, wd) => (Ok s, wd)
      | (None, wd) =>
          (Throw "[SAM] Failed to create ONNX session with any provider", wd)
      end
  end.

Definition set_sessionEncoder (this : SAM2) (s : option (Session * string)) : SAM2 :=
  {| bufferEncoder := bufferEncoder this; bufferDecoder := bufferDecoder this;
     sessionEncoder := s; sessionDecoder := sessionDecoder this;
     imageEncoded := imageEncoded this; modelConfig := modelConfig this |}.

Definition set_sessionDecoder (this : SAM2) (s : option (Session * string)) : SAM2 :=
  {| bufferEncoder := bufferEncoder this; bufferDecoder := bufferDecoder this;
     sessionEncoder := sessionEncoder this; sessionDecoder := s;
     imageEncoded := imageEncoded this; modelConfig := modelConfig this |}.

Definition set_imageEncoded (this : SAM2) (e : option TensorMap) : SAM2 :=
  {| bufferEncoder := bufferEncoder this; bufferDecoder := bufferDecoder this;
     sessionEncoder := sessionEncoder this; sessionDecoder := sessionDecoder this;
     imageEncoded := e; modelConfig := modelConfig this |}.

(** [getEncoderSession]: get or create the encoder session. *)
Definition getEncoderSession (this : SAM2) (wd : World)
  : result (option (Session * string)) * SAM2 * World :=
  match sessionEncoder this, bufferEncoder this with
  | None, Some buffer =>
      match getORTSession buffer wd with
      | (Ok s, wd) => (Ok (Some s), set_sessionEncoder this (Some s), wd)
      | (Throw m, wd) => (Throw m, this, wd)
      | (Pending, wd) => (Pending, this, wd)
      end
  | s, _ => (Ok s, this, wd)
  end.

(** [getDecoderSession]: get or create the decoder session. *)
Definition getDecoderSession (this : SAM2) (wd : World)
  : result (option (Session * string)) * SAM2 * World :=
  match sessionDecoder this, bufferDecoder this with
  | None, Some buffer =>
      match getORTSession buffer wd with
      | (Ok s, wd) => (Ok (Some s), set_sessionDecoder this (Some s), wd)
      | (Throw m, wd) => (Throw m, this, wd)
      | (Pending, wd) => (Pending, this, wd)
      end
  | s, _ => (Ok s, this, wd)
  end.

(** The report of [createSessions]: [{ success, device }]. *)
Record SessionReport := { success : bool; device : option string }.

(** [createSessions] *)
Definition createSessions (this : SAM2) (wd : World)
  : result SessionReport * SAM2 * World :=
  match getEncoderSession this wd with
  | (Ok (Some _), this, wd) =>
      match getDecoderSession this wd with
      | (Ok (Some _), this, wd) =>
          (Ok {| success := true; device := snd <$> sessionEncoder this |}, this, wd)
      | (Ok None, this, wd) => (Ok {| success := false; device := None |}, this, wd)
      | (Throw m, this, wd) => (Throw m, this, wd)
      | (Pending, this, wd) => (Pending, this, wd)
      end
  | (Ok None, this, wd) => (Ok {| success := false; device := None |}, this, wd)
  | (Throw m, this, wd) => (Throw m, this, wd)
  | (Pending, this, wd) => (Pending, this, wd)
  end.

(** [results[session.outputNames[i]]] *)
Definition output_at (wd : World) (session : Session) (results : TensorMap) (i : nat)
  : option Tensor :=
  name ← session_outputNames wd session !! i;
  mjoin (own_property results name).

(** The message of the TypeError raised by destructuring [null]. *)
Definition null_not_iterable : string := "TypeError: null is not iterable".

(** [encodeImage]: encode the image to embeddings. *)
Definition encodeImage (this : SAM2) (inputTensor : Tensor) (wd : World)
  : result () * SAM2 * World :=
  match getEncoderSession this wd with
  | (Ok (Some (session, _)), this, wd) =>
      let inputs := [(encoderInputName (modelConfig this), Some inputTensor)] in
      let wd := log_event (EvSessionRun session inputs) wd in
      match session_run wd session inputs with
      | Ok results =>
          (* Handle different encoder output structures *)
          match modelType (modelConfig this) with
          | sam2 =>
              (Ok (), set_imageEncoded this (Some
                 [("high_res_feats_0", output_at wd session results 0);
                  ("high_res_feats_1", output_at wd session results 1);
                  ("image_embed", output_at wd session results 2)]), wd)
          | mobilesam =>
              (Ok (), set_imageEncoded this (Some
                 [("image_embed", output_at wd session results 0)]), wd)
          end
      | Throw m => (Throw m, this, wd)
      | Pending => (Pending, this, wd)
      end
  | (Ok None, this, wd) => (Throw null_not_iterable, this, wd)
  | (Throw m, this, wd) => (Throw m, this, wd)
  | (Pending, this, wd) => (Pending, this, wd)
  end.

(** A point prompt: [{ x, y, label }]. *)
Record PointPrompt := { px : number; py : number; label : nat }.

(** The inputs of the decoder session, built by [decode]. *)
Definition decoderInputs (this : SAM2) (encoded : TensorMap)
    (points : list PointPrompt) (masks : option Tensor) : TensorMap :=
  let flatPoints := (fun p => [px p; py p]) <$> points in
  let flatLabels := (fun p => num_of_nat (label p)) <$> points in
  let maskInput :=
    match masks with
    | Some m => m
    | None =>
        (* Dummy mask when no previous mask *)
        {| t_data := new_Float32Array (256 * 256); t_dims := [1; 1; 256; 256] |}
    end in
  let hasMaskInput :=
    match masks with
    | Some _ => {| t_data := [num_of_Z 1]; t_dims := [1] |}
    | None => {| t_data := [num_of_Z 0]; t_dims := [1] |}
    end in
  let point_coords :=
    {| t_data := mjoin flatPoints; t_dims := [1; length flatPoints; 2] |} in
  let point_labels :=
    {| t_data := flatLabels; t_dims := [1; length flatLabels] |} in
  match modelType (modelConfig this) with
  | mobilesam =>
      [ ("image_embeddings", mjoin (own_property encoded "image_embed"));
        ("point_coords", Some point_coords);
        ("point_labels", Some point_labels);
        ("mask_input", Some maskInput);
        ("has_mask_input", Some hasMaskInput);
        ("orig_im_size",
         Some {| t_data := [num_of_nat (h (imageSize (modelConfig this)));
                            num_of_nat (w (imageSize (modelConfig this)))];
                 t_dims := [2] |}) ]
  | sam2 =>
      [ ("image_embed", mjoin (own_property encoded "image_embed"));
        ("high_res_feats_0", mjoin (own_property encoded "high_res_feats_0"));
        ("high_res_feats_1", mjoin (own_property encoded "high_res_feats_1"));
        ("point_coords", Some point_coords);
        ("point_labels", Some point_labels);
        ("mask_input", Some maskInput);
        ("has_mask_input", Some hasMaskInput) ]
  end.

(** [decode]: decode segmentation masks from point prompts. *)
Definition decode (this : SAM2) (points : list PointPrompt) (masks : option Tensor)
    (wd : World) : result TensorMap * SAM2 * World :=
  match imageEncoded this with
  | None => (Throw "[SAM] Image not encoded. Call encodeImage first.", this, wd)
  | Some encoded =>
      match getDecoderSession this wd with
      | (Ok (Some (session, _)), this, wd) =>
          let inputs := decoderInputs this encoded points masks in
          let wd := log_event (EvSessionRun session inputs) wd in
          (session_run wd session inputs, this, wd)
      | (Ok None, this, wd) => (Throw null_not_iterable, this, wd)
      | (Throw m, this, wd) => (Throw m, this, wd)
      | (Pending, this, wd) => (Pending, this, wd)
      end
  end.

(** [dispose]: dispose of resources. *)
Definition dispose (this : SAM2) (wd : World) : SAM2 * World :=
  let wd := match sessionEncoder this with
            | Some (s, _) => log_event (EvSessionRelease s) wd
            | None => wd
            end in
  let wd := match sessionDecoder this with
            | Some (s, _) => log_event (EvSessionRelease s) wd
            | None => wd
            end in
  ({| bufferEncoder := None; bufferDecoder := None;
      sessionEncoder := None; sessionDecoder := None;
      imageEncoded := None; modelConfig := modelConfig this |}, wd).

(** ** core/worker.ts: the message handler *)

(** [new Tensor('float32', data, dims)]: the constructor checks that the
    data has as many elements as the dimensions announce. *)
Definition new_Tensor (data : Float32Array) (dims : list nat) : result Tensor :=
  if decide (length data = foldr Nat.mul 1 dims)
  then Ok {| t_data := data; t_dims := dims |}
  else Throw "Tensor's size does not match data length.".

(** Messages sent from the main thread to the worker. *)
Inductive Request :=
  | Ping (modelId : option string)
  | EncodeImageRequest (float32Array : Float32Array) (shape : list nat)
  | DecodeMaskRequest (points : list PointPrompt)
      (maskArray : option Float32Array) (maskShape : option (list nat))
  | StatsRequest
  | UnknownRequest (type : string).

(** [WorkerStats]; the timing lists are not represented. *)
Record WorkerStats := { stats_modelId : option string; stats_device : string }.

(** Messages sent from the worker to the main thread; the measured
    durations are not represented. *)
Inductive Response :=
  | DownloadInProgress
  | LoadingInProgress
  | Pong (report : SessionReport)
  | EncodeImageDone
  | DecodeMaskResult (masks iou_predictions : Tensor)
  | StatsMessage (stats : WorkerStats)
  | ErrorMessage (message : string).

(** The worker's variable [sam]: [null], a [SAM2] built on a descriptor, or
    a [SAM2] built on a member of [Object.prototype] that [getModelConfig]
    returned in place of a descriptor (each of its descriptor fields reads
    as [undefined]). *)
Inductive SamSlot :=
  | SamNull
  | SamOn (sam : SAM2)
  | SamOnPrototypeMember (key : string).

(** The global scope of the worker, with the environment it runs in. *)
Record WorkerScope := { sam : SamSlot; stats : WorkerStats; world : World }.

(** [new Worker(url)]: the scope a worker starts with in environment [env]. *)
Definition new_WorkerScope (env : World) : WorkerScope :=
  {| sam := SamNull;
     stats := {| stats_modelId := None; stats_device := "unknown" |};
     world := env |}.

(** The message of the TypeError raised by reading a property of [undefined]. *)
Definition undefined_property (prop : string) : string :=
  "TypeError: Cannot read properties of undefined (reading '" +:+ prop +:+ "')".

(** [a || b] on optional tensors. *)
Definition or_else (a b : option Tensor) : option Tensor :=
  match a with Some t => Some t | None => b end.

(** The [ping] branch. *)
Definition onPing (modelId : option string) (ws : WorkerScope)
  : list Response * WorkerScope :=
  let modelId :=
    match modelId with
    | Some m => if decide (m = "") then DEFAULT_MODEL_ID else m
    | None => DEFAULT_MODEL_ID
    end in
  match getModelConfig modelId with
  | Ok (OwnValue modelConfig) =>
      let sam := new_SAM2 modelConfig in
      let '(sam, wd) := downloadModels sam (world ws) in
      match createSessions sam wd with
      | (Ok report, sam, wd) =>
          let stats := {| stats_modelId := Some modelId;
                          stats_device := default "unknown" (device report) |} in
          ([DownloadInProgress; LoadingInProgress; Pong report; StatsMessage stats],
           {| sam := SamOn sam; stats := stats; world := wd |})
      | (Throw message, sam, wd) =>
          ([DownloadInProgress; LoadingInProgress; ErrorMessage message],
           {| sam := SamOn sam;
              stats := {| stats_modelId := Some modelId;
                          stats_device := stats_device (stats ws) |};
              world := wd |})
      | (Pending, sam, wd) =>
          ([DownloadInProgress; LoadingInProgress],
           {| sam := SamOn sam;
              stats := {| stats_modelId := Some modelId;
                          stats_device := stats_device (stats ws) |};
              world := wd |})
      end
  | Ok (ObjectPrototypeMember key) =>
      ([DownloadInProgress; ErrorMessage (undefined_property "split")],
       {| sam := SamOnPrototypeMember key;
          stats := {| stats_modelId := Some modelId;
                      stats_device := stats_device (stats ws) |};
          world := world ws |})
  | Throw message => ([ErrorMessage message], ws)
  | Pending => ([], ws)
  end.

(** The [encodeImage] branch. *)
Definition onEncodeImage (float32Array : Float32Array) (shape : list nat)
    (ws : WorkerScope) : list Response * WorkerScope :=
  match sam ws with
  | SamNull => ([ErrorMessage "Worker not initialized. Send ping first."], ws)
  | SamOn sam =>
      let '(tensorData, tensorShape) :=
        encodeImageTensor (modelConfig sam) float32Array shape in
      match new_Tensor tensorData tensorShape with
      | Ok imgTensor =>
          match encodeImage sam imgTensor (world ws) with
          | (Ok _, sam, wd) =>
              ([EncodeImageDone; StatsMessage (stats ws)],
               {| sam := SamOn sam; stats := stats ws; world := wd |})
          | (Throw message, sam, wd) =>
              ([ErrorMessage message],
               {| sam := SamOn sam; stats := stats ws; world := wd |})
          | (Pending, sam, wd) =>
              ([], {| sam := SamOn sam; stats := stats ws; world := wd |})
          end
      | Throw message => ([ErrorMessage message], ws)
      | Pending => ([], ws)
      end
  | SamOnPrototypeMember _ =>
      match new_Tensor float32Array (drop 1 shape) with
      | Ok _ => ([ErrorMessage null_not_iterable], ws)
      | Throw message => ([ErrorMessage message], ws)
      | Pending => ([], ws)
      end
  end.

(** The [decodeMask] branch. *)
Definition onDecodeMask (points : list PointPrompt) (maskArray : option Float32Array)
    (maskShape : option (list nat)) (ws : WorkerScope)
  : list Response * WorkerScope :=
  let maskTensor : result (option Tensor) :=
    match maskArray, maskShape with
    | Some a, Some s =>
        match new_Tensor a s with
        | Ok t => Ok (Some t)
        | Throw message => Throw message
        | Pending => Pending
        end
    | _, _ => Ok None
    end in
  match sam ws, maskTensor with
  | SamNull, _ => ([ErrorMessage "Worker not initialized. Send ping first."], ws)
  | _, Throw message => ([ErrorMessage message], ws)
  | _, Pending => ([], ws)
  | SamOn sam, Ok masks =>
      match decode sam points masks (world ws) with
      | (Ok decodingResults, sam, wd) =>
          let ws := {| sam := SamOn sam; stats := stats ws; world := wd |} in
          let masks := or_else (mjoin (own_property decodingResults "masks"))
                               (mjoin (own_property decodingResults "low_res_masks")) in
          let iouPredictions :=
            or_else (mjoin (own_property decodingResults "iou_predictions"))
                    (mjoin (own_property decodingResults "iou_pred")) in
          match masks, iouPredictions with
          | Some masks, Some iouPredictions =>
              ([DecodeMaskResult masks iouPredictions; StatsMessage (stats ws)], ws)
          | None, _ => ([ErrorMessage (undefined_property "data")], ws)
          | _, None => ([ErrorMessage (undefined_property "data")], ws)
          end
      | (Throw message, sam, wd) =>
          ([ErrorMessage message],
           {| sam := SamOn sam; stats := stats ws; world := wd |})
      | (Pending, sam, wd) =>
          ([], {| sam := SamOn sam; stats := stats ws; world := wd |})
      end
  | SamOnPrototypeMember _, Ok _ =>
      ([ErrorMessage "[SAM] Image not encoded. Call encodeImage first."], ws)
  end.

(** [self.onmessage]: the messages posted in answer to a request, and the
    scope afterwards. *)
Definition onmessage (request : Request) (ws : WorkerScope)
  : list Response * WorkerScope :=
  match request with
  | Ping modelId => onPing modelId ws
  | EncodeImageRequest float32Array shape => onEncodeImage float32Array shape ws
  | DecodeMaskRequest points maskArray maskShape =>
      onDecodeMask points maskArray maskShape ws
  | StatsRequest => ([StatsMessage (stats ws)], ws)
  | UnknownRequest type => ([ErrorMessage ("Unknown message type: " +:+ type)], ws)
  end.

(** ** SAMWorker.ts *)

(** The promise a request method returns: settled by the first message of
    the worker's answer that the method's listener recognises, never
    settled when there is none. *)
Fixpoint first_settled {A : Type} (listener : Response → option (result A))
    (messages : list Response) : result A :=
  match messages with
  | [] => Pending
  | m :: rest =>
      match listener m with
      | Some r => r
      | None => first_settled listener rest
      end
  end.

Module SAMWorker.

(** The worker manager; progress callbacks are not represented. *)
Record t := { worker : option WorkerScope; initialized : bool }.

(** [new SAMWorker(onProgress)] *)
Definition new : t := {| worker := None; initialized := false |}.

(** [createWorker(workerUrl)], then [setWorker]: start a worker in the
    environment [env]; a previous worker is terminated. *)
Definition createWorker (this : t) (env : World) : t :=
  {| worker := Some (new_WorkerScope env); initialized := initialized this |}.

(** [initialize(modelId)] *)
Definition initialize (this : t) (modelId : string) : result SessionReport * t :=
  match worker this with
  | None => (Throw "Worker not set. Call setWorker() first.", this)
  | Some ws =>
      let '(messages, ws) := onmessage (Ping (Some modelId)) ws in
      let settled :=
        first_settled (fun m => match m with
                                | Pong report => Some (Ok report)
                                | ErrorMessage message => Some (Throw message)
                                | _ => None
                                end) messages in
      (settled,
       {| worker := Some ws;
          initialized := match settled with
                         | Ok _ => true
                         | _ => initialized this
                         end |})
  end.

(** [encodeImage(float32Array, shape)] *)
Definition encodeImage (this : t) (float32Array : Float32Array) (shape : list nat)
  : result () * t :=
  match worker this with
  | Some ws =>
      if initialized this then
        let '(messages, ws) := onmessage (EncodeImageRequest float32Array shape) ws in
        (first_settled (fun m => match m with
                                 | EncodeImageDone => Some (Ok ())
                                 | ErrorMessage message => Some (Throw message)
                                 | _ => None
                                 end) messages,
         {| worker := Some ws; initialized := initialized this |})
      else (Throw "Worker not initialized", this)
  | None => (Throw "Worker not initialized", this)
  end.

(** [decodeMask(points, maskArray, maskShape)] *)
Definition decodeMask (this : t) (points : list PointPrompt)
    (maskArray : option Float32Array) (maskShape : option (list nat))
  : result (Tensor * Tensor) * t :=
  match worker this with
  | Some ws =>
      if initialized this then
        let '(messages, ws) :=
          onmessage (DecodeMaskRequest points maskArray maskShape) ws in
        (first_settled (fun m => match m with
                                 | DecodeMaskResult masks iou_predictions =>
                                     Some (Ok (masks, iou_predictions))
                                 | ErrorMessage message => Some (Throw message)
                                 | _ => None
                                 end) messages,
         {| worker := Some ws; initialized := initialized this |})
      else (Throw "Worker not initialized", this)
  | None => (Throw "Worker not initialized", this)
  end.

(** [terminate()] *)
Definition terminate (this : t) : t :=
  match worker this with
  | Some _ => {| worker := None; initialized := false |}
  | None => this
  end.

End SAMWorker.

(** ** SAMClient.ts *)

(** [ImageInput]: a canvas, an [ImageData], or an image element or bitmap. *)
Inductive ImageInput :=
  | InputCanvas (canvas : Canvas)
  | InputImageData (width height : nat) (data : Uint8ClampedArray)
  | InputImage (width height : nat) (pixels : Uint8ClampedArray).

(** [imageToCanvas] *)
Definition imageToCanvas (input : ImageInput) : Canvas :=
  match input with
  | InputCanvas canvas => canvas
  | InputImageData width height data =>
      {| width := width; height := height; bitmap := data |}
  | InputImage width height pixels =>
      {| width := width; height := height; bitmap := pixels |}
  end.

(** [BoxPrompt]: corners in normalized coordinates. *)
Record BoxPrompt := { x1 : number; y1 : number; x2 : number; y2 : number }.

(** The bounding box of a [SegmentResult], normalized to 0-1. *)
Record NormalizedBounds := { nb_x : number; nb_y : number;
                             nb_width : number; nb_height : number }.

(** [SegmentResult]; [sr_shape] is [height, width]. *)
Record SegmentResult := {
  sr_bitmap : Canvas;
  sr_data : Float32Array;
  sr_shape : nat * nat;
  sr_score : number;
  sr_bounds : NormalizedBounds
}.

(** [SegmentOptions] *)
Record SegmentOptions := {
  points : option (list PointPrompt);
  box : option BoxPrompt;
  previousMask : option SegmentResult
}.

(** The scan of [segment] for the best mask by IoU score: the pair
    [(bestMaskIdx, bestScore)]. *)
Definition bestMask (iouData : Float32Array) : nat * number :=
  for_range (length iouData) (fun i best =>
    if ngt (aget iouData i) best.2 then (i, aget iouData i) else best)
    (0, NegInfinity).

(** A double quote. *)
Definition dquote : string := String (ascii_of_nat 34) EmptyString.

Module SAMClient.

Record t := {
  worker : SAMWorker.t;
  modelConfig : ModelConfig;
  imageCanvas : option Canvas;
  encodedImageSize : option Size;
  isReady : bool
}.

(** The client the constructor builds for the descriptor [cfg]. *)
Definition new (cfg : ModelConfig) : t :=
  {| worker := SAMWorker.new; modelConfig := cfg; imageCanvas := None;
     encodedImageSize := None; isReady := false |}.

Definition set_worker (this : t) (wk : SAMWorker.t) : t :=
  {| worker := wk; modelConfig := modelConfig this; imageCanvas := imageCanvas this;
     encodedImageSize := encodedImageSize this; isReady := isReady this |}.

(** [initialize(workerUrl)]; [env] is the environment the worker runs in. *)
Definition initialize (this : t) (workerUrl : option string) (env : World)
  : result () * t :=
  match workerUrl with
  | Some _ =>
      let this := set_worker this (SAMWorker.createWorker (worker this) env) in
      match SAMWorker.initialize (worker this) (id (modelConfig this)) with
      | (Ok report, wk) =>
          let this := set_worker this wk in
          if success report then
            (Ok (),
             {| worker := worker this; modelConfig := modelConfig this;
                imageCanvas := imageCanvas this;
                encodedImageSize := encodedImageSize this; isReady := true |})
          else (Throw "Failed to initialize SAM model", this)
      | (Throw message, wk) => (Throw message, set_worker this wk)
      | (Pending, wk) => (Pending, set_worker this wk)
      end
  | None =>
      (Throw ("Worker URL required. Use: new URL(" +:+ dquote
              +:+ "@anthropic-ai/sam-web/worker" +:+ dquote
              +:+ ", import.meta.url)"), this)
  end.

(** [setImage(image)]: load and encode an image. *)
Definition setImage (br : Browser) (this : t) (image : ImageInput) : result () * t :=
  if negb (isReady this) then
    (Throw "Client not initialized. Call initialize() first.", this)
  else
    (* Convert to canvas *)
    let sourceCanvas := imageToCanvas image in
    (* Create square canvas with padding *)
    match createSquareCanvas br sourceCanvas (imageSize (modelConfig this)) with
    | Ok squareCanvas =>
        (* Store for later coordinate conversion *)
        let this :=
          {| worker := worker this; modelConfig := modelConfig this;
             imageCanvas := Some squareCanvas;
             encodedImageSize := Some (imageSize (modelConfig this));
             isReady := isReady this |} in
        (* Convert to tensor *)
        match canvasToFloat32Array squareCanvas with
        | Ok (float32Array, shape) =>
            (* Encode in worker *)
            match SAMWorker.encodeImage (worker this) float32Array shape with
            | (Ok _, wk) => (Ok (), set_worker this wk)
            | (Throw message, wk) => (Throw message, set_worker this wk)
            | (Pending, wk) => (Pending, set_worker this wk)
            end
        | Throw message => (Throw message, this)
        | Pending => (Pending, this)
        end
    | Throw message => (Throw message, this)
    | Pending => (Pending, this)
    end.

(** The point prompts [segment] sends: the user points and the two corners
    of the box, in pixel coordinates of the encoded image. *)
Definition allPoints (size : Size) (options : SegmentOptions) : list PointPrompt :=
  ((fun p => {| px := nmul (px p) (num_of_nat (w size));
                py := nmul (py p) (num_of_nat (h size));
                label := label p |}) <$> default [] (points options))
  ++ match box options with
     | Some box =>
         [ {| px := nmul (x1 box) (num_of_nat (w size));
              py := nmul (y1 box) (num_of_nat (h size)); label := 2 |};
           {| px := nmul (x2 box) (num_of_nat (w size));
              py := nmul (y2 box) (num_of_nat (h size)); label := 3 |} ]
     | None => []
     end.

(** The previous mask, resized to [maskSize] for refinement:
    [maskArray] and [maskShape]. *)
Definition previousMaskInput (br : Browser) (this : t) (previousMask : SegmentResult)
  : result (Float32Array * list nat) :=
  match float32ArrayToCanvas (sr_data previousMask)
          (sr_shape previousMask).2 (sr_shape previousMask).1 with
  | Ok prevCanvas =>
      match resizeCanvas br prevCanvas (maskSize (modelConfig this)) with
      | Ok resizedMask =>
          match maskCanvasToFloat32Array resizedMask with
          | Ok maskArray =>
              Ok (maskArray,
                  [1; 1; h (maskSize (modelConfig this)); w (maskSize (modelConfig this))])
          | Throw message => Throw message
          | Pending => Pending
          end
      | Throw message => Throw message
      | Pending => Pending
      end
  | Throw message => Throw message
  | Pending => Pending
  end.

(** The result [segment] builds from the decoder's answer. *)
Definition selectResult (masks iou_predictions : Tensor) : result SegmentResult :=
  let maskData := t_data masks in
  let iouData := t_data iou_predictions in
  (* Find best mask by IoU score *)
  let '(bestMaskIdx, bestScore) := bestMask iouData in
  (* Extract best mask *)
  let maskWidth := dim (t_dims masks) 3 in
  let maskHeight := dim (t_dims masks) 2 in
  let bestMaskData := sliceTensor maskData (t_dims masks) bestMaskIdx in
  (* Create canvas from mask *)
  match float32ArrayToCanvas bestMaskData maskWidth maskHeight with
  | Ok maskCanvas =>
      let bitmap := canvasToImageBitmap maskCanvas in
      (* Find bounding box *)
      let bounds := findMaskBounds bestMaskData maskWidth maskHeight None in
      (* Normalize bounds to 0-1 *)
      let normalizedBounds :=
        {| nb_x := ndiv (num_of_Z (bb_x bounds)) (num_of_nat maskWidth);
           nb_y := ndiv (num_of_Z (bb_y bounds)) (num_of_nat maskHeight);
           nb_width := ndiv (num_of_Z (bb_width bounds)) (num_of_nat maskWidth);
           nb_height := ndiv (num_of_Z (bb_height bounds)) (num_of_nat maskHeight) |} in
      Ok {| sr_bitmap := bitmap; sr_data := bestMaskData;
            sr_shape := (maskHeight, maskWidth); sr_score := bestScore;
            sr_bounds := normalizedBounds |}
  | Throw message => Throw message
  | Pending => Pending
  end.

(** [segment(options)]: segment objects based on point and box prompts. *)
Definition segment (br : Browser) (this : t) (options : SegmentOptions)
  : result SegmentResult * t :=
  match isReady this, imageCanvas this, encodedImageSize this with
  | true, Some _, Some size =>
      (* Build point prompts *)
      let allPoints := allPoints size options in
      if decide (length allPoints = 0) then
        (Throw "At least one point or box required", this)
      else
        (* Prepare previous mask if provided *)
        let prepared : result (option (Float32Array * list nat)) :=
          match previousMask options with
          | Some previousMask =>
              match previousMaskInput br this previousMask with
              | Ok m => Ok (Some m)
              | Throw message => Throw message
              | Pending => Pending
              end
          | None => Ok None
          end in
        match prepared with
        | Ok mask =>
            (* Decode mask *)
            match SAMWorker.decodeMask (worker this) allPoints (fst <$> mask) (snd <$> mask) with
            | (Ok (masks, iou_predictions), wk) =>
                (* Process result - select best mask *)
                (selectResult masks iou_predictions, set_worker this wk)
            | (Throw message, wk) => (Throw message, set_worker this wk)
            | (Pending, wk) => (Pending, set_worker this wk)
            end
        | Throw message => (Throw message, this)
        | Pending => (Pending, this)
        end
  | true, Some _, None =>
      match default [] (points options), box options with
      | [], None => (Throw "At least one point or box required", this)
      | _, _ => (Throw "TypeError: Cannot read properties of null (reading 'w')", this)
      end
  | _, _, _ => (Throw "Image not set. Call setImage() first.", this)
  end.

(** [dispose()]: cleanup resources. *)
Definition dispose (this : t) : t :=
  {| worker := SAMWorker.terminate (worker this); modelConfig := modelConfig this;
     imageCanvas := None; encodedImageSize := None; isReady := false |}.

End SAMClient.

(** ** Notions used to state the properties *)

(** Modelled from the spec: the reverse [H, W, C]-to-[C, H, W] transposition
    ("the reverse transform"), which the repository does not implement; it
    is [chwToHwc] with source and destination index exchanged. *)
Definition hwcToChw (hwcArray : Float32Array) (channels height width : nat)
  : Float32Array :=
  let chwArray := new_Float32Array (length hwcArray) in
  let channelSize := height * width in
  for_range height (fun h chwArray =>
    for_range width (fun w chwArray =>
      for_range channels (fun c chwArray =>
        let chwIdx := c * channelSize + h * width + w in
        let hwcIdx := h * width * channels + w * channels + c in
        <[chwIdx := aget hwcArray hwcIdx]> chwArray) chwArray) chwArray) chwArray.

(** Flat index of position (c, h, w) in a [C, H, W] buffer, and of position
    (h, w, c) in an [H, W, C] buffer. *)
Definition chw_index (C H W c h w : nat) : nat := c * (H * W) + h * W + w.
Definition hwc_index (C H W c h w : nat) : nat := h * W * C + w * C + c.

(** The position map of [chwToHwc] on flat indices. *)
Definition chw_to_hwc_pos (C H W i : nat) : nat :=
  hwc_index C H W (i / (H * W)) ((i mod (H * W)) / W) (i mod W).

(** A loop that writes element [f k] with value [g k] for each [k] of [ks]. *)
Definition writes {A K : Type} (f : K → nat) (g : K → A) (init : list A)
    (ks : list K) : list A :=
  foldl (fun acc k => <[f k := g k]> acc) init ks.

(** The iteration spaces of doubly and triply nested counting loops. *)
Definition range2 (n m : nat) : list (nat * nat) :=
  i ← seq 0 n; j ← seq 0 m; [(i, j)].
Definition range3 (n m p : nat) : list (nat * nat * nat) :=
  i ← seq 0 n; j ← seq 0 m; k ← seq 0 p; [(i, j, k)].

(** The value the worker's preprocessing gives to an element [v] of channel
    [c]: normalization as [(v * scale - mean[c]) / std[c]]. *)
Definition normalized (n : Normalization) (c : nat) (v : number) : number :=
  ndiv (nsub (nmul v (scale n)) (aget (mean n) c)) (aget (std n) c).



(** One half, as a number. *)
Definition one_half : number := Fin (Q2Qc (1 # 2)).

(** A number lies in the interval [0, 1]. *)
Definition in_unit_interval (v : number) : bool :=
  nle (num_of_Z 0) v && nle v (num_of_Z 1).

(** The number a byte stands for. *)
Definition num_of_byte (b : byte) : number := num_of_Z (Z.of_N (Byte.to_N b)).


(** The mask value at column [x] of row [y] exceeds the threshold. *)
Definition exceeds (data : Float32Array) (width : nat) (threshold : number)
    (x y : nat) : bool :=
  ngt (aget data (y * width + x)) threshold.

(** One step of the scan of [findMaskBounds], at row [y] and column [x]. *)
Definition scanStep (data : Float32Array) (width : nat) (threshold : number)
    (e : Extent) (yx : nat * nat) : Extent :=
  let '(y, x) := yx in
  if exceeds data width threshold x y then
    {| minX := Z.min (minX e) (Z.of_nat x); minY := Z.min (minY e) (Z.of_nat y);
       maxX := Z.max (maxX e) (Z.of_nat x); maxY := Z.max (maxY e) (Z.of_nat y) |}
  else e.

(** Some position of the [width]-by-[height] field exceeds the threshold. *)
Definition some_exceeds (data : Float32Array) (width height : nat)
    (threshold : number) : Prop :=
  ∃ x y, x < width ∧ y < height ∧ exceeds data width threshold x y = true.

(** The initial loop state of [findMaskBounds]. *)
Definition scanInit (width height : nat) : Extent :=
  {| minX := Z.of_nat width; minY := Z.of_nat height; maxX := 0; maxY := 0 |}.

(** The loop state of [findMaskBounds] after the positions [l]. *)
Definition scanOver (data : Float32Array) (width height : nat) (threshold : number)
    (l : list (nat * nat)) : Extent :=
  foldl (scanStep data width threshold) (scanInit width height) l.

(** The source rectangle [0, 0, source.width, source.height]. *)
Definition whole_canvas (source : Canvas) : Box :=
  {| box_x := num_of_Z 0; box_y := num_of_Z 0;
     box_w := num_of_nat (width source); box_h := num_of_nat (height source) |}.

(** The cache holds the non-empty file [file] under [filename]. *)
Definition cache_holds (wd : World) (filename : string) (file : ArrayBuffer) : Prop :=
  ∃ files, opfs wd = Some files ∧ files !! filename = Some file ∧ 0 < length file.

(** Index [i] is the least index that attains the maximum of [scores]:
    no score is greater than [scores[i]] and every earlier score is
    smaller. *)
Definition least_argmax (scores : Float32Array) (i : nat) : Prop :=
  i < length scores
  ∧ (∀ j, j < length scores → nle (aget scores j) (aget scores i) = true)
  ∧ (∀ j, j < i → nlt (aget scores j) (aget scores i) = true).

(** One turn of the scan for the best mask. *)
Definition bestStep (iouData : Float32Array) (best : nat * number) (i : nat)
  : nat * number :=
  if ngt (aget iouData i) best.2 then (i, aget iouData i) else best.

(** The scores [0.2, 0.91, 0.91, 0.4]. *)
Definition example_scores : Float32Array :=
  [Fin (Q2Qc (2 # 10)); Fin (Q2Qc (91 # 100)); Fin (Q2Qc (91 # 100));
   Fin (Q2Qc (4 # 10))].

(** ** Call sequences and example environments *)

(** A call of a method of [SAM2]. *)
Inductive Call :=
  | CallDownloadModels
  | CallCreateSessions
  | CallEncodeImage (inputTensor : Tensor)
  | CallDecode (points : list PointPrompt) (masks : option Tensor)
  | CallDispose.

(** Whether a result is a value (the call succeeded). *)
Definition succeeded {A : Type} (r : result A) : bool :=
  match r with Ok _ => true | _ => false end.

(** Run one call; the boolean tells whether it succeeded. *)
Definition run_call (c : Call) (this : SAM2) (wd : World) : bool * SAM2 * World :=
  match c with
  | CallDownloadModels => let '(this, wd) := downloadModels this wd in (true, this, wd)
  | CallCreateSessions =>
      let '(r, this, wd) := createSessions this wd in (succeeded r, this, wd)
  | CallEncodeImage t =>
      let '(r, this, wd) := encodeImage this t wd in (succeeded r, this, wd)
  | CallDecode points masks =>
      let '(r, this, wd) := decode this points masks wd in (succeeded r, this, wd)
  | CallDispose => let '(this, wd) := dispose this wd in (true, this, wd)
  end.

(** Run a sequence of calls; the history pairs each call with its success. *)
Fixpoint run_calls (cs : list Call) (this : SAM2) (wd : World)
  : list (Call * bool) * SAM2 * World :=
  match cs with
  | [] => ([], this, wd)
  | c :: rest =>
      let '(ok, this, wd) := run_call c this wd in
      let '(history, this, wd) := run_calls rest this wd in
      ((c, ok) :: history, this, wd)
  end.

(** No [encodeImage] call of the history succeeded. *)
Definition no_successful_encode (history : list (Call * bool)) : Prop :=
  ∀ t, (CallEncodeImage t, true) ∉ history.

(** An environment without cache in which every download succeeds, only
    the cpu provider creates sessions, and every inference run fails. *)
Definition failing_backend_world : World :=
  {| opfs := None; trace := [];
     fetch := fun _ => HttpResponse true 200 (Some ["001"%byte]);
     opfs_write_ok := fun _ => false;
     session_create_ok := fun _ ep => bool_decide (ep = "cpu");
     session_outputNames := fun _ => [];
     session_run := fun _ _ => Throw "inference failed" |}.

(** An environment whose cache holds the file "m.onnx" and whose network
    is down. *)
Definition offline_world : World :=
  {| opfs := Some {[ "m.onnx" := ["001"%byte] ]}; trace := [];
     fetch := fun _ => TransportError;
     opfs_write_ok := fun _ => false;
     session_create_ok := fun _ _ => false;
     session_outputNames := fun _ => [];
     session_run := fun _ _ => Throw "inference failed" |}.

(** A descriptor with the id of [SAM2_TINY_CONFIG] and a 2-by-2 image. *)
Definition tiny_config : ModelConfig := {|
  id := "sam2_tiny";
  name := "SAM2 Tiny";
  description := "stub";
  encoderUrl := encoderUrl SAM2_TINY_CONFIG;
  decoderUrl := decoderUrl SAM2_TINY_CONFIG;
  imageSize := {| w := 2; h := 2 |};
  maskSize := {| w := 2; h := 2 |};
  modelType := sam2;
  encoderInputName := "image";
  useBatchDimension := true;
  tensorFormat := CHW;
  inputRange := None;
  normalization := None
|}.

(** A browser whose [drawImage] leaves the destination bitmap as it is. *)
Definition stub_browser : Browser :=
  {| drawImage_bitmap := fun _ _ _ dst => bitmap dst |}.

(** One foreground point at the centre. *)
Definition centre_point : SegmentOptions :=
  {| points := Some [{| px := one_half; py := one_half; label := 1 |}];
     box := None; previousMask := None |}.

(** The client after [initialize] succeeded and [setImage] was called on a
    2-by-2 image in [failing_backend_world]. *)
Definition client_after_failed_setImage : result () * result () * SAMClient.t :=
  let client := SAMClient.new tiny_config in
  let '(r1, client) := SAMClient.initialize client (Some "worker.js") failing_backend_world in
  let '(r2, client) :=
    SAMClient.setImage stub_browser client
      (InputImageData 2 2 (replicate 16 "255"%byte)) in
  (r1, r2, client).

(** ** Further notions *)


(** The string holds no slash. *)
Fixpoint slash_free (s : string) : bool :=
  match s with
  | EmptyString => true
  | String c rest => if decide (c = "/"%char) then false else slash_free rest
  end.

(** The sessions [dispose] releases, in order. *)
Definition sessions_of (this : SAM2) : list Session :=
  (fst <$> option_list (sessionEncoder this))
  ++ (fst <$> option_list (sessionDecoder this)).

(** The [ort.Tensor] constructor accepts the data and dimensions of [t]. *)
Definition well_formed (t : Tensor) : Prop :=
  new_Tensor (t_data t) (t_dims t) = Ok t.

(** The inputs of the decoder that [decode] builds itself. *)
Definition prompt_inputs : list string :=
  ["point_coords"; "point_labels"; "mask_input"; "has_mask_input"; "orig_im_size"].





(** The scope of a worker in environment [env] after the requests [rs]. *)
Definition after_requests (env : World) (rs : list Request) : WorkerScope :=
  foldl (fun ws request => (onmessage request ws).2) (new_WorkerScope env) rs.

(** The session [s], when there is one, was created from the bytes in
    [buffer] by one of the two providers. *)
Definition session_from (buffer : option ArrayBuffer) (s : option (Session * string))
  : Prop :=
  ∀ session ep, s = Some (session, ep) →
    buffer = Some (session_model session) ∧ session_provider session = ep
    ∧ (ep = "webgpu" ∨ ep = "cpu").

(** The sessions of a [SAM2] belong to its model bytes, and embeddings are
    held only together with an encoder session. *)
Definition consistent (this : SAM2) : Prop :=
  session_from (bufferEncoder this) (sessionEncoder this)
  ∧ session_from (bufferDecoder this) (sessionDecoder this)
  ∧ (is_Some (imageEncoded this) → is_Some (sessionEncoder this)).

(** The state of a worker is in order: [sam] is set exactly when
    [stats.modelId] is, and a [SAM2] held by the worker runs the registered
    descriptor of that id and is consistent. *)
Definition worker_in_order (ws : WorkerScope) : Prop :=
  (sam ws = SamNull ↔ stats_modelId (stats ws) = None)
  ∧ ∀ this, sam ws = SamOn this →
      (∃ modelId, stats_modelId (stats ws) = Some modelId
                  ∧ getModelConfig modelId = Ok (OwnValue (modelConfig this)))
      ∧ consistent this.

(** [drawImage] leaves the destination with as many bytes as it had. *)
Definition keeps_size (br : Browser) : Prop :=
  ∀ source src_rect dst_rect dst,
    length (drawImage_bitmap br source src_rect dst_rect dst) = length (bitmap dst).

(** ** Further example environments *)

(** A decoder answer with one 1-by-1 mask and its score. *)
Definition single_mask : Tensor := {| t_data := [num_of_Z 1]; t_dims := [1; 1; 1; 1] |}.
Definition single_score : Tensor :=
  {| t_data := [Fin (Q2Qc (9 # 10))]; t_dims := [1; 1] |}.

(** An environment with an empty, writable cache in which every download
    succeeds and every provider creates sessions; inference fails. *)
Definition caching_world : World :=
  {| opfs := Some ∅; trace := [];
     fetch := fun _ => HttpResponse true 200 (Some ["001"%byte]);
     opfs_write_ok := fun _ => true;
     session_create_ok := fun _ _ => true;
     session_outputNames := fun _ => [];
     session_run := fun _ _ => Throw "inference failed" |}.

(** An environment without cache in which every download succeeds, the cpu
    provider creates sessions, and every inference run returns the answer
    [single_mask], [single_score] under the names of the decoder outputs. *)
Definition working_world : World :=
  {| opfs := None; trace := [];
     fetch := fun _ => HttpResponse true 200 (Some ["001"%byte]);
     opfs_write_ok := fun _ => false;
     session_create_ok := fun _ ep => bool_decide (ep = "cpu");
     session_outputNames := fun _ => ["masks"; "iou_predictions"; "masks"];
     session_run := fun _ _ =>
       Ok [("masks", Some single_mask); ("iou_predictions", Some single_score)] |}.

(** A client on [tiny_config] after [initialize] and [setImage] of a 2-by-2
    image in [working_world]. *)
Definition client_with_image : result () * result () * SAMClient.t :=
  let client := SAMClient.new tiny_config in
  let '(r1, client) :=
    SAMClient.initialize client (Some "https://example.org/worker.js") working_world in
  let '(r2, client) :=
    SAMClient.setImage stub_browser client
      (InputImageData 2 2 (replicate 16 "255"%byte)) in
  (r1, r2, client).

(** A segmentation result with one 1-by-1 mask. *)
Definition single_result : SegmentResult :=
  {| sr_bitmap := {| width := 1; height := 1;
                     bitmap := ["050"; "205"; "050"; "255"]%byte |};
     sr_data := [num_of_Z 1]; sr_shape := (1, 1);
     sr_score := Fin (Q2Qc (9 # 10));
     sr_bounds := {| nb_x := num_of_Z 0; nb_y := num_of_Z 0;
                     nb_width := num_of_Z 1; nb_height := num_of_Z 1 |} |}.

(** * Properties *)

(** ** Loops that write one array element per iteration *)

Section WriteLoops.
Context {A K : Type}.
Variables (f : K → nat) (g : K → A).

Lemma writes_snoc init ks k :
  writes f g init (ks ++ [k]) = <[f k := g k]> (writes f g init ks).
Proof. unfold writes. by rewrite foldl_app. Qed.

Lemma writes_length init ks : length (writes f g init ks) = length init.
Proof.
  induction ks as [|k ks IH] using rev_ind; [done|].
  by rewrite writes_snoc, length_insert.
Qed.

Lemma writes_untouched init ks j :
  (∀ k, k ∈ ks → f k ≠ j) → writes f g init ks !! j = init !! j.
Proof.
  induction ks as [|k ks IH] using rev_ind; intros Hks; [done|].
  rewrite writes_snoc, list_lookup_insert_ne.
  - apply IH. intros k' Hk'. apply Hks, elem_of_app. by left.
  - apply Hks, elem_of_app. right. by apply list_elem_of_singleton.
Qed.

Lemma writes_touched init ks k :
  k ∈ ks → f k < length init →
  (∀ k', k' ∈ ks → f k' = f k → g k' = g k) →
  writes f g init ks !! f k = Some (g k).
Proof.
  induction ks as [|k0 ks IH] using rev_ind; intros Hin Hlt Hsame.
  { by apply elem_of_nil in Hin. }
  rewrite writes_snoc.
  destruct (decide (f k0 = f k)) as [Heq|Hne].
  - rewrite Heq, list_lookup_insert_eq by (by rewrite writes_length).
    f_equal. apply Hsame; [|done].
    apply elem_of_app. right. by apply list_elem_of_singleton.
  - rewrite list_lookup_insert_ne by done.
    apply IH; [|done|].
    + apply elem_of_app in Hin as [Hin|Hin]; [done|].
      apply list_elem_of_singleton in Hin. by subst.
    + intros k' Hk'. apply Hsame, elem_of_app. by left.
Qed.

End WriteLoops.

(** Nested counting loops visit the positions of a product in order. *)
Lemma for_range_foldl {S : Type} (n : nat) (body : nat → S → S) (s : S) :
  for_range n body s = foldl (fun acc i => body i acc) s (seq 0 n).
Proof. done. Qed.

Lemma foldl_ext {S B : Type} (f g : S → B → S) (l : list B) (s : S) :
  (∀ acc x, f acc x = g acc x) → foldl f s l = foldl g s l.
Proof.
  intros Hfg. revert s. induction l as [|x l IH]; intros s; [done|].
  simpl. by rewrite Hfg, IH.
Qed.

Lemma foldl_bind {S B C : Type} (step : S → C → S) (k : B → list C) (l : list B) (s : S) :
  foldl step s (l ≫= k) = foldl (fun acc x => foldl step acc (k x)) s l.
Proof.
  revert s. induction l as [|x l IH]; intros s; [done|].
  csimpl. by rewrite foldl_app, IH.
Qed.

Lemma elem_of_range2 n m i j : (i, j) ∈ range2 n m ↔ i < n ∧ j < m.
Proof.
  unfold range2. rewrite list_elem_of_bind. split.
  - intros (i' & Hj & Hi). apply list_elem_of_bind in Hj as (j' & Hk & Hj).
    apply list_elem_of_singleton in Hk. simplify_eq.
    apply elem_of_seq in Hi, Hj. lia.
  - intros [Hi Hj]. exists i. split; [|apply elem_of_seq; lia].
    apply list_elem_of_bind. exists j. split; [by apply list_elem_of_singleton|apply elem_of_seq; lia].
Qed.

Lemma elem_of_range3 n m p i j k :
  (i, j, k) ∈ range3 n m p ↔ i < n ∧ j < m ∧ k < p.
Proof.
  unfold range3. rewrite list_elem_of_bind. split.
  - intros (i' & Hj & Hi). apply list_elem_of_bind in Hj as (j' & Hk & Hj).
    apply list_elem_of_bind in Hk as (k' & Hk & Hk').
    apply list_elem_of_singleton in Hk. simplify_eq.
    apply elem_of_seq in Hi, Hj, Hk'. lia.
  - intros (Hi & Hj & Hk). exists i. split; [|apply elem_of_seq; lia].
    apply list_elem_of_bind. exists j. split; [|apply elem_of_seq; lia].
    apply list_elem_of_bind. exists k. split; [by apply list_elem_of_singleton|apply elem_of_seq; lia].
Qed.

Lemma for_range2_foldl {S : Type} n m (body : nat → nat → S → S) (s : S) :
  for_range n (fun i acc => for_range m (fun j acc => body i j acc) acc) s
  = foldl (fun acc '(i, j) => body i j acc) s (range2 n m).
Proof.
  unfold range2, for_range. rewrite foldl_bind.
  apply foldl_ext. intros acc i. by rewrite foldl_bind.
Qed.

Lemma for_range3_foldl {S : Type} n m p (body : nat → nat → nat → S → S) (s : S) :
  for_range n (fun i acc => for_range m (fun j acc =>
    for_range p (fun k acc => body i j k acc) acc) acc) s
  = foldl (fun acc '(i, j, k) => body i j k acc) s (range3 n m p).
Proof.
  unfold range3, for_range. rewrite foldl_bind.
  apply foldl_ext. intros acc i. rewrite foldl_bind.
  apply foldl_ext. intros acc' j. by rewrite foldl_bind.
Qed.

(** ** Flat indices of [C, H, W] and [H, W, C] buffers *)

Lemma mixed_radix_inj (b a r a' r' : nat) :
  r < b → r' < b → a * b + r = a' * b + r' → a = a' ∧ r = r'.
Proof.
  intros Hr Hr' Heq.
  destruct (Nat.lt_trichotomy a a') as [Hlt|[->|Hlt]]; [|lia|].
  - assert (a * b + b ≤ a' * b) by nia. lia.
  - assert (a' * b + b ≤ a * b) by nia. lia.
Qed.

Lemma mixed_radix_lt (b n a r : nat) : a < n → r < b → a * b + r < n * b.
Proof.
  intros Ha Hr. pose proof (Nat.mul_le_mono_r (S a) n b ltac:(lia)). lia.
Qed.

Lemma hwc_index_inj C H W c h w c' h' w' :
  c < C → w < W → c' < C → w' < W →
  hwc_index C H W c h w = hwc_index C H W c' h' w' →
  c = c' ∧ h = h' ∧ w = w'.
Proof.
  unfold hwc_index. intros Hc Hw Hc' Hw' Heq.
  destruct (mixed_radix_inj C (h * W + w) c (h' * W + w') c') as [Hhw ->];
    [done|done|lia|].
  destruct (mixed_radix_inj W h w h' w') as [-> ->]; done.
Qed.

Lemma chw_index_inj C H W c h w c' h' w' :
  h < H → w < W → h' < H → w' < W →
  chw_index C H W c h w = chw_index C H W c' h' w' →
  c = c' ∧ h = h' ∧ w = w'.
Proof.
  unfold chw_index. intros Hh Hw Hh' Hw' Heq.
  destruct (mixed_radix_inj (H * W) c (h * W + w) c' (h' * W + w'))
    as [-> Hhw]; [by apply mixed_radix_lt|by apply mixed_radix_lt|lia|].
  destruct (mixed_radix_inj W h w h' w') as [-> ->]; done.
Qed.

Lemma chw_index_lt C H W c h w :
  c < C → h < H → w < W → chw_index C H W c h w < C * H * W.
Proof.
  unfold chw_index. intros Hc Hh Hw.
  pose proof (mixed_radix_lt W H h w Hh Hw).
  pose proof (mixed_radix_lt (H * W) C c (h * W + w) Hc ltac:(done)). lia.
Qed.

Lemma hwc_index_lt C H W c h w :
  c < C → h < H → w < W → hwc_index C H W c h w < C * H * W.
Proof.
  unfold hwc_index. intros Hc Hh Hw.
  pose proof (mixed_radix_lt W H h w Hh Hw).
  pose proof (mixed_radix_lt C (H * W) (h * W + w) c ltac:(done) Hc). lia.
Qed.

(** Every flat index below [C * H * W] is the index of one position. *)
Lemma chw_index_decompose C H W i :
  i < C * H * W →
  i / (H * W) < C ∧ (i mod (H * W)) / W < H ∧ i mod W < W ∧
  chw_index C H W (i / (H * W)) ((i mod (H * W)) / W) (i mod W) = i.
Proof.
  intros Hi. assert (0 < H * W) as HHW by nia. assert (0 < W) as HW by nia.
  assert (i / (H * W) < C) as Hc by (apply Nat.Div0.div_lt_upper_bound; nia).
  pose proof (Nat.mod_upper_bound i (H * W) ltac:(lia)) as Hr.
  assert ((i mod (H * W)) / W < H) as Hh
    by (apply Nat.Div0.div_lt_upper_bound; nia).
  pose proof (Nat.mod_upper_bound i W ltac:(lia)) as Hw.
  repeat split; try done. unfold chw_index.
  assert (i mod W = (i mod (H * W)) mod W) as ->.
  { rewrite (Nat.mul_comm H W), Nat.Div0.mod_mul_r.
    rewrite (Nat.mul_comm W), Nat.Div0.mod_add. by rewrite Nat.Div0.mod_mod. }
  pose proof (Nat.div_mod_eq i (H * W)) as E1.
  pose proof (Nat.div_mod_eq (i mod (H * W)) W) as E2. nia.
Qed.

Lemma hwc_index_decompose C H W j :
  j < C * H * W →
  j mod C < C ∧ j / (W * C) < H ∧ (j mod (W * C)) / C < W ∧
  hwc_index C H W (j mod C) (j / (W * C)) ((j mod (W * C)) / C) = j.
Proof.
  intros Hj. assert (0 < W * C) as HWC by nia. assert (0 < C) as HC by nia.
  assert (j / (W * C) < H) as Hh by (apply Nat.Div0.div_lt_upper_bound; nia).
  pose proof (Nat.mod_upper_bound j (W * C) ltac:(lia)) as Hr.
  assert ((j mod (W * C)) / C < W) as Hw
    by (apply Nat.Div0.div_lt_upper_bound; nia).
  pose proof (Nat.mod_upper_bound j C ltac:(lia)) as Hc.
  repeat split; try done. unfold hwc_index.
  assert (j mod C = (j mod (W * C)) mod C) as ->.
  { rewrite (Nat.mul_comm W C), Nat.Div0.mod_mul_r.
    rewrite (Nat.mul_comm C), Nat.Div0.mod_add. by rewrite Nat.Div0.mod_mod. }
  pose proof (Nat.div_mod_eq j (W * C)) as E1.
  pose proof (Nat.div_mod_eq (j mod (W * C)) C) as E2. nia.
Qed.

(** ** [chwToHwc] *)

Lemma chwToHwc_writes x C H W :
  chwToHwc x C H W
  = writes (fun '(h, w, c) => hwc_index C H W c h w)
           (fun '(h, w, c) => aget x (chw_index C H W c h w))
           (new_Float32Array (length x)) (range3 H W C).
Proof.
  unfold chwToHwc, writes. rewrite for_range3_foldl.
  apply foldl_ext. by intros acc [[h w] c].
Qed.

Lemma hwcToChw_writes y C H W :
  hwcToChw y C H W
  = writes (fun '(h, w, c) => chw_index C H W c h w)
           (fun '(h, w, c) => aget y (hwc_index C H W c h w))
           (new_Float32Array (length y)) (range3 H W C).
Proof.
  unfold hwcToChw, writes. rewrite for_range3_foldl.
  apply foldl_ext. by intros acc [[h w] c].
Qed.

Lemma length_new_Float32Array n : length (new_Float32Array n) = n.
Proof. apply length_replicate. Qed.

Lemma chwToHwc_length x C H W : length (chwToHwc x C H W) = length x.
Proof. by rewrite chwToHwc_writes, writes_length, length_new_Float32Array. Qed.

Lemma hwcToChw_length y C H W : length (hwcToChw y C H W) = length y.
Proof. by rewrite hwcToChw_writes, writes_length, length_new_Float32Array. Qed.

Lemma aget_lookup (a : list number) i : i < length a → a !! i = Some (aget a i).
Proof.
  intros Hi. unfold aget. by destruct (lookup_lt_is_Some_2 a i Hi) as [v ->].
Qed.

Lemma chwToHwc_lookup x C H W c h w :
  length x = C * H * W → c < C → h < H → w < W →
  chwToHwc x C H W !! hwc_index C H W c h w = x !! chw_index C H W c h w.
Proof.
  intros Hlen Hc Hh Hw. rewrite chwToHwc_writes.
  rewrite (aget_lookup x) by (rewrite Hlen; by apply chw_index_lt).
  apply (writes_touched (fun '(h, w, c) => hwc_index C H W c h w)
           (fun '(h, w, c) => aget x (chw_index C H W c h w)) _ _ (h, w, c)).
  - by apply elem_of_range3.
  - rewrite length_new_Float32Array, Hlen. by apply hwc_index_lt.
  - intros [[h' w'] c'] Hin Heq. apply elem_of_range3 in Hin as (? & ? & ?).
    apply hwc_index_inj in Heq as (-> & -> & ->); done.
Qed.

Lemma hwcToChw_lookup y C H W c h w :
  length y = C * H * W → c < C → h < H → w < W →
  hwcToChw y C H W !! chw_index C H W c h w = y !! hwc_index C H W c h w.
Proof.
  intros Hlen Hc Hh Hw. rewrite hwcToChw_writes.
  rewrite (aget_lookup y) by (rewrite Hlen; by apply hwc_index_lt).
  apply (writes_touched (fun '(h, w, c) => chw_index C H W c h w)
           (fun '(h, w, c) => aget y (hwc_index C H W c h w)) _ _ (h, w, c)).
  - by apply elem_of_range3.
  - rewrite length_new_Float32Array, Hlen. by apply chw_index_lt.
  - intros [[h' w'] c'] Hin Heq. apply elem_of_range3 in Hin as (? & ? & ?).
    apply chw_index_inj in Heq as (-> & -> & ->); done.
Qed.

Lemma hwcToChw_chwToHwc x C H W :
  length x = C * H * W → hwcToChw (chwToHwc x C H W) C H W = x.
Proof.
  intros Hlen. apply list_eq. intros i.
  destruct (decide (i < C * H * W)) as [Hi|Hi].
  - destruct (chw_index_decompose C H W i Hi) as (Hc & Hh & Hw & <-).
    rewrite hwcToChw_lookup by (by rewrite ?chwToHwc_length).
    by apply chwToHwc_lookup.
  - rewrite (lookup_ge_None_2 _ i) by (rewrite hwcToChw_length, chwToHwc_length; lia).
    symmetry. apply lookup_ge_None_2. lia.
Qed.

Lemma chwToHwc_hwcToChw y C H W :
  length y = C * H * W → chwToHwc (hwcToChw y C H W) C H W = y.
Proof.
  intros Hlen. apply list_eq. intros j.
  destruct (decide (j < C * H * W)) as [Hj|Hj].
  - destruct (hwc_index_decompose C H W j Hj) as (Hc & Hh & Hw & <-).
    rewrite chwToHwc_lookup by (by rewrite ?hwcToChw_length).
    by apply hwcToChw_lookup.
  - rewrite (lookup_ge_None_2 _ j) by (rewrite chwToHwc_length, hwcToChw_length; lia).
    symmetry. apply lookup_ge_None_2. lia.
Qed.

Lemma chw_to_hwc_pos_lt C H W i :
  i < C * H * W → chw_to_hwc_pos C H W i < C * H * W.
Proof.
  intros Hi. destruct (chw_index_decompose C H W i Hi) as (Hc & Hh & Hw & _).
  by apply hwc_index_lt.
Qed.

Lemma chw_to_hwc_pos_inj C H W i j :
  i < C * H * W → j < C * H * W →
  chw_to_hwc_pos C H W i = chw_to_hwc_pos C H W j → i = j.
Proof.
  intros Hi Hj Heq.
  destruct (chw_index_decompose C H W i Hi) as (Hc & Hh & Hw & Ei).
  destruct (chw_index_decompose C H W j Hj) as (Hc' & Hh' & Hw' & Ej).
  apply hwc_index_inj in Heq as (E1 & E2 & E3); [|done..].
  rewrite <-Ei, <-Ej. by rewrite E1, E2, E3.
Qed.

Lemma chw_to_hwc_pos_surj C H W j :
  j < C * H * W → ∃ i, i < C * H * W ∧ chw_to_hwc_pos C H W i = j.
Proof.
  intros Hj. destruct (hwc_index_decompose C H W j Hj) as (Hc & Hh & Hw & Ej).
  exists (chw_index C H W (j mod C) (j / (W * C)) ((j mod (W * C)) / C)).
  split; [by apply chw_index_lt|].
  unfold chw_to_hwc_pos.
  pose proof (chw_index_lt C H W _ _ _ Hc Hh Hw) as Hlt.
  destruct (chw_index_decompose C H W _ Hlt) as (Hc' & Hh' & Hw' & Ei).
  apply chw_index_inj in Ei as (-> & -> & ->); done.
Qed.

(** C7.  For a buffer of length C*H*W, [chwToHwc] keeps the length, moves the
    element at [C,H,W]-position (c,h,w) to [H,W,C]-position (h,w,c), acts on
    flat indices through a bijection of [0, C*H*W), and is inverted on both
    sides by the reverse [H,W,C]-to-[C,H,W] transposition. *)
Theorem chwToHwc_transposes (x : Float32Array) (C H W : nat) :
  length x = C * H * W →
  length (chwToHwc x C H W) = C * H * W
  ∧ (∀ c h w, c < C → h < H → w < W →
       chwToHwc x C H W !! hwc_index C H W c h w = x !! chw_index C H W c h w)
  ∧ (∀ i, i < C * H * W →
       chw_to_hwc_pos C H W i < C * H * W
       ∧ chwToHwc x C H W !! chw_to_hwc_pos C H W i = x !! i)
  ∧ (∀ i j, i < C * H * W → j < C * H * W →
       chw_to_hwc_pos C H W i = chw_to_hwc_pos C H W j → i = j)
  ∧ (∀ j, j < C * H * W → ∃ i, i < C * H * W ∧ chw_to_hwc_pos C H W i = j)
  ∧ hwcToChw (chwToHwc x C H W) C H W = x
  ∧ chwToHwc (hwcToChw x C H W) C H W = x.
Proof.
  intros Hlen. split_and!.
  - by rewrite chwToHwc_length.
  - intros c h w Hc Hh Hw. by apply chwToHwc_lookup.
  - intros i Hi. split; [by apply chw_to_hwc_pos_lt|].
    destruct (chw_index_decompose C H W i Hi) as (Hc & Hh & Hw & Ei).
    unfold chw_to_hwc_pos. rewrite chwToHwc_lookup by done. by rewrite Ei.
  - apply chw_to_hwc_pos_inj.
  - apply chw_to_hwc_pos_surj.
  - by apply hwcToChw_chwToHwc.
  - by apply chwToHwc_hwcToChw.
Qed.

Lemma chwToHwc_transposes_witness :
  let x := num_of_Z <$> [1; 2; 3; 4; 5; 6]%Z in
  chwToHwc x 3 1 2 = num_of_Z <$> [1; 3; 5; 2; 4; 6]%Z
  ∧ hwcToChw (chwToHwc x 3 1 2) 3 1 2 = x.
Proof.
  intros x. split; [by vm_compute|].
  pose proof (chwToHwc_transposes x 3 1 2 eq_refl) as (_ & _ & _ & _ & _ & Hinv & _).
  exact Hinv.
Defined.

(** ** Preprocessing in the worker *)

Lemma applyNormalization_writes data C H W n :
  applyNormalization data C H W n
  = writes (fun '(c, i) => c * (H * W) + i)
           (fun '(c, i) => normalized n c (aget data (c * (H * W) + i)))
           (new_Float32Array (length data)) (range2 C (H * W)).
Proof.
  unfold applyNormalization, writes. rewrite for_range2_foldl.
  apply foldl_ext. by intros acc [c i].
Qed.

Lemma applyNormalization_length data C H W n :
  length (applyNormalization data C H W n) = length data.
Proof.
  by rewrite applyNormalization_writes, writes_length, length_new_Float32Array.
Qed.


Lemma scale_loop_lookup (t : Float32Array) r i :
  i < length t →
  for_range (length t) (fun i scaledData => <[i := nmul (aget t i) r]> scaledData)
    (new_Float32Array (length t)) !! i = Some (nmul (aget t i) r).
Proof.
  intros Hi.
  apply (writes_touched (fun i => i) (fun i => nmul (aget t i) r) _ _ i).
  - apply elem_of_seq. lia.
  - by rewrite length_new_Float32Array.
  - by intros i' _ ->.
Qed.

Lemma scale_loop_length (t : Float32Array) r :
  length (for_range (length t)
            (fun i scaledData => <[i := nmul (aget t i) r]> scaledData)
            (new_Float32Array (length t))) = length t.
Proof.
  etrans; [apply (writes_length (fun i => i) (fun i => nmul (aget t i) r))|].
  apply length_new_Float32Array.
Qed.

Lemma scaleInputRange_length cfg t : length (scaleInputRange cfg t) = length t.
Proof.
  unfold scaleInputRange. destruct (inputRange cfg) as [r|]; [|done].
  destruct (truthy r); [|done]. apply scale_loop_length.
Qed.

Lemma scaleInputRange_lookup cfg (t : Float32Array) i :
  i < length t →
  scaleInputRange cfg t !! i
  = Some (match inputRange cfg with
          | Some r => if truthy r then nmul (aget t i) r else aget t i
          | None => aget t i
          end).
Proof.
  intros Hi. unfold scaleInputRange.
  destruct (inputRange cfg) as [r|]; [|by apply aget_lookup].
  destruct (truthy r); [by apply scale_loop_lookup|by apply aget_lookup].
Qed.

Lemma normalizeInput_length cfg t shape :
  length (normalizeInput cfg t shape) = length t.
Proof.
  unfold normalizeInput. destruct (normalization cfg); [|done].
  apply applyNormalization_length.
Qed.


(** ** The model registry *)

Lemma Object_keys_MODEL_CONFIGS :
  Object_keys MODEL_CONFIGS = ["mobilesam"; "sam2_tiny"; "sam2"].
Proof. reflexivity. Qed.

(** Every registered id, aliases included, resolves to the canonical
    descriptor: the one stored under its own [id]. *)
Lemma getModelConfig_registered (key : string) :
  key ∈ Object_keys MODEL_CONFIGS →
  ∃ cfg, getModelConfig key = Ok (OwnValue cfg)
         ∧ (key, cfg) ∈ MODEL_CONFIGS
         ∧ getModelConfig (id cfg) = Ok (OwnValue cfg).
Proof.
  rewrite Object_keys_MODEL_CONFIGS. intros Hkey.
  repeat (apply elem_of_cons in Hkey as [->|Hkey]);
    [exists MOBILESAM_CONFIG|exists SAM2_TINY_CONFIG|exists SAM2_TINY_CONFIG|
     by apply elem_of_nil in Hkey];
    (split_and!; [reflexivity| |reflexivity]);
    unfold MODEL_CONFIGS; repeat first [by left | right].
Qed.

Lemma getModelConfig_sam2_alias :
  getModelConfig "sam2" = Ok (OwnValue SAM2_TINY_CONFIG)
  ∧ id SAM2_TINY_CONFIG = "sam2_tiny".
Proof. split; reflexivity. Qed.

(** An id that is neither registered nor inherited makes [getModelConfig]
    throw, and the message enumerates the registered ids. *)
Lemma getModelConfig_unknown (key : string) :
  key ∉ Object_keys MODEL_CONFIGS → key ∉ Object_prototype_keys →
  getModelConfig key
  = Throw ("Unknown model: " +:+ key
           +:+ ". Available models: mobilesam, sam2_tiny, sam2").
Proof.
  rewrite Object_keys_MODEL_CONFIGS. intros Hkey Hproto.
  unfold getModelConfig, get_property, MODEL_CONFIGS, own_property.
  do 3 (case_decide; [subst; exfalso; apply Hkey; repeat first [by left | right]|]).
  case_decide; [done|reflexivity].
Qed.

(** C2.  The id "constructor" is not a key of the registry, yet
    [getModelConfig] does not throw on it: the property access finds the
    member inherited from [Object.prototype], which is truthy, and returns
    it as if it were a descriptor. *)
Theorem getModelConfig_inherited_key :
  ("constructor" ∉ Object_keys MODEL_CONFIGS)
  ∧ getModelConfig "constructor" = Ok (ObjectPrototypeMember "constructor")
  ∧ ∀ message, getModelConfig "constructor" ≠ Throw message.
Proof.
  split_and!; [|reflexivity|done].
  rewrite Object_keys_MODEL_CONFIGS. intros Hin.
  repeat (apply elem_of_cons in Hin as [Heq|Hin]; [discriminate Heq|]).
  by apply elem_of_nil in Hin.
Qed.

(** ** The [encodeImage] branch of the worker *)




(** ** [sliceTensor] *)

Lemma typed_array_slice_nonneg {A : Type} (data : list A) (start_ stride : nat) :
  typed_array_slice data (Z.of_nat start_) (Z.of_nat (start_ + stride))
  = take stride (drop start_ data).
Proof.
  unfold typed_array_slice.
  destruct (Z.ltb_spec (Z.of_nat start_) 0) as [?|_]; [lia|].
  destruct (Z.ltb_spec (Z.of_nat (start_ + stride)) 0) as [?|_]; [lia|].
  destruct (decide (length data ≤ start_)) as [Hge|Hlt].
  - rewrite Z.min_r, Z.min_r by lia.
    rewrite Nat2Z.id, !drop_ge by lia. by rewrite !take_nil.
  - rewrite (Z.min_l (Z.of_nat start_)) by lia. rewrite Nat2Z.id.
    destruct (decide (start_ + stride ≤ length data)) as [Hin|Hout].
    + rewrite Z.min_l by lia. f_equal. lia.
    + rewrite Z.min_r by lia.
      rewrite !take_ge; [done|rewrite length_drop; lia..].
Qed.

(** C10.  With [dims[2] = width] and [dims[3] = height], [sliceTensor]
    returns, for every mask index, the window of [stride = width * height]
    elements that starts at [maskIndex * stride], cut at the end of the
    buffer: element [i] of the result is element [maskIndex * stride + i]
    of the buffer when that exists, nothing is read past the end, and an
    index at or beyond the stored planes gives a shorter or empty array. *)
Theorem sliceTensor_window (data : Float32Array) (dims : list nat)
    (width height maskIndex : nat) :
  dims !! 2 = Some width → dims !! 3 = Some height →
  let stride := width * height in
  let plane := sliceTensor data dims maskIndex in
  plane = take stride (drop (maskIndex * stride) data)
  ∧ length plane = stride `min` (length data - maskIndex * stride)
  ∧ (∀ i, i < stride → plane !! i = data !! (maskIndex * stride + i))
  ∧ (∀ i, stride ≤ i → plane !! i = None)
  ∧ (length data ≤ maskIndex * stride → plane = []).
Proof.
  intros Hw Hh stride plane.
  assert (plane = take stride (drop (maskIndex * stride) data)) as Hplane.
  { subst plane. unfold sliceTensor. rewrite Hw, Hh. cbv zeta.
    rewrite typed_array_slice_nonneg. by rewrite (Nat.mul_comm maskIndex). }
  rewrite Hplane. split_and!.
  - done.
  - by rewrite length_take, length_drop.
  - intros i Hi. by rewrite lookup_take_lt, lookup_drop.
  - intros i Hi. apply lookup_ge_None_2. rewrite length_take. lia.
  - intros Hge. by rewrite drop_ge, take_nil.
Qed.

Lemma sliceTensor_window_witness :
  sliceTensor (num_of_Z <$> [0; 0; 1; 1; 2; 2]%Z) [1; 3; 1; 2] 1
  = num_of_Z <$> [1; 1]%Z
  ∧ sliceTensor (num_of_Z <$> [0; 0; 1; 1; 2; 2]%Z) [1; 3; 1; 2] 5 = [].
Proof.
  pose proof (sliceTensor_window (num_of_Z <$> [0; 0; 1; 1; 2; 2]%Z)
                [1; 3; 1; 2] 1 2 1 eq_refl eq_refl) as (H1 & _).
  pose proof (sliceTensor_window (num_of_Z <$> [0; 0; 1; 1; 2; 2]%Z)
                [1; 3; 1; 2] 1 2 5 eq_refl eq_refl) as (_ & _ & _ & _ & H5).
  split; [exact H1|]. apply H5. vm_compute. lia.
Defined.

(** ** [canvasToFloat32Array] *)

Lemma rgbaToChw_writes imageData cs :
  rgbaToChw imageData cs
  = writes (fun '(i, c) => i + c * cs)
           (fun '(i, c) => ndiv (bget imageData (i * 4 + c)) (num_of_Z 255))
           (new_Float32Array (3 * cs)) (range2 cs 3).
Proof.
  unfold rgbaToChw, writes. symmetry.
  etrans; [apply foldl_ext with
    (g := fun acc '(i, c) =>
       <[i + c * cs := ndiv (bget imageData (i * 4 + c)) (num_of_Z 255)]> acc);
    by intros acc [i c]|].
  rewrite <-(for_range2_foldl cs 3
    (fun i c acc => <[i + c * cs := ndiv (bget imageData (i * 4 + c)) (num_of_Z 255)]> acc)).
  unfold for_range at 1 3. apply foldl_ext. intros acc i.
  cbn [for_range seq foldl]. rewrite !Nat.mul_0_l, !Nat.add_0_r, Nat.mul_1_l. done.
Qed.

Lemma rgbaToChw_length imageData cs : length (rgbaToChw imageData cs) = 3 * cs.
Proof. by rewrite rgbaToChw_writes, writes_length, length_new_Float32Array. Qed.

Lemma rgbaToChw_lookup imageData cs c i :
  c < 3 → i < cs →
  rgbaToChw imageData cs !! (c * cs + i)
  = Some (ndiv (bget imageData (i * 4 + c)) (num_of_Z 255)).
Proof.
  intros Hc Hi. rewrite rgbaToChw_writes, (Nat.add_comm (c * cs) i).
  apply (writes_touched (fun '(i, c) => i + c * cs)
           (fun '(i, c) => ndiv (bget imageData (i * 4 + c)) (num_of_Z 255))
           _ _ (i, c)).
  - by apply elem_of_range2.
  - rewrite length_new_Float32Array.
    pose proof (mixed_radix_lt cs 3 c i Hc Hi). lia.
  - intros [i' c'] Hin Heq. apply elem_of_range2 in Hin as [? ?].
    rewrite (Nat.add_comm i'), (Nat.add_comm i) in Heq.
    apply mixed_radix_inj in Heq as [-> ->]; done.
Qed.


Lemma bget_lookup (px : Uint8ClampedArray) i b :
  px !! i = Some b → bget px i = num_of_byte b.
Proof. intros Hb. unfold bget. by rewrite Hb. Qed.




(** ** [findMaskBounds] *)

Lemma scanMask_foldl data width height t :
  scanMask data width height t = scanOver data width height t (range2 height width).
Proof.
  unfold scanMask, scanOver. rewrite for_range2_foldl.
  apply foldl_ext. by intros e [y x].
Qed.

(** The invariant of the scan over the positions [l] visited so far. *)
Lemma scan_invariant data width height t (l : list (nat * nat)) :
  (∀ y x, (y, x) ∈ l → x < width ∧ y < height) →
  (∀ y x, (y, x) ∈ l → exceeds data width t x y = true →
     (minX (scanOver data width height t l) ≤ Z.of_nat x
      ≤ maxX (scanOver data width height t l))%Z
     ∧ (minY (scanOver data width height t l) ≤ Z.of_nat y
        ≤ maxY (scanOver data width height t l))%Z)
  ∧ ((scanOver data width height t l = scanInit width height
      ∧ ∀ y x, (y, x) ∈ l → exceeds data width t x y = false)
     ∨ ((∃ y x, (y, x) ∈ l ∧ exceeds data width t x y = true
                ∧ minX (scanOver data width height t l) = Z.of_nat x)
        ∧ (∃ y x, (y, x) ∈ l ∧ exceeds data width t x y = true
                  ∧ maxX (scanOver data width height t l) = Z.of_nat x)
        ∧ (∃ y x, (y, x) ∈ l ∧ exceeds data width t x y = true
                  ∧ minY (scanOver data width height t l) = Z.of_nat y)
        ∧ (∃ y x, (y, x) ∈ l ∧ exceeds data width t x y = true
                  ∧ maxY (scanOver data width height t l) = Z.of_nat y))).
Proof.
  induction l as [|[y0 x0] l IH] using rev_ind; intros Hrange.
  { split; [intros y x Hin; by apply elem_of_nil in Hin|].
    left. split; [done|]. intros y x Hin. by apply elem_of_nil in Hin. }
  assert (x0 < width ∧ y0 < height) as [Hx0 Hy0].
  { apply Hrange, elem_of_app. right. by apply list_elem_of_singleton. }
  destruct IH as [IHb IHw].
  { intros y x Hin. apply Hrange, elem_of_app. by left. }
  unfold scanOver at 1 2 3 4 5 6 7 8 9. rewrite foldl_snoc.
  fold (scanOver data width height t l).
  set (e := scanOver data width height t l) in *.
  assert (∀ y x, (y, x) ∈ l ++ [(y0, x0)] → (y, x) ∈ l ∨ (y = y0 ∧ x = x0)) as Hsplit.
  { intros y x Hin. apply elem_of_app in Hin as [?|Hin]; [by left|].
    apply list_elem_of_singleton in Hin. right. by simplify_eq. }
  assert (∀ y x, (y, x) ∈ l → (y, x) ∈ l ++ [(y0, x0)]) as Hl
    by (intros; apply elem_of_app; by left).
  assert ((y0, x0) ∈ l ++ [(y0, x0)]) as Hlast
    by (apply elem_of_app; right; by apply list_elem_of_singleton).
  set (e' := scanStep data width t e (y0, x0)).
  assert (e' = if exceeds data width t x0 y0
               then {| minX := Z.min (minX e) (Z.of_nat x0);
                       minY := Z.min (minY e) (Z.of_nat y0);
                       maxX := Z.max (maxX e) (Z.of_nat x0);
                       maxY := Z.max (maxY e) (Z.of_nat y0) |}
               else e) as He' by done.
  clearbody e'. destruct (exceeds data width t x0 y0) eqn:Hex; subst e'.
  - cbn [minX minY maxX maxY]. split.
    + intros y x Hin Hyx. destruct (Hsplit y x Hin) as [Hin'|[-> ->]]; [|lia].
      specialize (IHb y x Hin' Hyx). lia.
    + right. destruct IHw as [[He Hnone]|(Hminx & Hmaxx & Hminy & Hmaxy)].
      * rewrite He. unfold scanInit. cbn [minX minY maxX maxY].
        split_and!; exists y0, x0; (split_and!; [done|done|lia]).
      * split_and!.
        -- destruct Hminx as (y & x & Hin & Hyx & Heq).
           destruct (decide (minX e ≤ Z.of_nat x0)%Z).
           ++ exists y, x. split_and!; [by apply Hl|done|lia].
           ++ exists y0, x0. split_and!; [done|done|lia].
        -- destruct Hmaxx as (y & x & Hin & Hyx & Heq).
           destruct (decide (Z.of_nat x0 ≤ maxX e)%Z).
           ++ exists y, x. split_and!; [by apply Hl|done|lia].
           ++ exists y0, x0. split_and!; [done|done|lia].
        -- destruct Hminy as (y & x & Hin & Hyx & Heq).
           destruct (decide (minY e ≤ Z.of_nat y0)%Z).
           ++ exists y, x. split_and!; [by apply Hl|done|lia].
           ++ exists y0, x0. split_and!; [done|done|lia].
        -- destruct Hmaxy as (y & x & Hin & Hyx & Heq).
           destruct (decide (Z.of_nat y0 ≤ maxY e)%Z).
           ++ exists y, x. split_and!; [by apply Hl|done|lia].
           ++ exists y0, x0. split_and!; [done|done|lia].
  - split.
    + intros y x Hin Hyx. destruct (Hsplit y x Hin) as [Hin'|[-> ->]]; [|congruence].
      by apply IHb.
    + destruct IHw as [[He Hnone]|(Hminx & Hmaxx & Hminy & Hmaxy)].
      * left. split; [done|]. intros y x Hin.
        destruct (Hsplit y x Hin) as [Hin'|[-> ->]]; [by apply Hnone|done].
      * right. split_and!.
        -- destruct Hminx as (y & x & Hin & Hyx & Heq). exists y, x. auto.
        -- destruct Hmaxx as (y & x & Hin & Hyx & Heq). exists y, x. auto.
        -- destruct Hminy as (y & x & Hin & Hyx & Heq). exists y, x. auto.
        -- destruct Hmaxy as (y & x & Hin & Hyx & Heq). exists y, x. auto.
Qed.

Lemma range2_in_field width height y x :
  (y, x) ∈ range2 height width → x < width ∧ y < height.
Proof. intros Hin. apply elem_of_range2 in Hin. lia. Qed.

(** On a field that is not 0-by-0, a mask with no value above the threshold
    has the zero box. *)
Lemma findMaskBounds_empty data width height threshold :
  0 < width ∨ 0 < height →
  ¬ some_exceeds data width height (default (num_of_Z 0) threshold) →
  findMaskBounds data width height threshold
  = {| bb_x := 0; bb_y := 0; bb_width := 0; bb_height := 0 |}.
Proof.
  intros Hdim Hnone. unfold findMaskBounds. cbv zeta. rewrite scanMask_foldl.
  set (t := default (num_of_Z 0) threshold) in *.
  destruct (scan_invariant data width height t (range2 height width)
              (range2_in_field width height)) as [_ [[-> _]|(Hex & _)]].
  - unfold scanInit. cbn [minX minY maxX maxY].
    destruct (Z.gtb_spec (Z.of_nat width) 0), (Z.gtb_spec (Z.of_nat height) 0);
      try done; lia.
  - destruct Hex as (y & x & Hin & Hyx & _). exfalso. apply Hnone.
    apply elem_of_range2 in Hin. exists x, y. split_and!; [lia|lia|done].
Qed.

(** A mask with some value above the threshold has the box spanned by the
    least and greatest column and row of such values. *)
Lemma findMaskBounds_nonempty data width height threshold :
  let t := default (num_of_Z 0) threshold in
  let box := findMaskBounds data width height threshold in
  some_exceeds data width height t →
  (∀ x y, x < width → y < height → exceeds data width t x y = true →
     (bb_x box ≤ Z.of_nat x < bb_x box + bb_width box)%Z
     ∧ (bb_y box ≤ Z.of_nat y < bb_y box + bb_height box)%Z)
  ∧ (∃ x y, x < width ∧ y < height ∧ exceeds data width t x y = true
            ∧ bb_x box = Z.of_nat x)
  ∧ (∃ x y, x < width ∧ y < height ∧ exceeds data width t x y = true
            ∧ (bb_x box + bb_width box - 1)%Z = Z.of_nat x)
  ∧ (∃ x y, x < width ∧ y < height ∧ exceeds data width t x y = true
            ∧ bb_y box = Z.of_nat y)
  ∧ (∃ x y, x < width ∧ y < height ∧ exceeds data width t x y = true
            ∧ (bb_y box + bb_height box - 1)%Z = Z.of_nat y).
Proof.
  intros t box (x1 & y1 & Hx1 & Hy1 & Hex1).
  subst box. unfold findMaskBounds. cbv zeta. fold t. rewrite scanMask_foldl.
  destruct (scan_invariant data width height t (range2 height width)
              (range2_in_field width height)) as [Hb [[_ Hnone]|Hw]].
  { rewrite Hnone in Hex1; [done|]. apply elem_of_range2. lia. }
  set (e := scanOver data width height t (range2 height width)) in *.
  destruct Hw as (Hminx & Hmaxx & Hminy & Hmaxy).
  pose proof (Hb y1 x1 ltac:(apply elem_of_range2; lia) Hex1) as Hb1.
  destruct (Z.gtb_spec (minX e) (maxX e)) as [?|_]; [lia|].
  destruct (Z.gtb_spec (minY e) (maxY e)) as [?|_]; [lia|].
  cbn [orb bb_x bb_y bb_width bb_height]. split_and!.
  - intros x y Hx Hy Hex.
    pose proof (Hb y x ltac:(apply elem_of_range2; lia) Hex). lia.
  - destruct Hminx as (y & x & Hin & Hyx & Heq). apply elem_of_range2 in Hin.
    exists x, y. split_and!; [lia|lia|done|done].
  - destruct Hmaxx as (y & x & Hin & Hyx & Heq). apply elem_of_range2 in Hin.
    exists x, y. split_and!; [lia|lia|done|lia].
  - destruct Hminy as (y & x & Hin & Hyx & Heq). apply elem_of_range2 in Hin.
    exists x, y. split_and!; [lia|lia|done|done].
  - destruct Hmaxy as (y & x & Hin & Hyx & Heq). apply elem_of_range2 in Hin.
    exists x, y. split_and!; [lia|lia|done|lia].
Qed.

(** The single positive pixel at (5, 7) of a 10-by-10 field. *)
Lemma findMaskBounds_single_pixel :
  findMaskBounds (<[7 * 10 + 5 := num_of_Z 1]> (new_Float32Array (10 * 10))) 10 10 None
  = {| bb_x := 5; bb_y := 7; bb_width := 1; bb_height := 1 |}.
Proof. by vm_compute. Qed.

(** C5.  On the empty 0-by-0 mask no element exceeds the threshold, yet
    [findMaskBounds] returns a box of width 1 and height 1: the sentinels
    [minX = width] and [maxX = 0] coincide, so the empty-mask test
    [minX > maxX || minY > maxY] does not fire. *)
Theorem findMaskBounds_zero_by_zero :
  ¬ some_exceeds [] 0 0 (num_of_Z 0)
  ∧ findMaskBounds [] 0 0 None
    = {| bb_x := 0; bb_y := 0; bb_width := 1; bb_height := 1 |}.
Proof.
  split; [|reflexivity]. intros (x & y & Hx & _). lia.
Qed.

(** ** Numbers that stand for pixel counts *)

Lemma Qc_of_Z_compare (a b : Z) : (Qc_of_Z a ?= Qc_of_Z b)%Qc = (a ?= b)%Z.
Proof.
  unfold Qccompare, Qc_of_Z, Q2Qc. cbn [this].
  rewrite <-Qred_compare. unfold Qcompare. cbn [Qnum Qden inject_Z].
  by rewrite !Z.mul_1_r.
Qed.



Lemma Qc_of_Z_nonzero (a : Z) : a ≠ 0%Z → Qc_of_Z a ≠ 0%Qc.
Proof.
  intros Ha Heq. apply Qceq_alt in Heq.
  change 0%Qc with (Qc_of_Z 0) in Heq. rewrite Qc_of_Z_compare in Heq.
  by apply Z.compare_eq in Heq.
Qed.



(** ** [resizeAndPadBox] and [createSquareCanvas] *)



(** ** [SAM2.downloadModel] *)

Lemma model_filename_of_encoderUrl :
  model_filename (encoderUrl MOBILESAM_CONFIG) = "mobile_sam_image_encoder.onnx".
Proof. reflexivity. Qed.

Lemma cache_lookup_hit wd filename file :
  cache_holds wd filename file → cache_lookup wd filename = Some file.
Proof.
  intros (files & Hfs & Hfile & Hlen). unfold cache_lookup. rewrite Hfs, Hfile.
  by rewrite decide_True.
Qed.

Lemma cache_lookup_miss wd filename :
  (∀ file, ¬ cache_holds wd filename file) → cache_lookup wd filename = None.
Proof.
  intros Hmiss. unfold cache_lookup.
  destruct (opfs wd) as [files|] eqn:Hfs; [|done].
  destruct (files !! filename) as [file|] eqn:Hfile; [|done].
  case_decide as Hlen; [|done]. exfalso. apply (Hmiss file). by exists files.
Qed.

(** C9.  [downloadModel] returns the cached bytes and leaves the world
    untouched (no fetch) when the cache holds a non-empty file under the
    file name derived from the URL.  Otherwise it fetches exactly once:
    a transport error, a non-OK status or an unreadable body give [null],
    and a successful fetch gives the downloaded bytes whether or not the
    cache can be written. *)
Theorem downloadModel_cache_then_network (url : string) (wd : World) :
  let filename := model_filename url in
  (∀ file, cache_holds wd filename file →
     downloadModel url wd = (Some file, wd))
  ∧ ((∀ file, ¬ cache_holds wd filename file) →
     (fetch wd url = TransportError
      ∨ (∃ status body, fetch wd url = HttpResponse false status body)
      ∨ (∃ status, fetch wd url = HttpResponse true status None) →
      downloadModel url wd = (None, log_event (EvFetch url) wd))
     ∧ (∀ status buffer,
          fetch wd url = HttpResponse true status (Some buffer) →
          (downloadModel url wd).1 = Some buffer
          ∧ (∃ rest, trace (downloadModel url wd).2 = trace wd ++ EvFetch url :: rest)
          ∧ (opfs wd = None ∨ opfs_write_ok wd filename = false →
             downloadModel url wd = (Some buffer, log_event (EvFetch url) wd)))).
Proof.
  intros filename. split.
  - intros file Hholds. unfold downloadModel. fold filename.
    by rewrite (cache_lookup_hit wd filename file).
  - intros Hmiss%cache_lookup_miss. unfold downloadModel. fold filename.
    rewrite Hmiss. cbn [fetch log_event]. split.
    + intros [->|[(status & body & ->)|(status & ->)]]; done.
    + intros status buffer ->. cbn [fst snd]. split_and!.
      * done.
      * unfold cache_store. cbn [opfs log_event opfs_write_ok].
        destruct (opfs wd) as [files|]; [|by exists []].
        destruct (opfs_write_ok wd filename); [|by exists []].
        cbn [trace log_event with_opfs]. exists [EvCacheWrite filename].
        by rewrite <-app_assoc.
      * unfold cache_store. cbn [opfs log_event opfs_write_ok].
        intros [->| ->]; [done|]. by destruct (opfs wd).
Qed.

Lemma downloadModel_cache_then_network_witness :
  downloadModel "https://example.org/models/m.onnx" offline_world
  = (Some ["001"%byte], offline_world)
  ∧ downloadModel "https://example.org/models/other.onnx" offline_world
    = (None, log_event (EvFetch "https://example.org/models/other.onnx") offline_world).
Proof.
  split.
  - pose proof (downloadModel_cache_then_network
                  "https://example.org/models/m.onnx" offline_world) as [Hhit _].
    apply Hhit. exists {[ "m.onnx" := ["001"%byte] ]}.
    split; [reflexivity|]. split; [vm_compute; reflexivity|simpl; lia].
  - pose proof (downloadModel_cache_then_network
                  "https://example.org/models/other.onnx" offline_world) as [_ Hmiss].
    destruct Hmiss as [Hfail _].
    + intros file (files & Hfs & Hfile & _).
      injection Hfs as <-. vm_compute in Hfile. discriminate Hfile.
    + apply Hfail. left. reflexivity.
Defined.

(** ** Best-mask selection in [segment] *)

Lemma Qc_compare_antisym (x y : Qc) : (y ?= x)%Qc = CompOpp (x ?= y)%Qc.
Proof. unfold Qccompare. by rewrite <-Qcompare_antisym. Qed.

Lemma nle_not_ngt (a b : number) : nle a b = true → ngt a b = false.
Proof.
  unfold nle. destruct a as [| | |x], b as [| | |y]; cbn; try done.
  unfold Qc_ltb, Qc_eqb. rewrite (Qc_compare_antisym x y).
  by destruct (x ?= y)%Qc.
Qed.

Lemma not_above_NegInfinity (a : number) :
  nle a a = true → ngt a NegInfinity = false → a = NegInfinity.
Proof. by destruct a. Qed.

Lemma nothing_below_NegInfinity (a : number) : nlt a NegInfinity = false.
Proof. by destruct a. Qed.

Lemma bestMask_foldl scores n :
  for_range n (fun i best =>
    if ngt (aget scores i) best.2 then (i, aget scores i) else best) (0, NegInfinity)
  = foldl (bestStep scores) (0, NegInfinity) (seq 0 n).
Proof. done. Qed.

Lemma bestMask_prefix_S scores k :
  foldl (bestStep scores) (0, NegInfinity) (seq 0 (S k))
  = bestStep scores (foldl (bestStep scores) (0, NegInfinity) (seq 0 k)) k.
Proof. by rewrite seq_S, foldl_snoc. Qed.

(** Before the scan reaches index [k], its state is the initial one or
    some earlier index with its score. *)
Lemma bestMask_before scores k :
  foldl (bestStep scores) (0, NegInfinity) (seq 0 k) = (0, NegInfinity)
  ∨ ∃ j, j < k ∧ foldl (bestStep scores) (0, NegInfinity) (seq 0 k)
                 = (j, aget scores j).
Proof.
  induction k as [|k IH]; [by left|].
  rewrite bestMask_prefix_S. unfold bestStep at 1 3.
  destruct (ngt _ _).
  - right. exists k. split; [lia|done].
  - destruct IH as [IH|(j & Hj & IH)]; [by left|].
    right. exists j. split; [lia|done].
Qed.

Lemma bestMask_at scores i :
  least_argmax scores i →
  foldl (bestStep scores) (0, NegInfinity) (seq 0 (S i)) = (i, aget scores i).
Proof.
  intros (Hi & Hmax & Hleast). rewrite bestMask_prefix_S.
  destruct (bestMask_before scores i) as [->|(j & Hj & ->)]; unfold bestStep; cbn [snd].
  - destruct (ngt (aget scores i) NegInfinity) eqn:Hgt; [done|].
    pose proof (not_above_NegInfinity _ (Hmax i Hi) Hgt) as Hneg.
    destruct i as [|i]; [by rewrite Hneg|].
    specialize (Hleast 0 ltac:(lia)).
    by rewrite Hneg, nothing_below_NegInfinity in Hleast.
  - specialize (Hleast j Hj). unfold nlt in Hleast. by rewrite Hleast.
Qed.

Lemma bestMask_after scores i k :
  least_argmax scores i → i < k → k ≤ length scores →
  foldl (bestStep scores) (0, NegInfinity) (seq 0 k) = (i, aget scores i).
Proof.
  intros Harg Hik Hk. induction k as [|k IH]; [lia|].
  destruct (decide (k = i)) as [->|Hne]; [by apply bestMask_at|].
  rewrite bestMask_prefix_S, IH by lia.
  unfold bestStep. cbn [snd].
  destruct Harg as (_ & Hmax & _).
  by rewrite (nle_not_ngt _ _ (Hmax k ltac:(lia))).
Qed.

Lemma bestMask_least_argmax scores i :
  least_argmax scores i → bestMask scores = (i, aget scores i).
Proof.
  intros Harg. unfold bestMask. rewrite bestMask_foldl.
  apply bestMask_after; [done| |done]. by destruct Harg.
Qed.

(** ** The order on numbers *)

Lemma Qc_ltb_lt (x y : Qc) : Qc_ltb x y = true ↔ (x < y)%Qc.
Proof.
  unfold Qc_ltb. rewrite Qclt_alt. by destruct (x ?= y)%Qc.
Qed.

Lemma Qc_eqb_eq (x y : Qc) : Qc_eqb x y = true ↔ x = y.
Proof.
  unfold Qc_eqb. rewrite Qceq_alt. by destruct (x ?= y)%Qc.
Qed.

Lemma nle_refl (a : number) : a ≠ NaN → nle a a = true.
Proof.
  intros Ha. destruct a as [| | |x]; try done.
  unfold nle. cbn. apply orb_true_iff. right. by apply Qc_eqb_eq.
Qed.

Lemma nlt_nle (a b : number) : nlt a b = true → nle a b = true.
Proof. unfold nlt, nle. by intros ->. Qed.

Lemma not_ngt_nle (a b : number) :
  a ≠ NaN → b ≠ NaN → ngt a b = false → nle a b = true.
Proof.
  intros Ha Hb. destruct a as [| | |x], b as [| | |y]; try done.
  unfold nle. cbn. unfold Qc_ltb, Qc_eqb. rewrite (Qc_compare_antisym x y).
  by destruct (x ?= y)%Qc.
Qed.

Lemma nle_nlt_trans (a b c : number) :
  nle a b = true → nlt b c = true → nlt a c = true.
Proof.
  unfold nle, nlt.
  destruct a as [| | |x], b as [| | |y], c as [| | |z]; cbn; try done.
  rewrite orb_true_iff, !Qc_ltb_lt, Qc_eqb_eq.
  intros [Hxy| ->] Hyz; [|done]. by apply Qclt_trans with y.
Qed.

(** A non-empty array without NaN has a least index that attains its
    maximum. *)
Lemma least_argmax_exists (scores : Float32Array) :
  scores ≠ [] → NaN ∉ scores → ∃ i, least_argmax scores i.
Proof.
  induction scores as [|v l IH] using rev_ind; [done|]. intros _ Hnan.
  assert (v ≠ NaN) as Hv.
  { intros ->. apply Hnan, elem_of_app. right. by apply list_elem_of_singleton. }
  assert (NaN ∉ l) as Hl.
  { intros Hin. apply Hnan, elem_of_app. by left. }
  assert (∀ j, j < length l → aget (l ++ [v]) j = aget l j) as Hold.
  { intros j Hj. unfold aget. by rewrite lookup_app_l. }
  assert (aget (l ++ [v]) (length l) = v) as Hnew.
  { unfold aget. by rewrite list_lookup_middle. }
  assert (∀ j, j < length l → aget l j ≠ NaN) as Hnot.
  { intros j Hj Heq. apply Hl. unfold aget in Heq.
    destruct (lookup_lt_is_Some_2 l j Hj) as [x Hx]. rewrite Hx in Heq.
    cbn in Heq. subst x. by apply list_elem_of_lookup_2 in Hx. }
  destruct l as [|v0 l0] using rev_ind.
  { exists 0. split_and!.
    - simpl. lia.
    - intros j Hj. simpl in Hj. replace j with 0 by lia. by apply nle_refl.
    - intros j Hj. lia. }
  clear IHl0. set (l := l0 ++ [v0]) in *.
  destruct IH as (i & Hi & Hmax & Hleast); [by destruct l0|done|].
  assert (length (l ++ [v]) = S (length l)) as Hlen
    by (rewrite length_app; simpl; lia).
  unfold least_argmax. rewrite Hlen.
  destruct (ngt v (aget l i)) eqn:Hgt.
  - exists (length l). split_and!.
    + lia.
    + intros j Hj. rewrite Hnew.
      destruct (decide (j = length l)) as [->|Hne].
      * rewrite Hnew. by apply nle_refl.
      * rewrite Hold by lia. apply nlt_nle.
        apply nle_nlt_trans with (aget l i); [apply Hmax; lia|done].
    + intros j Hj. rewrite Hnew, Hold by lia.
      apply nle_nlt_trans with (aget l i); [by apply Hmax|done].
  - exists i. split_and!.
    + lia.
    + intros j Hj. rewrite (Hold i) by done.
      destruct (decide (j = length l)) as [->|Hne].
      * rewrite Hnew. apply not_ngt_nle; [done|by apply Hnot|done].
      * rewrite Hold by lia. apply Hmax. lia.
    + intros j Hj. rewrite !Hold by lia. by apply Hleast.
Qed.

Lemma selectResult_best masks iou_predictions r :
  SAMClient.selectResult masks iou_predictions = Ok r →
  sr_score r = (bestMask (t_data iou_predictions)).2
  ∧ sr_data r = sliceTensor (t_data masks) (t_dims masks)
                  (bestMask (t_data iou_predictions)).1.
Proof.
  unfold SAMClient.selectResult.
  destruct (bestMask (t_data iou_predictions)) as [idx score].
  destruct (float32ArrayToCanvas _ _ _); [|done..].
  intros [= <-]. done.
Qed.

Lemma least_argmax_no_NaN (scores : Float32Array) i :
  least_argmax scores i → scores ≠ [] ∧ NaN ∉ scores.
Proof.
  intros (Hi & Hmax & _). split; [intros ->; simpl in Hi; lia|].
  intros Hin. apply list_elem_of_lookup_1 in Hin as [j Hj].
  specialize (Hmax j (lookup_lt_Some _ _ _ Hj)).
  unfold aget at 1 in Hmax. rewrite Hj in Hmax.
  by destruct (aget scores i).
Qed.

(** C4.  Whenever an index is the least one that attains the maximum of
    the confidence scores (which is the case for exactly one index of every
    non-empty array without NaN), the scan of [segment] selects that index
    and returns its score, and the result of [segment] carries that score
    and the mask plane of that index; for the scores
    [0.2, 0.91, 0.91, 0.4] the index is 1 and the score 0.91. *)
Theorem bestMask_first_maximum (scores : Float32Array) (i : nat) :
  least_argmax scores i →
  bestMask scores = (i, aget scores i)
  ∧ (∀ masks dims r,
       SAMClient.selectResult masks {| t_data := scores; t_dims := dims |} = Ok r →
       sr_score r = aget scores i
       ∧ sr_data r = sliceTensor (t_data masks) (t_dims masks) i)
  ∧ (∀ j, least_argmax scores j → j = i)
  ∧ (∀ scores' : Float32Array,
       (∃ i', least_argmax scores' i') ↔ scores' ≠ [] ∧ NaN ∉ scores')
  ∧ bestMask example_scores = (1, Fin (Q2Qc (91 # 100))).
Proof.
  intros Harg. pose proof (bestMask_least_argmax scores i Harg) as Hbest.
  split_and!.
  - done.
  - intros masks dims r Hr. apply selectResult_best in Hr as [-> ->].
    cbn [t_data]. by rewrite Hbest.
  - intros j Hj. apply bestMask_least_argmax in Hj. congruence.
  - intros scores'. split.
    + intros [i' Hi']. by apply least_argmax_no_NaN in Hi'.
    + intros [Hne Hnan]. by apply least_argmax_exists.
  - by vm_compute.
Qed.

Lemma bestMask_first_maximum_witness :
  bestMask example_scores = (1, aget example_scores 1).
Proof.
  apply (bestMask_first_maximum example_scores 1).
  split_and!.
  - simpl. lia.
  - intros j Hj. simpl in Hj.
    destruct j as [|[|[|[|j]]]]; [by vm_compute..|lia].
  - intros j Hj. destruct j as [|j]; [by vm_compute|lia].
Defined.

(** ** Decode before encode; segment before setImage *)

Lemma getEncoderSession_imageEncoded this wd :
  imageEncoded (getEncoderSession this wd).1.2 = imageEncoded this.
Proof.
  unfold getEncoderSession.
  destruct (sessionEncoder this), (bufferEncoder this); try done.
  by destruct (getORTSession _ _) as [[?|?|] ?].
Qed.

Lemma getDecoderSession_imageEncoded this wd :
  imageEncoded (getDecoderSession this wd).1.2 = imageEncoded this.
Proof.
  unfold getDecoderSession.
  destruct (sessionDecoder this), (bufferDecoder this); try done.
  by destruct (getORTSession _ _) as [[?|?|] ?].
Qed.

Lemma createSessions_imageEncoded this wd :
  imageEncoded (createSessions this wd).1.2 = imageEncoded this.
Proof.
  unfold createSessions.
  pose proof (getEncoderSession_imageEncoded this wd) as He.
  destruct (getEncoderSession this wd) as [[[[?|]|?|] this1] wd1]; try done.
  pose proof (getDecoderSession_imageEncoded this1 wd1) as Hd.
  cbn [fst snd] in He. rewrite <-He.
  by destruct (getDecoderSession this1 wd1) as [[[[?|]|?|] this2] wd2].
Qed.

Lemma encodeImage_failed_imageEncoded this t wd :
  succeeded (encodeImage this t wd).1.1 = false →
  imageEncoded (encodeImage this t wd).1.2 = imageEncoded this.
Proof.
  unfold encodeImage.
  pose proof (getEncoderSession_imageEncoded this wd) as He.
  destruct (getEncoderSession this wd) as [[[[[s ep]|]|?|] this1] wd1]; try done.
  cbn [fst snd] in He.
  destruct (session_run _ _ _) as [results|m|]; [|done..].
  by destruct (modelType (modelConfig this1)).
Qed.

Lemma decode_imageEncoded this points masks wd :
  imageEncoded (decode this points masks wd).1.2 = imageEncoded this.
Proof.
  unfold decode. destruct (imageEncoded this) as [encoded|] eqn:Henc; [|done].
  pose proof (getDecoderSession_imageEncoded this wd) as Hd.
  destruct (getDecoderSession this wd) as [[[[[s ep]|]|?|] this1] wd1];
    cbn [fst snd] in *; congruence.
Qed.

(** A call other than a successful [encodeImage] never stores encoded
    state. *)
Lemma run_call_imageEncoded c this wd :
  imageEncoded this = None →
  (∀ t, c = CallEncodeImage t → (run_call c this wd).1.1 = false) →
  imageEncoded (run_call c this wd).1.2 = None.
Proof.
  intros Hnone Hfail. destruct c as [| |t|points masks|]; cbn [run_call].
  - unfold downloadModels.
    by destruct (downloadModel _ _) as [enc wd1], (downloadModel _ _) as [dec wd2].
  - pose proof (createSessions_imageEncoded this wd) as H.
    destruct (createSessions this wd) as [[r this1] wd1]. cbn [fst snd] in *. congruence.
  - specialize (Hfail t eq_refl). cbn [run_call] in Hfail.
    pose proof (encodeImage_failed_imageEncoded this t wd) as H.
    destruct (encodeImage this t wd) as [[r this1] wd1]. cbn [fst snd] in *.
    rewrite H by done. done.
  - pose proof (decode_imageEncoded this points masks wd) as H.
    destruct (decode this points masks wd) as [[r this1] wd1]. cbn [fst snd] in *.
    congruence.
  - unfold dispose. by repeat case_match.
Qed.

Lemma run_calls_imageEncoded cs this wd :
  imageEncoded this = None →
  no_successful_encode (run_calls cs this wd).1.1 →
  imageEncoded (run_calls cs this wd).1.2 = None.
Proof.
  revert this wd. induction cs as [|c cs IH]; intros this wd Hnone Hno; [done|].
  cbn [run_calls] in *.
  pose proof (run_call_imageEncoded c this wd Hnone) as Hc.
  destruct (run_call c this wd) as [[ok this1] wd1]. cbn [fst snd] in Hc.
  specialize (IH this1 wd1).
  destruct (run_calls cs this1 wd1) as [[history this2] wd2]. cbn [fst snd] in *.
  apply IH.
  - apply Hc. intros t ->. destruct ok; [|done].
    exfalso. apply (Hno t). by left.
  - intros t Hin. apply (Hno t). by right.
Qed.

(** After any sequence of calls on a new [SAM2] in which no [encodeImage]
    succeeded, [decode] fails with the image-not-encoded error and leaves
    the object and the world as they are: no session is created or run. *)
Lemma decode_before_encode cfg wd cs points masks :
  let '(history, this, wd') := run_calls cs (new_SAM2 cfg) wd in
  no_successful_encode history →
  decode this points masks wd'
  = (Throw "[SAM] Image not encoded. Call encodeImage first.", this, wd').
Proof.
  pose proof (run_calls_imageEncoded cs (new_SAM2 cfg) wd eq_refl) as H.
  destruct (run_calls cs (new_SAM2 cfg) wd) as [[history this] wd'].
  cbn [fst snd] in H. intros Hno. unfold decode. by rewrite (H Hno).
Qed.

(** On a client that holds no image canvas, [segment] fails with the
    unset-image error and changes nothing. *)
Lemma segment_without_canvas br this options :
  SAMClient.imageCanvas this = None →
  SAMClient.segment br this options
  = (Throw "Image not set. Call setImage() first.", this).
Proof. intros Hnone. unfold SAMClient.segment. rewrite Hnone. by destruct (SAMClient.isReady this). Qed.

(** C8.  On an initialized client, a [setImage] call that fails in the
    worker (here the inference run of the encoder throws) has already
    stored the image canvas; [segment] then passes its unset-image guard,
    sends the decode request, and fails with the worker's error instead of
    the unset-image error, although no [setImage] succeeded. *)
Theorem segment_after_failed_setImage :
  let '(r1, r2, client) := client_after_failed_setImage in
  r1 = Ok ()
  ∧ r2 = Throw "inference failed"
  ∧ is_Some (SAMClient.imageCanvas client)
  ∧ (SAMClient.segment stub_browser client centre_point).1
    = Throw "[SAM] Image not encoded. Call encodeImage first."
  ∧ (SAMClient.segment stub_browser client centre_point).1
    ≠ Throw "Image not set. Call setImage() first.".
Proof.
  assert (∃ r1 r2 client, client_after_failed_setImage = (r1, r2, client)
            ∧ r1 = Ok () ∧ r2 = Throw "inference failed"
            ∧ is_Some (SAMClient.imageCanvas client)
            ∧ (SAMClient.segment stub_browser client centre_point).1
              = Throw "[SAM] Image not encoded. Call encodeImage first.")
    as (r1 & r2 & client & -> & -> & -> & Hcanvas & Hseg).
  { eexists _, _, _. split; [vm_compute; reflexivity|].
    split_and!; [reflexivity|reflexivity|by eexists|by vm_compute]. }
  split_and!; [done|done|done|done|]. by rewrite Hseg.
Qed.

(** [initialize], [segment] and [dispose] never store an image canvas. *)
Lemma initialize_imageCanvas this workerUrl env :
  SAMClient.imageCanvas (SAMClient.initialize this workerUrl env).2
  = SAMClient.imageCanvas this.
Proof.
  unfold SAMClient.initialize. destruct workerUrl as [url|]; [|done].
  destruct (SAMWorker.initialize _ _) as [[report|message|] wk]; [|done..].
  by destruct (success report).
Qed.

Lemma dispose_imageCanvas this :
  SAMClient.imageCanvas (SAMClient.dispose this) = None.
Proof. done. Qed.

(** A [setImage] call that fails in the worker leaves the image canvas
    stored. *)
Lemma setImage_stores_before_encoding br this image squareCanvas tensor message wk :
  SAMClient.isReady this = true →
  createSquareCanvas br (imageToCanvas image)
    (imageSize (SAMClient.modelConfig this)) = Ok squareCanvas →
  canvasToFloat32Array squareCanvas = Ok tensor →
  SAMWorker.encodeImage (SAMClient.worker this) tensor.1 tensor.2
  = (Throw message, wk) →
  (SAMClient.setImage br this image).1 = Throw message
  ∧ SAMClient.imageCanvas (SAMClient.setImage br this image).2 = Some squareCanvas.
Proof.
  intros Hready Hsquare Htensor Hencode. unfold SAMClient.setImage.
  rewrite Hready. cbn [negb]. rewrite Hsquare. cbn [SAMClient.worker].
  rewrite Htensor. destruct tensor as [float32Array shape]. cbn [fst snd] in Hencode.
  by rewrite Hencode.
Qed.

(** * Further properties of the code *)

(** ** [getModelConfig] on every id *)

Lemma own_property_unregistered (key : string) :
  key ∉ Object_keys MODEL_CONFIGS → own_property MODEL_CONFIGS key = None.
Proof.
  rewrite Object_keys_MODEL_CONFIGS. intros Hkey.
  unfold MODEL_CONFIGS, own_property.
  do 3 (case_decide; [subst; exfalso; apply Hkey; repeat first [by left | right]|]).
  done.
Qed.

Lemma getModelConfig_inherited (key : string) :
  key ∉ Object_keys MODEL_CONFIGS → key ∈ Object_prototype_keys →
  getModelConfig key = Ok (ObjectPrototypeMember key).
Proof.
  intros Hkey Hproto. unfold getModelConfig, get_property.
  rewrite own_property_unregistered by done. by rewrite decide_True.
Qed.

(** X1.  [getModelConfig] throws exactly on the ids that are neither keys of
    the registry nor names of members inherited from [Object.prototype], and
    then with the message that lists the registered ids; it returns a
    descriptor exactly for the pairs of the registry, and the descriptor it
    returns is the one stored under the descriptor's own id. *)
Theorem getModelConfig_throws_exactly (key : string) :
  ((∃ message, getModelConfig key = Throw message)
   ↔ (key ∉ Object_keys MODEL_CONFIGS) ∧ (key ∉ Object_prototype_keys))
  ∧ (∀ message, getModelConfig key = Throw message →
       message = "Unknown model: " +:+ key
                 +:+ ". Available models: mobilesam, sam2_tiny, sam2")
  ∧ (∀ cfg, getModelConfig key = Ok (OwnValue cfg) ↔ (key, cfg) ∈ MODEL_CONFIGS)
  ∧ (∀ cfg, getModelConfig key = Ok (OwnValue cfg) →
       getModelConfig (id cfg) = Ok (OwnValue cfg)).
Proof.
  destruct (decide (key ∈ Object_keys MODEL_CONFIGS)) as [Hreg|Hunreg].
  - destruct (getModelConfig_registered key Hreg) as (cfg0 & Hget & Hin & Hcanon).
    split_and!.
    + split; [intros [message Hm]; congruence|by intros [? _]].
    + intros message Hm. congruence.
    + intros cfg. split; [intros Hcfg; congruence|].
      intros Hcfg. rewrite Hget. do 2 f_equal.
      unfold MODEL_CONFIGS in Hin, Hcfg.
      repeat (apply elem_of_cons in Hin as [Hin|Hin]; [simplify_eq|]);
        try (by apply elem_of_nil in Hin);
        repeat (apply elem_of_cons in Hcfg as [Hcfg|Hcfg]; [by simplify_eq|]);
        by apply elem_of_nil in Hcfg.
    + intros cfg Hcfg. congruence.
  - destruct (decide (key ∈ Object_prototype_keys)) as [Hproto|Hnoproto].
    + pose proof (getModelConfig_inherited key Hunreg Hproto) as Hget.
      split_and!.
      * split; [intros [message Hm]; congruence|by intros [_ ?]].
      * intros message Hm. congruence.
      * intros cfg. split; [intros Hcfg; congruence|].
        intros Hcfg. exfalso. apply Hunreg.
        apply list_elem_of_fmap. by exists (key, cfg).
      * intros cfg Hcfg. congruence.
    + pose proof (getModelConfig_unknown key Hunreg Hnoproto) as Hget.
      split_and!.
      * split; [done|]. intros _. by eexists.
      * intros message Hm. congruence.
      * intros cfg. split; [intros Hcfg; congruence|].
        intros Hcfg. exfalso. apply Hunreg.
        apply list_elem_of_fmap. by exists (key, cfg).
      * intros cfg Hcfg. congruence.
Qed.

(** ** [findMaskBounds] on every field that is not 0-by-0 *)

(** X2.  When some value of the field exceeds the threshold, the box of
    [findMaskBounds] lies inside the field, is at least one pixel wide and
    high, contains every position that exceeds the threshold, and each of
    its four sides passes through such a position; when no value exceeds
    the threshold and the field is not 0-by-0, the box is the zero box. *)
Theorem findMaskBounds_bounding_box (data : Float32Array) (width height : nat)
    (threshold : option number) :
  let t := default (num_of_Z 0) threshold in
  let box := findMaskBounds data width height threshold in
  (some_exceeds data width height t →
     (0 ≤ bb_x box)%Z ∧ (0 ≤ bb_y box)%Z
     ∧ (1 ≤ bb_width box)%Z ∧ (1 ≤ bb_height box)%Z
     ∧ (bb_x box + bb_width box ≤ Z.of_nat width)%Z
     ∧ (bb_y box + bb_height box ≤ Z.of_nat height)%Z
     ∧ (∀ x y, x < width → y < height → exceeds data width t x y = true →
          (bb_x box ≤ Z.of_nat x < bb_x box + bb_width box)%Z
          ∧ (bb_y box ≤ Z.of_nat y < bb_y box + bb_height box)%Z)
     ∧ (∃ y, y < height ∧ exceeds data width t (Z.to_nat (bb_x box)) y = true)
     ∧ (∃ y, y < height
             ∧ exceeds data width t (Z.to_nat (bb_x box + bb_width box - 1)) y = true)
     ∧ (∃ x, x < width ∧ exceeds data width t x (Z.to_nat (bb_y box)) = true)
     ∧ (∃ x, x < width
             ∧ exceeds data width t x (Z.to_nat (bb_y box + bb_height box - 1)) = true))
  ∧ ((∀ x y, x < width → y < height → exceeds data width t x y = false) →
     0 < width ∨ 0 < height →
     box = {| bb_x := 0; bb_y := 0; bb_width := 0; bb_height := 0 |}).
Proof.
  intros t box. split.
  - intros Hsome.
    destruct (findMaskBounds_nonempty data width height threshold Hsome)
      as (Hin & (xa & ya & Hxa & Hya & Hea & Ea) & (xb & yb & Hxb & Hyb & Heb & Eb)
          & (xc & yc & Hxc & Hyc & Hec & Ec) & (xd & yd & Hxd & Hyd & Hed & Ed)).
    fold t box in Hin, Ea, Eb, Ec, Ed.
    pose proof (Hin xa ya Hxa Hya Hea) as Ha.
    pose proof (Hin xb yb Hxb Hyb Heb) as Hb.
    pose proof (Hin xc yc Hxc Hyc Hec) as Hc.
    pose proof (Hin xd yd Hxd Hyd Hed) as Hd.
    split_and!; [lia..| | | | |].
    + intros x y Hx Hy Hex. by apply Hin.
    + exists ya. split; [done|]. by rewrite Ea, Nat2Z.id.
    + exists yb. split; [done|]. by rewrite Eb, Nat2Z.id.
    + exists xc. split; [done|]. by rewrite Ec, Nat2Z.id.
    + exists xd. split; [done|]. by rewrite Ed, Nat2Z.id.
  - intros Hnone Hdim. apply findMaskBounds_empty; [done|].
    intros (x & y & Hx & Hy & Hex). fold t in Hex. by rewrite Hnone in Hex.
Qed.

(** ** Best-mask selection on every score array *)

Lemma Qc_ltb_false (x y : Qc) : Qc_ltb x y = false ↔ (y ≤ x)%Qc.
Proof.
  rewrite Qcle_ngt, <-Qc_ltb_lt. by destruct (Qc_ltb x y).
Qed.

Lemma Qc_eqb_false (x y : Qc) : Qc_eqb x y = false ↔ x ≠ y.
Proof. rewrite <-Qc_eqb_eq. by destruct (Qc_eqb x y). Qed.

Lemma ngt_not_NaN (c b : number) : ngt c b = true → c ≠ NaN.
Proof. by destruct c. Qed.

(** An entry that does not beat the current best does not reach a value
    that beats it. *)
Lemma below_new_best (a b c : number) :
  b ≠ NaN → ngt a b = false → ngt c b = true → nle c a = false.
Proof.
  intros Hb. unfold nle.
  destruct a as [| | |x], b as [| | |y], c as [| | |z]; cbn; try done.
  rewrite Qc_ltb_false, Qc_ltb_lt. intros Hxy Hyz.
  apply orb_false_iff. split.
  - apply Qc_ltb_false. apply Qclt_le_weak. by apply Qcle_lt_trans with y.
  - apply Qc_eqb_false. intros ->. by apply (Qcle_not_lt _ _ Hxy).
Qed.

Lemma ngt_irrefl (a : number) : ngt a a = false.
Proof.
  destruct a as [| | |x]; cbn; try done.
  apply Qc_ltb_false. apply Qcle_refl.
Qed.

Lemma nle_false_ngt (c a : number) : nle c a = false → ngt a c = false.
Proof. unfold nle. by intros [? _]%orb_false_iff. Qed.

(** The invariant of the scan after the first [k] scores. *)
Lemma bestMask_invariant (scores : Float32Array) (k : nat) :
  k ≤ length scores →
  let best := foldl (bestStep scores) (0, NegInfinity) (seq 0 k) in
  best.2 ≠ NaN
  ∧ (∀ j, j < k → ngt (aget scores j) best.2 = false)
  ∧ (∀ j, j < best.1 → nle best.2 (aget scores j) = false)
  ∧ (best = (0, NegInfinity) ∨ best.1 < k ∧ aget scores best.1 = best.2).
Proof.
  induction k as [|k IH]; intros Hk best.
  { subst best. cbn. split_and!; [done|intros; lia|intros; lia|by left]. }
  destruct (IH ltac:(lia)) as (Hnan & Hmax & Hfirst & Hwhich). clear IH.
  subst best. rewrite bestMask_prefix_S.
  set (best := foldl (bestStep scores) (0, NegInfinity) (seq 0 k)) in *.
  unfold bestStep. destruct (ngt (aget scores k) best.2) eqn:Hgt; cbn [fst snd].
  - split_and!.
    + by apply ngt_not_NaN in Hgt.
    + intros j Hj. destruct (decide (j = k)) as [->|Hne].
      * apply ngt_irrefl.
      * apply nle_false_ngt. apply (below_new_best _ best.2); [done| |done].
        apply Hmax. lia.
    + intros j Hj. apply (below_new_best _ best.2); [done| |done]. by apply Hmax.
    + right. split; [lia|done].
  - split_and!.
    + done.
    + intros j Hj. destruct (decide (j = k)) as [->|Hne]; [done|]. apply Hmax. lia.
    + done.
    + destruct Hwhich as [Hinit|[Hlt Heq]]; [by left|]. right. split; [lia|done].
Qed.

(** X3.  On every score array, NaN entries included, the scan of [segment]
    returns a score that no entry exceeds and that no earlier entry reaches;
    the score is never NaN; it is the entry at the returned index, unless no
    entry is above [-Infinity], in which case the scan returns index 0 with
    score [-Infinity]. *)
Theorem bestMask_upper_bound (scores : Float32Array) :
  let best := bestMask scores in
  best.2 ≠ NaN
  ∧ (∀ j, ngt (aget scores j) best.2 = false)
  ∧ (∀ j, j < best.1 → nle best.2 (aget scores j) = false)
  ∧ (best = (0, NegInfinity) ∧ (∀ j, ngt (aget scores j) NegInfinity = false)
     ∨ best.1 < length scores ∧ aget scores best.1 = best.2).
Proof.
  intros best.
  destruct (bestMask_invariant scores (length scores) ltac:(lia))
    as (Hnan & Hmax & Hfirst & Hwhich).
  change (foldl (bestStep scores) (0, NegInfinity) (seq 0 (length scores)))
    with best in *.
  assert (∀ j, ngt (aget scores j) best.2 = false) as Hall.
  { intros j. destruct (decide (j < length scores)) as [Hj|Hj]; [by apply Hmax|].
    unfold aget. by rewrite lookup_ge_None_2 by lia. }
  split_and!; [done|done|done|].
  destruct Hwhich as [Hinit|Hidx]; [left|by right].
  split; [done|]. intros j. specialize (Hall j). by rewrite Hinit in Hall.
Qed.

(** ** Ratios of integers *)

Lemma Qc_of_Z_plus (a b : Z) : (Qc_of_Z a + Qc_of_Z b)%Qc = Qc_of_Z (a + b).
Proof.
  apply Qc_is_canon. unfold Qc_of_Z, Qcplus, Q2Qc. cbn [this].
  rewrite !Qred_correct, inject_Z_plus. reflexivity.
Qed.

Lemma Qc_of_Z_mult (a b : Z) : (Qc_of_Z a * Qc_of_Z b)%Qc = Qc_of_Z (a * b).
Proof.
  apply Qc_is_canon. unfold Qc_of_Z, Qcmult, Q2Qc. cbn [this].
  rewrite !Qred_correct, inject_Z_mult. reflexivity.
Qed.

Lemma Qc_of_Z_le (a b : Z) : (Qc_of_Z a ≤ Qc_of_Z b)%Qc ↔ (a ≤ b)%Z.
Proof. by rewrite Qcle_alt, Qc_of_Z_compare. Qed.

Lemma Qc_of_Z_lt (a b : Z) : (Qc_of_Z a < Qc_of_Z b)%Qc ↔ (a < b)%Z.
Proof. by rewrite Qclt_alt, Qc_of_Z_compare. Qed.

Lemma nle_Fin (x y : Qc) : nle (Fin x) (Fin y) = true ↔ (x ≤ y)%Qc.
Proof.
  unfold nle. cbn. rewrite orb_true_iff, Qc_ltb_lt, Qc_eqb_eq. split.
  - intros [Hlt| ->]; [by apply Qclt_le_weak|apply Qcle_refl].
  - intros Hle. destruct (Qcle_lt_or_eq _ _ Hle); [by left|by right].
Qed.

Lemma ndiv_num_of_Z (a b : Z) :
  b ≠ 0%Z → ndiv (num_of_Z a) (num_of_Z b) = Fin (Qc_of_Z a / Qc_of_Z b)%Qc.
Proof.
  intros Hb. unfold ndiv, num_of_Z.
  destruct (Qc_eqb (Qc_of_Z b) 0) eqn:Heq; [|done].
  apply Qc_eqb_eq in Heq. by apply Qc_of_Z_nonzero in Heq.
Qed.

(** A ratio [a / b] of integers with [0 <= a <= b] lies in [0, 1]. *)
Lemma ratio_in_unit_interval (a b : Z) :
  (0 ≤ a ≤ b)%Z → (0 < b)%Z →
  in_unit_interval (ndiv (num_of_Z a) (num_of_Z b)) = true.
Proof.
  intros [Ha Hab] Hb. rewrite ndiv_num_of_Z by lia.
  assert (0 < Qc_of_Z b)%Qc as Hpos by (change 0%Qc with (Qc_of_Z 0); by apply Qc_of_Z_lt).
  assert (Qc_of_Z b ≠ 0%Qc) as Hne by (apply Qc_of_Z_nonzero; lia).
  unfold in_unit_interval, num_of_Z. apply andb_true_iff. split; apply nle_Fin.
  - apply (Qcmult_le_mono_pos_r _ _ (Qc_of_Z b) Hpos).
    replace (Qc_of_Z a / Qc_of_Z b * Qc_of_Z b)%Qc with (Qc_of_Z a) by (by field).
    rewrite Qc_of_Z_mult. by apply Qc_of_Z_le.
  - apply (Qcmult_le_mono_pos_r _ _ (Qc_of_Z b) Hpos).
    replace (Qc_of_Z a / Qc_of_Z b * Qc_of_Z b)%Qc with (Qc_of_Z a) by (by field).
    rewrite Qc_of_Z_mult. apply Qc_of_Z_le. lia.
Qed.

(** ** Mask canvases: [maskCanvasToFloat32Array] and [float32ArrayToCanvas] *)

Lemma maskCanvas_loop_lookup (g : nat → number) (n i : nat) :
  i < n →
  for_range n (fun i float32Array => <[i := g i]> float32Array) (new_Float32Array n) !! i
  = Some (g i).
Proof.
  intros Hi. rewrite for_range_foldl.
  change (foldl (fun acc i => <[i := g i]> acc) (new_Float32Array n) (seq 0 n))
    with (writes (fun i : nat => i) g (new_Float32Array n) (seq 0 n)).
  apply (writes_touched (fun i : nat => i) g _ _ i).
  - apply elem_of_seq. lia.
  - by rewrite length_new_Float32Array.
  - by intros k' _ ->.
Qed.

Lemma maskCanvas_loop_length (g : nat → number) (n : nat) :
  length (for_range n (fun i float32Array => <[i := g i]> float32Array)
            (new_Float32Array n)) = n.
Proof.
  rewrite for_range_foldl.
  change (foldl (fun acc i => <[i := g i]> acc) (new_Float32Array n) (seq 0 n))
    with (writes (fun i : nat => i) g (new_Float32Array n) (seq 0 n)).
  by rewrite writes_length, length_new_Float32Array.
Qed.

Lemma num_of_byte_bounds (b : byte) : (0 ≤ Z.of_N (Byte.to_N b) ≤ 255)%Z.
Proof. pose proof (Byte.to_N_bounded b). lia. Qed.

Lemma rgb_average_in_unit_interval (r g b : byte) :
  in_unit_interval
    (ndiv (nadd (nadd (num_of_byte r) (num_of_byte g)) (num_of_byte b))
          (nmul (num_of_Z 3) (num_of_Z 255))) = true.
Proof.
  unfold num_of_byte, num_of_Z. cbn [nadd nmul].
  rewrite !Qc_of_Z_plus, Qc_of_Z_mult.
  pose proof (num_of_byte_bounds r). pose proof (num_of_byte_bounds g).
  pose proof (num_of_byte_bounds b).
  apply ratio_in_unit_interval; lia.
Qed.



Lemma scanOver_ext data data' width height t t' (l : list (nat * nat)) :
  (∀ y x, (y, x) ∈ l → exceeds data width t x y = exceeds data' width t' x y) →
  scanOver data width height t l = scanOver data' width height t' l.
Proof.
  induction l as [|[y x] l IH] using rev_ind; intros Hsame; [done|].
  unfold scanOver. rewrite !foldl_snoc. fold (scanOver data width height t l).
  fold (scanOver data' width height t' l).
  rewrite IH by (intros y' x' Hin; apply Hsame, elem_of_app; by left).
  unfold scanStep. rewrite (Hsame y x); [done|].
  apply elem_of_app. right. by apply list_elem_of_singleton.
Qed.

(** Masks that exceed the threshold at the same positions of the field have
    the same bounding box. *)
Lemma findMaskBounds_ext data data' width height threshold :
  (∀ x y, x < width → y < height →
     exceeds data width (default (num_of_Z 0) threshold) x y
     = exceeds data' width (default (num_of_Z 0) threshold) x y) →
  findMaskBounds data width height threshold
  = findMaskBounds data' width height threshold.
Proof.
  intros Hsame. unfold findMaskBounds. rewrite !scanMask_foldl.
  rewrite (scanOver_ext data data' _ _ _ (default (num_of_Z 0) threshold)); [done|].
  intros y x [? ?]%elem_of_range2. by apply Hsame.
Qed.

Lemma overlay_pixels_length (array : Float32Array) :
  Forall (fun l : list byte => length l = 4)
    ((fun v => if ngt v (num_of_Z 0)
               then ["050"; "205"; "050"; "255"]%byte
               else ["000"; "000"; "000"; "000"]%byte) <$> array).
Proof.
  apply Forall_fmap, Forall_forall. intros v _. cbn. by destruct (ngt v _).
Qed.

(** X5.  [float32ArrayToCanvas] returns a canvas exactly when the array is
    not empty and has [width * height] elements, and throws otherwise.  The
    canvas has the given size; pixel [i] is opaque lime green (50, 205, 50,
    255) when [array[i] > 0] and transparent black otherwise (also for NaN).
    Reading the canvas back with [maskCanvasToFloat32Array] gives an array
    of the same length that is positive at the same positions, so
    [findMaskBounds] returns the same box for both. *)
Theorem float32ArrayToCanvas_overlay (array : Float32Array) (mw mh : nat) :
  ((∃ canvas, float32ArrayToCanvas array mw mh = Ok canvas)
     ↔ 0 < length array ∧ length array = mw * mh)
  ∧ ((∃ message, float32ArrayToCanvas array mw mh = Throw message)
     ↔ length array = 0 ∨ length array ≠ mw * mh)
  ∧ (∀ canvas, float32ArrayToCanvas array mw mh = Ok canvas →
       width canvas = mw ∧ height canvas = mh
       ∧ length (bitmap canvas) = 4 * (mw * mh)
       ∧ (∀ i c, i < length array → c < 4 →
            bitmap canvas !! (i * 4 + c)
            = (if ngt (aget array i) (num_of_Z 0)
               then ["050"; "205"; "050"; "255"]%byte
               else ["000"; "000"; "000"; "000"]%byte) !! c)
       ∧ ∃ mask,
           maskCanvasToFloat32Array canvas = Ok mask
           ∧ length mask = length array
           ∧ (∀ i, ngt (aget mask i) (num_of_Z 0) = ngt (aget array i) (num_of_Z 0))
           ∧ findMaskBounds mask mw mh None = findMaskBounds array mw mh None).
Proof.
  unfold float32ArrayToCanvas.
  set (px := fun v => if ngt v (num_of_Z 0)
                      then ["050"; "205"; "050"; "255"]%byte
                      else ["000"; "000"; "000"; "000"]%byte).
  pose proof (overlay_pixels_length array) as Hfour. fold px in Hfour.
  assert (∀ i c, i < length array → c < 4 →
            mjoin (px <$> array) !! (i * 4 + c) = px (aget array i) !! c) as Hpixel.
  { intros i c Hi Hc.
    destruct (lookup_lt_is_Some_2 array i Hi) as [v Hv].
    assert (aget array i = v) as -> by (unfold aget; by rewrite Hv).
    destruct (lookup_lt_is_Some_2 (px v) c) as [b Hb].
    { unfold px. destruct (ngt v _); simpl; lia. }
    rewrite Hb. apply (join_lookup_Some_same_length' 4); [done..|].
    exists (px v). split; [|done]. by rewrite list_lookup_fmap, Hv. }
  split_and!.
  - case_decide as Hok; [split; [done|eauto]|].
    split; [by intros [? ?]|done].
  - case_decide as Hok; [|split; [lia|eauto]].
    split; [by intros [? ?]|lia].
  - intros canvas Hcanvas. case_decide as Hok; [|done].
    destruct Hok as [Hpos Hlen]. injection Hcanvas as <-. cbn [width height bitmap].
    assert (length (mjoin (px <$> array)) = 4 * (mw * mh)) as Hbytes.
    { rewrite length_join, (sum_list_fmap_same 4) by done.
      rewrite length_fmap. lia. }
    assert (0 < mw ∧ 0 < mh) as [Hw Hh] by nia.
    split_and!; [done..|].
    unfold maskCanvasToFloat32Array, getImageData. cbn [width height bitmap].
    rewrite decide_False by lia.
    set (g := fun i =>
           ndiv (nadd (nadd (bget (mjoin (px <$> array)) (i * 4))
                            (bget (mjoin (px <$> array)) (i * 4 + 1)))
                      (bget (mjoin (px <$> array)) (i * 4 + 2)))
                (nmul (num_of_Z 3) (num_of_Z 255))).
    assert (∀ i, i < mw * mh →
              ngt (g i) (num_of_Z 0) = ngt (aget array i) (num_of_Z 0)) as Hg.
    { intros i Hi. unfold g, bget.
      rewrite <-(Nat.add_0_r (i * 4)) at 1.
      rewrite !Hpixel by lia. unfold px.
      destruct (ngt (aget array i) (num_of_Z 0)); by vm_compute. }
    assert (∀ i,
              ngt (aget (for_range (mw * mh)
                           (fun i float32Array => <[i := g i]> float32Array)
                           (new_Float32Array (mw * mh))) i) (num_of_Z 0)
              = ngt (aget array i) (num_of_Z 0)) as Hsame.
    { intros i. destruct (decide (i < mw * mh)) as [Hi|Hi].
      - unfold aget at 1. rewrite maskCanvas_loop_lookup by done. by apply Hg.
      - unfold aget. rewrite !lookup_ge_None_2; [done|lia|].
        rewrite maskCanvas_loop_length. lia. }
    eexists. split_and!.
    + done.
    + rewrite maskCanvas_loop_length. lia.
    + exact Hsame.
    + apply findMaskBounds_ext. intros x y _ _. unfold exceeds. apply Hsame.
Qed.

(** ** The letterbox lies inside the target *)











(** ** The result that [segment] builds *)

(** On a field that is not 0-by-0 the bounding box lies inside the field. *)
Lemma findMaskBounds_within data width height threshold :
  0 < width ∨ 0 < height →
  let box := findMaskBounds data width height threshold in
  (0 ≤ bb_x box ∧ 0 ≤ bb_y box ∧ 0 ≤ bb_width box ∧ 0 ≤ bb_height box
   ∧ bb_x box + bb_width box ≤ Z.of_nat width
   ∧ bb_y box + bb_height box ≤ Z.of_nat height)%Z.
Proof.
  intros Hdim box. set (t := default (num_of_Z 0) threshold).
  destruct (scan_invariant data width height t (range2 height width)
              (range2_in_field width height)) as [_ [[_ Hnone]|(Hex & _)]].
  - subst box. rewrite findMaskBounds_empty; [cbn; lia|done|].
    intros (x & y & Hx & Hy & Hex). rewrite Hnone in Hex; [done|].
    apply elem_of_range2. lia.
  - destruct Hex as (y0 & x0 & Hin & Hex & _). apply elem_of_range2 in Hin.
    destruct (findMaskBounds_nonempty data width height threshold)
      as (Hinside & (xa & ya & Hxa & Hya & Hea & Eqa) & (xb & yb & Hxb & Hyb & Heb & Eqb)
          & (xc & yc & Hxc & Hyc & Hec & Eqc) & (xd & yd & Hxd & Hyd & Hed & Eqd)).
    { exists x0, y0. split_and!; [lia|lia|done]. }
    fold box in Hinside, Eqa, Eqb, Eqc, Eqd.
    pose proof (Hinside xa ya Hxa Hya Hea). lia.
Qed.

(** Two parts [a] and [b] of a whole [n], as fractions of it. *)
Lemma ratios_within_unit (a b : Z) (n : nat) :
  (0 ≤ a)%Z → (0 ≤ b)%Z → (a + b ≤ Z.of_nat n)%Z → 0 < n →
  in_unit_interval (ndiv (num_of_Z a) (num_of_nat n)) = true
  ∧ in_unit_interval (ndiv (num_of_Z b) (num_of_nat n)) = true
  ∧ nle (nadd (ndiv (num_of_Z a) (num_of_nat n)) (ndiv (num_of_Z b) (num_of_nat n)))
        (num_of_Z 1) = true.
Proof.
  intros Ha Hb Hab Hn. unfold num_of_nat. split_and!.
  - apply ratio_in_unit_interval; lia.
  - apply ratio_in_unit_interval; lia.
  - pose proof (ratio_in_unit_interval (a + b) (Z.of_nat n) ltac:(lia) ltac:(lia))
      as [_ Hle]%andb_true_iff.
    rewrite ndiv_num_of_Z in Hle by lia. rewrite !ndiv_num_of_Z by lia.
    cbn [nadd]. rewrite <-Qc_of_Z_plus in Hle.
    replace (Qc_of_Z a / Qc_of_Z (Z.of_nat n) + Qc_of_Z b / Qc_of_Z (Z.of_nat n))%Qc
      with ((Qc_of_Z a + Qc_of_Z b) / Qc_of_Z (Z.of_nat n))%Qc; [done|].
    field. apply Qc_of_Z_nonzero. lia.
Qed.

(** X7.  Every result that [segment] builds from a decoder answer is
    consistent: its shape is [height, width] of the mask tensor, both
    positive; its data holds [width * height] values; the bitmap has that
    size; the normalized bounds lie in [0, 1] and the box ends inside the
    unit square; and the result is accepted as [previousMask], since
    [float32ArrayToCanvas] takes its data and shape back. *)
Theorem selectResult_geometry (masks iou_predictions : Tensor) (r : SegmentResult) :
  SAMClient.selectResult masks iou_predictions = Ok r →
  let maskHeight := (sr_shape r).1 in
  let maskWidth := (sr_shape r).2 in
  t_dims masks !! 2 = Some maskHeight ∧ t_dims masks !! 3 = Some maskWidth
  ∧ 0 < maskWidth ∧ 0 < maskHeight
  ∧ length (sr_data r) = maskWidth * maskHeight
  ∧ width (sr_bitmap r) = maskWidth ∧ height (sr_bitmap r) = maskHeight
  ∧ length (bitmap (sr_bitmap r)) = length (sr_data r) * 4
  ∧ in_unit_interval (nb_x (sr_bounds r)) = true
  ∧ in_unit_interval (nb_y (sr_bounds r)) = true
  ∧ in_unit_interval (nb_width (sr_bounds r)) = true
  ∧ in_unit_interval (nb_height (sr_bounds r)) = true
  ∧ nle (nadd (nb_x (sr_bounds r)) (nb_width (sr_bounds r))) (num_of_Z 1) = true
  ∧ nle (nadd (nb_y (sr_bounds r)) (nb_height (sr_bounds r))) (num_of_Z 1) = true
  ∧ float32ArrayToCanvas (sr_data r) maskWidth maskHeight = Ok (sr_bitmap r).
Proof.
  unfold SAMClient.selectResult.
  destruct (bestMask (t_data iou_predictions)) as [bestMaskIdx bestScore].
  set (maskWidth := dim (t_dims masks) 3). set (maskHeight := dim (t_dims masks) 2).
  set (bestMaskData := sliceTensor (t_data masks) (t_dims masks) bestMaskIdx).
  destruct (float32ArrayToCanvas bestMaskData maskWidth maskHeight)
    as [maskCanvas| |] eqn:Hcanvas; [|done..].
  intros [= <-]. cbn [sr_shape sr_data sr_bitmap sr_bounds fst snd
                      nb_x nb_y nb_width nb_height].
  unfold float32ArrayToCanvas in Hcanvas.
  case_decide as Hok; [|done]. destruct Hok as [Hpos Hlen].
  assert (0 < maskWidth ∧ 0 < maskHeight) as [Hw Hh] by nia.
  pose proof (findMaskBounds_within bestMaskData maskWidth maskHeight None
                ltac:(lia)) as (Hx & Hy & Hbw & Hbh & Hxw & Hyh).
  set (bounds := findMaskBounds bestMaskData maskWidth maskHeight None) in *.
  destruct (ratios_within_unit (bb_x bounds) (bb_width bounds) maskWidth)
    as (Ux & Uw & Uxw); [done..|].
  destruct (ratios_within_unit (bb_y bounds) (bb_height bounds) maskHeight)
    as (Uy & Uh & Uyh); [done..|].
  assert (t_dims masks !! 2 = Some maskHeight ∧ t_dims masks !! 3 = Some maskWidth)
    as [Hd2 Hd3].
  { subst maskWidth maskHeight. unfold dim in *.
    destruct (t_dims masks !! 2), (t_dims masks !! 3); cbn in *; (done || lia). }
  injection Hcanvas as <-. unfold canvasToImageBitmap. cbn [width height bitmap].
  split_and!; try done.
  - rewrite length_join, (sum_list_fmap_same 4), length_fmap; [lia|].
    apply overlay_pixels_length.
  - unfold float32ArrayToCanvas. by rewrite decide_True.
Qed.

Lemma selectResult_geometry_witness :
  ∃ r, SAMClient.selectResult single_mask single_score = Ok r
       ∧ sr_shape r = (1, 1) ∧ length (sr_data r) = 1.
Proof.
  assert (∃ r, SAMClient.selectResult single_mask single_score = Ok r) as [r Hr]
    by (vm_compute; eauto).
  exists r.
  destruct (selectResult_geometry single_mask single_score r Hr)
    as (Hd2 & Hd3 & _ & _ & Hlen & _).
  split_and!; [exact Hr| |].
  - destruct (sr_shape r) as [mh mw]. cbn in Hd2, Hd3. congruence.
  - rewrite Hlen. destruct (sr_shape r) as [mh mw]. cbn in Hd2, Hd3.
    injection Hd2 as <-. injection Hd3 as <-. reflexivity.
Defined.

(** ** The model cache of [SAM2.downloadModel] *)

Lemma append_String (c : ascii) (s rest : string) :
  String c s +:+ rest = String c (s +:+ rest).
Proof. reflexivity. Qed.

Lemma append_empty_r (s : string) : s +:+ "" = s.
Proof. induction s as [|c s IH]; [done|]. by rewrite append_String, IH. Qed.

Lemma append_char_assoc (s : string) (c : ascii) (rest : string) :
  (s +:+ String c "") +:+ rest = s +:+ String c rest.
Proof. induction s as [|c' s IH]; [done|]. by rewrite !append_String, IH. Qed.

Lemma split_slash_from_slash_free (current name : string) :
  slash_free name = true → split_slash_from current name = [current +:+ name].
Proof.
  revert current. induction name as [|c rest IH]; intros current Hfree.
  - cbn. by rewrite append_empty_r.
  - cbn in *. case_decide; [done|]. rewrite IH by done.
    by rewrite append_char_assoc.
Qed.

Lemma split_slash_from_nonempty (current s : string) :
  split_slash_from current s ≠ [].
Proof.
  revert current. induction s as [|c rest IH]; intros current; [done|].
  cbn. case_decide; [done|apply IH].
Qed.

Lemma last_split_slash_from (current prefix name : string) :
  slash_free name = true →
  last (split_slash_from current (prefix +:+ "/" +:+ name)) = Some name.
Proof.
  intros Hfree. revert current.
  induction prefix as [|c prefix IH]; intros current.
  - change ("" +:+ "/" +:+ name) with (String "/" name). cbn.
    by rewrite split_slash_from_slash_free.
  - rewrite append_String. cbn. case_decide.
    + specialize (IH "").
      destruct (split_slash_from "" (prefix +:+ "/" +:+ name)) eqn:Hsplit; [|done].
      by apply split_slash_from_nonempty in Hsplit.
    + apply IH.
Qed.

(** X8.  The cache key of [downloadModel] is the text after the last slash
    of the URL: for a URL [prefix/name] whose [name] holds no slash it is
    [name], and a URL without any slash is its own key.  [split('/')]
    never gives an empty array, so the fallback name 'model.onnx' is never
    used: the key is always the last piece of the split. *)
Theorem model_filename_last_segment (prefix name : string) :
  slash_free name = true →
  model_filename (prefix +:+ "/" +:+ name) = name
  ∧ model_filename name = name
  ∧ ∀ url, last (split_slash url) = Some (model_filename url).
Proof.
  intros Hfree. unfold model_filename, split_slash. split_and!.
  - by rewrite last_split_slash_from.
  - by rewrite split_slash_from_slash_free.
  - intros url. destruct (last (split_slash_from "" url)) as [x|] eqn:Hlast; [done|].
    apply last_None in Hlast. by apply split_slash_from_nonempty in Hlast.
Qed.

Lemma model_filename_last_segment_witness :
  model_filename ("https://example.org/models" +:+ "/" +:+ "m.onnx") = "m.onnx"
  ∧ model_filename "m.onnx" = "m.onnx".
Proof.
  destruct (model_filename_last_segment "https://example.org/models" "m.onnx" eq_refl)
    as (Hurl & Hname & _).
  split; [exact Hurl|exact Hname].
Defined.

(** X9.  With a writable cache, a download that succeeds is written under
    the file name of the URL, and a later [downloadModel] of any URL with
    the same file name is served from the cache: it returns the bytes of
    the first download and does not touch the network, also when the two
    URLs differ.  An empty download is cached too, but never served: the
    later call fetches again. *)
Theorem downloadModel_read_through (url url' : string) (wd : World)
    (files : gmap string ArrayBuffer) (status : nat) (buffer : ArrayBuffer) :
  opfs wd = Some files →
  cache_lookup wd (model_filename url) = None →
  fetch wd url = HttpResponse true status (Some buffer) →
  opfs_write_ok wd (model_filename url) = true →
  model_filename url' = model_filename url →
  let wd1 := (downloadModel url wd).2 in
  (downloadModel url wd).1 = Some buffer
  ∧ opfs wd1 = Some (<[model_filename url := buffer]> files)
  ∧ trace wd1 = trace wd ++ [EvFetch url; EvCacheWrite (model_filename url)]
  ∧ (0 < length buffer → downloadModel url' wd1 = (Some buffer, wd1))
  ∧ (length buffer = 0 →
     ∃ rest, trace (downloadModel url' wd1).2 = trace wd1 ++ EvFetch url' :: rest).
Proof.
  intros Hfs Hmiss Hfetch Hwrite Hname wd1.
  assert (downloadModel url wd
          = (Some buffer,
             log_event (EvCacheWrite (model_filename url))
               (with_opfs (log_event (EvFetch url) wd)
                  (Some (<[model_filename url := buffer]> files))))) as Hfirst.
  { unfold downloadModel. rewrite Hmiss. cbn [fetch log_event]. rewrite Hfetch.
    unfold cache_store. cbn [opfs log_event opfs_write_ok]. by rewrite Hfs, Hwrite. }
  subst wd1. rewrite Hfirst. cbn [fst snd].
  set (wd1 := log_event _ _).
  assert (opfs wd1 = Some (<[model_filename url := buffer]> files)) as Hfs1 by done.
  split_and!.
  - done.
  - done.
  - cbn. by rewrite <-app_assoc.
  - intros Hlen. unfold downloadModel, cache_lookup.
    rewrite Hname, Hfs1, lookup_insert_eq. by rewrite decide_True.
  - intros Hlen. unfold downloadModel, cache_lookup.
    rewrite Hname, Hfs1, lookup_insert_eq. rewrite decide_False by lia.
    destruct (fetch (log_event (EvFetch url') wd1) url') as [|[] st [body|]];
      try (by exists []).
    unfold cache_store. cbn [opfs log_event]. rewrite Hfs1.
    destruct (opfs_write_ok _ _); cbn; [|by exists []].
    eexists. by rewrite <-app_assoc.
Qed.

Lemma downloadModel_read_through_witness :
  let wd1 := (downloadModel "https://example.org/encoder/model.onnx" caching_world).2 in
  (downloadModel "https://example.org/encoder/model.onnx" caching_world).1
  = Some ["001"%byte]
  ∧ downloadModel "https://example.org/decoder/model.onnx" wd1 = (Some ["001"%byte], wd1).
Proof.
  intros wd1.
  destruct (downloadModel_read_through
              "https://example.org/encoder/model.onnx"
              "https://example.org/decoder/model.onnx"
              caching_world ∅ 200 ["001"%byte]
              eq_refl eq_refl eq_refl eq_refl eq_refl)
    as (Hfirst & _ & _ & Hsecond & _).
  split; [exact Hfirst|].
  apply Hsecond. simpl. lia.
Defined.

(** ** Sessions of [SAM2] *)


(** X11.  [dispose] releases each existing session once (the encoder
    session first) and brings the object back to the state the constructor
    built; disposing again does nothing.  On a disposed or fresh object
    [decode] throws 'Image not encoded', [encodeImage] fails on the absent
    session, and [createSessions] reports failure; none of them touches the
    environment. *)
Theorem dispose_resets (this : SAM2) (wd : World) :
  let this' := (dispose this wd).1 in
  let wd' := (dispose this wd).2 in
  this' = new_SAM2 (modelConfig this)
  ∧ trace wd' = trace wd ++ (EvSessionRelease <$> sessions_of this)
  ∧ opfs wd' = opfs wd
  ∧ dispose this' wd' = (this', wd')
  ∧ (∀ points masks,
       decode this' points masks wd'
       = (Throw "[SAM] Image not encoded. Call encodeImage first.", this', wd'))
  ∧ (∀ inputTensor,
       encodeImage this' inputTensor wd' = (Throw null_not_iterable, this', wd'))
  ∧ createSessions this' wd' = (Ok {| success := false; device := None |}, this', wd').
Proof.
  intros this' wd'. subst this' wd'. unfold dispose, sessions_of.
  destruct (sessionEncoder this) as [[se epe]|], (sessionDecoder this) as [[sd epd]|];
    cbn; rewrite <-?app_assoc, ?app_nil_r; split_and!; done.
Qed.

(** ** The decoder inputs *)

Lemma length_flat_points (points : list PointPrompt) :
  length (mjoin ((fun p => [px p; py p]) <$> points)) = length points * 2.
Proof.
  induction points as [|p points IH]; [done|].
  rewrite fmap_cons. change (mjoin (?l :: ?ls)) with (l ++ mjoin ls).
  rewrite length_app, IH. cbn. lia.
Qed.

Lemma flat_points_lookup (points : list PointPrompt) (i : nat) (p : PointPrompt) :
  points !! i = Some p →
  mjoin ((fun p => [px p; py p]) <$> points) !! (i * 2) = Some (px p)
  ∧ mjoin ((fun p => [px p; py p]) <$> points) !! (i * 2 + 1) = Some (py p).
Proof.
  revert i. induction points as [|q points IH]; intros i Hp; [done|].
  destruct i as [|i]; [by injection Hp as ->|].
  destruct (IH i Hp) as [Hx Hy]. split.
  - exact Hx.
  - exact Hy.
Qed.

(** X12.  The tensors that [decode] builds itself are accepted by the
    tensor constructor for every number of points: point_coords has
    dimensions [1, n, 2] and holds x and y of point [i] at [2i] and
    [2i + 1], point_labels has dimensions [1, n], has_mask_input is [1]
    exactly when a mask is passed, the mask input is the passed mask or
    256 * 256 zeros with dimensions [1, 1, 256, 256], and MobileSAM gets
    orig_im_size as [h, w] of the descriptor's image size. *)
Theorem decoderInputs_well_formed (this : SAM2) (encoded : TensorMap)
    (points : list PointPrompt) (masks : option Tensor) (name : string) (t : Tensor) :
  (name, Some t) ∈ decoderInputs this encoded points masks →
  name ∈ prompt_inputs →
  (∀ m, masks = Some m → well_formed m) →
  well_formed t
  ∧ (name = "point_coords" →
     t_dims t = [1; length points; 2]
     ∧ ∀ i p, points !! i = Some p →
         t_data t !! (i * 2) = Some (px p) ∧ t_data t !! (i * 2 + 1) = Some (py p))
  ∧ (name = "point_labels" →
     t_dims t = [1; length points]
     ∧ t_data t = (fun p => num_of_nat (label p)) <$> points)
  ∧ (name = "has_mask_input" →
     t = {| t_data := [num_of_Z (match masks with Some _ => 1 | None => 0 end)];
            t_dims := [1] |})
  ∧ (name = "mask_input" →
     t = default {| t_data := new_Float32Array (256 * 256); t_dims := [1; 1; 256; 256] |}
           masks)
  ∧ (name = "orig_im_size" →
     modelType (modelConfig this) = mobilesam
     ∧ t = {| t_data := [num_of_nat (h (imageSize (modelConfig this)));
                         num_of_nat (w (imageSize (modelConfig this)))];
              t_dims := [2] |}).
Proof.
  intros Hin Hname Hmask.
  set (coords := {| t_data := mjoin ((fun p => [px p; py p]) <$> points);
                    t_dims := [1; length ((fun p => [px p; py p]) <$> points); 2] |}).
  set (labels := {| t_data := (fun p => num_of_nat (label p)) <$> points;
                    t_dims := [1; length ((fun p => num_of_nat (label p)) <$> points)] |}).
  set (dummy := {| t_data := new_Float32Array (256 * 256); t_dims := [1; 1; 256; 256] |}).
  set (flag := {| t_data := [num_of_Z (match masks with Some _ => 1 | None => 0 end)];
                  t_dims := [1] |}).
  set (size := {| t_data := [num_of_nat (h (imageSize (modelConfig this)));
                             num_of_nat (w (imageSize (modelConfig this)))];
                  t_dims := [2] |}).
  assert (well_formed coords) as Hcoords.
  { unfold well_formed, new_Tensor, coords. cbn [t_data t_dims foldr].
    rewrite decide_True; [done|]. rewrite length_flat_points, length_fmap. lia. }
  assert (well_formed labels) as Hlabels.
  { unfold well_formed, new_Tensor, labels. cbn [t_data t_dims foldr].
    rewrite decide_True; [done|]. lia. }
  assert (well_formed (default dummy masks)) as Hmaskinput.
  { destruct masks as [m|]; [by apply Hmask|].
    unfold well_formed, new_Tensor, dummy. cbn [default t_data t_dims].
    rewrite decide_True; [done|]. rewrite length_new_Float32Array. reflexivity. }
  assert (well_formed flag) as Hflag by (by destruct masks).
  assert (well_formed size) as Hsize by done.
  assert (t_dims coords = [1; length points; 2]) as Hcd
    by (unfold coords; cbn [t_dims]; by rewrite length_fmap).
  assert (t_dims labels = [1; length points]) as Hld
    by (unfold labels; cbn [t_dims]; by rewrite length_fmap).
  assert (∀ i p, points !! i = Some p →
            t_data coords !! (i * 2) = Some (px p)
            ∧ t_data coords !! (i * 2 + 1) = Some (py p)) as Hxy
    by (intros i p Hp; by apply flat_points_lookup).
  assert ((match masks with Some m => m | None => dummy end) = default dummy masks)
    as Hdefault by (by destruct masks).
  assert ((match masks with
           | Some _ => {| t_data := [num_of_Z 1]; t_dims := [1] |}
           | None => {| t_data := [num_of_Z 0]; t_dims := [1] |}
           end) = flag) as Hflagged by (by destruct masks).
  unfold decoderInputs in Hin. fold coords labels dummy size in Hin.
  rewrite Hdefault, Hflagged in Hin. clear Hdefault Hflagged.
  assert (flag = {| t_data := [num_of_Z (match masks with Some _ => 1 | None => 0 end)];
                    t_dims := [1] |}) as Eflag by done.
  assert (default dummy masks
          = default {| t_data := new_Float32Array (256 * 256);
                       t_dims := [1; 1; 256; 256] |} masks) as Edummy by done.
  assert (size = {| t_data := [num_of_nat (h (imageSize (modelConfig this)));
                               num_of_nat (w (imageSize (modelConfig this)))];
                    t_dims := [2] |}) as Esize by done.
  assert (t_data labels = (fun p => num_of_nat (label p)) <$> points) as Elabels by done.
  clearbody coords labels dummy flag size.
  assert (∀ key : string, key ∈ ["image_embeddings"; "image_embed"; "high_res_feats_0";
                                 "high_res_feats_1"] → key ∉ prompt_inputs) as Hother.
  { intros key Hkey Hprompt. unfold prompt_inputs in Hprompt.
    repeat (apply elem_of_cons in Hkey as [->|Hkey];
            [repeat (apply elem_of_cons in Hprompt as [Hprompt|Hprompt];
                     [discriminate Hprompt|]); by apply elem_of_nil in Hprompt|]).
    by apply elem_of_nil in Hkey. }
  assert ((name, Some t) = ("point_coords", Some coords)
          ∨ (name, Some t) = ("point_labels", Some labels)
          ∨ (name, Some t) = ("mask_input", Some (default dummy masks))
          ∨ (name, Some t) = ("has_mask_input", Some flag)
          ∨ modelType (modelConfig this) = mobilesam
            ∧ (name, Some t) = ("orig_im_size", Some size)) as Hcases.
  { destruct (modelType (modelConfig this)).
    all: repeat (apply elem_of_cons in Hin as [Hin|Hin];
                 [first [ solve [exfalso; injection Hin as Hkey _;
                                 apply (Hother name); [rewrite Hkey|done];
                                 repeat (first [by apply list_elem_of_here
                                               |apply list_elem_of_further])]
                        | by auto 10 ]|]).
    all: by apply elem_of_nil in Hin. }
  destruct Hcases as [Hcase|[Hcase|[Hcase|[Hcase|[Htype Hcase]]]]];
    injection Hcase as -> ->;
    (split_and!; first [done | by intros [=] | intros _; by split]).
Qed.

Lemma decoderInputs_well_formed_witness :
  let coords := {| t_data := [one_half; one_half]; t_dims := [1; 1; 2] |} in
  ("point_coords", Some coords)
    ∈ decoderInputs (new_SAM2 tiny_config) []
        [{| px := one_half; py := one_half; label := 1 |}] None
  ∧ well_formed coords.
Proof.
  intros coords.
  assert (("point_coords", Some coords)
            ∈ decoderInputs (new_SAM2 tiny_config) []
                [{| px := one_half; py := one_half; label := 1 |}] None) as Hin.
  { do 3 apply list_elem_of_further. apply list_elem_of_here. }
  split; [exact Hin|].
  apply (decoderInputs_well_formed _ _ _ _ _ _ Hin).
  - unfold prompt_inputs. apply list_elem_of_here.
  - intros m Hm. discriminate Hm.
Defined.

(** ** The tensor that the worker hands to the encoder *)

(** X13.  For the tensor that [setImage] posts (shape [1, 3, H, W],
    [3 * H * W] values) the [encodeImage] branch of the worker keeps the
    number of values and gives the tensor the shape [1, 3, H, W] (CHW with
    batch dimension), [3, H, W] (CHW without), or [H, W, 3] (HWC without).
    For HWC with batch dimension it reads channels, height and width from
    [1, 3, H], so the shape is [3, H, 1] and the tensor constructor throws
    unless [W = 1]; in every other case the constructor accepts. *)
Theorem encodeImageTensor_accepted (cfg : ModelConfig) (data : Float32Array)
    (H W : nat) :
  length data = 3 * (H * W) → 0 < H → 0 < W →
  let tensor := encodeImageTensor cfg data [1; 3; H; W] in
  length tensor.1 = 3 * (H * W)
  ∧ tensor.2 = match tensorFormat cfg, useBatchDimension cfg with
               | CHW, true => [1; 3; H; W]
               | CHW, false => [3; H; W]
               | HWC, false => [H; W; 3]
               | HWC, true => [3; H; 1]
               end
  ∧ ((∃ t, new_Tensor tensor.1 tensor.2 = Ok t)
     ↔ ¬ (tensorFormat cfg = HWC ∧ useBatchDimension cfg = true ∧ W ≠ 1)).
Proof.
  intros Hlen HH HW tensor. subst tensor.
  unfold encodeImageTensor, convertTensorFormat.
  set (x := scaleInputRange cfg (normalizeInput cfg data [1; 3; H; W])).
  assert (length x = 3 * (H * W)) as Hx
    by (unfold x; by rewrite scaleInputRange_length, normalizeInput_length).
  destruct (tensorFormat cfg), (useBatchDimension cfg);
    cbn [fst snd drop dim lookup list_lookup default];
    rewrite ?chwToHwc_length; (split_and!; [done|done|]);
    unfold new_Tensor; rewrite ?chwToHwc_length; cbn [foldr]; rewrite Hx;
    cbv [Datatypes.id].
  - rewrite decide_True by nia. split; [by intros _ (? & _)|eauto].
  - rewrite decide_True by nia. split; [by intros _ (? & _)|eauto].
  - case_decide as Hprod.
    + split; [|eauto]. intros _ (_ & _ & HW1). apply HW1. nia.
    + split; [by intros [? ?]|]. intros Hnot. exfalso. apply Hnot.
      split_and!; [done..|]. intros ->. apply Hprod. nia.
  - rewrite decide_True by nia. split; [by intros _ (_ & ? & _)|eauto].
Qed.

Lemma encodeImageTensor_accepted_witness :
  (encodeImageTensor MOBILESAM_CONFIG (replicate 12 one_half) [1; 3; 2; 2]).2 = [2; 2; 3]
  ∧ length (encodeImageTensor MOBILESAM_CONFIG (replicate 12 one_half) [1; 3; 2; 2]).1 = 12.
Proof.
  destruct (encodeImageTensor_accepted MOBILESAM_CONFIG (replicate 12 one_half) 2 2
              eq_refl ltac:(lia) ltac:(lia)) as (Hlen & Hshape & _).
  split; [exact Hshape|exact Hlen].
Defined.

Lemma scaled_back (b : byte) :
  nmul (ndiv (num_of_byte b) (num_of_Z 255)) (num_of_Z 255) = num_of_byte b.
Proof.
  unfold num_of_byte. rewrite ndiv_num_of_Z by lia. unfold num_of_Z. cbn [nmul].
  f_equal. field. by apply Qc_of_Z_nonzero.
Qed.

(** X14.  For MobileSAM (HWC, no batch dimension, input range 255) the
    tensor that reaches the encoder for a canvas is the canvas bitmap
    without its alpha bytes: shape [H, W, 3], accepted by the tensor
    constructor, and the value of channel [c] of pixel [i] is byte
    [4 * i + c] of the bitmap, as a number of 0..255 (exactly, in the
    arithmetic of this development). *)
Theorem mobilesam_tensor_rgb (canvas : Canvas) :
  0 < width canvas → 0 < height canvas →
  length (bitmap canvas) = 4 * (height canvas * width canvas) →
  ∃ float32Array shape tensor,
    canvasToFloat32Array canvas = Ok (float32Array, shape)
    ∧ encodeImageTensor MOBILESAM_CONFIG float32Array shape
      = (t_data tensor, t_dims tensor)
    ∧ new_Tensor (t_data tensor) (t_dims tensor) = Ok tensor
    ∧ t_dims tensor = [height canvas; width canvas; 3]
    ∧ ∀ i c, i < height canvas * width canvas → c < 3 →
        ∃ b, bitmap canvas !! (i * 4 + c) = Some b
             ∧ t_data tensor !! (i * 3 + c) = Some (num_of_byte b).
Proof.
  intros Hw Hh Hlen.
  remember (height canvas) as H eqn:EH. remember (width canvas) as W eqn:EW.
  remember (rgbaToChw (bitmap canvas) (H * W)) as data eqn:Edata.
  assert (length data = 3 * (H * W)) as Hdata by (subst data; apply rgbaToChw_length).
  remember (scaleInputRange MOBILESAM_CONFIG data) as x eqn:Ex.
  assert (length x = 3 * (H * W)) as Hx by (subst x; by rewrite scaleInputRange_length).
  exists data, [1; 3; H; W],
    {| t_data := chwToHwc x 3 H W; t_dims := [H; W; 3] |}.
  cbn [t_data t_dims]. split_and!.
  - unfold canvasToFloat32Array, getImageData. rewrite decide_False by lia.
    by rewrite <-EH, <-EW, <-Edata.
  - by rewrite Ex.
  - unfold new_Tensor. rewrite decide_True; [done|].
    rewrite chwToHwc_length, Hx. cbn [foldr]. nia.
  - done.
  - intros i c Hi Hc.
    destruct (lookup_lt_is_Some_2 (bitmap canvas) (i * 4 + c)) as [b Hb]; [lia|].
    exists b. split; [done|].
    assert (∃ row col, row < H ∧ col < W ∧ i = row * W + col)
      as (row & col & Hrow & Hcol & ->).
    { exists (i / W), (i mod W). split_and!.
      - apply Nat.Div0.div_lt_upper_bound. by rewrite Nat.mul_comm.
      - apply Nat.mod_upper_bound. clear -Hw. lia.
      - rewrite (Nat.mul_comm (i / W)). apply Nat.div_mod_eq. }
    replace ((row * W + col) * 3 + c) with (hwc_index 3 H W c row col)
      by (unfold hwc_index; lia).
    rewrite chwToHwc_lookup by (done || lia).
    replace (chw_index 3 H W c row col) with (c * (H * W) + (row * W + col))
      by (unfold chw_index; lia).
    pose proof (chw_index_lt 3 H W c row col Hc Hrow Hcol) as Hbound.
    unfold chw_index in Hbound.
    rewrite Ex, scaleInputRange_lookup by lia.
    cbn [inputRange MOBILESAM_CONFIG].
    assert (truthy (num_of_Z 255) = true) as -> by done.
    f_equal. unfold aget. rewrite Edata, rgbaToChw_lookup by (done || nia).
    cbn [default]. rewrite (bget_lookup _ _ b Hb). apply scaled_back.
Qed.

Lemma mobilesam_tensor_rgb_witness :
  ∃ float32Array shape tensor,
    canvasToFloat32Array
      {| width := 1; height := 1; bitmap := ["255"; "000"; "051"; "128"]%byte |}
    = Ok (float32Array, shape)
    ∧ encodeImageTensor MOBILESAM_CONFIG float32Array shape
      = (t_data tensor, t_dims tensor)
    ∧ t_dims tensor = [1; 1; 3].
Proof.
  destruct (mobilesam_tensor_rgb
              {| width := 1; height := 1; bitmap := ["255"; "000"; "051"; "128"]%byte |}
              ltac:(simpl; lia) ltac:(simpl; lia) eq_refl)
    as (float32Array & shape & tensor & Hcanvas & Htensor & _ & Hdims & _).
  exists float32Array, shape, tensor.
  split_and!; [exact Hcanvas|exact Htensor|exact Hdims].
Defined.

(** ** The worker answers every request *)











Lemma after_requests_snoc env rs request :
  after_requests env (rs ++ [request])
  = (onmessage request (after_requests env rs)).2.
Proof. unfold after_requests. by rewrite foldl_snoc. Qed.





(** ** The promises of [SAMWorker] *)





(** ** The state of the worker *)

Lemma getORTSession_from model wd session ep :
  (getORTSession model wd).1 = Ok (session, ep) →
  session_model session = model ∧ session_provider session = ep
  ∧ (ep = "webgpu" ∨ ep = "cpu").
Proof.
  unfold getORTSession, try_provider.
  repeat (match goal with
          | |- context [session_create_ok ?w ?m ?e] =>
              destruct (session_create_ok w m e); cbn
          end); intros [= <- <-]; cbn; eauto.
Qed.

Lemma getEncoderSession_consistent this wd :
  consistent this →
  consistent (getEncoderSession this wd).1.2
  ∧ modelConfig (getEncoderSession this wd).1.2 = modelConfig this
  ∧ ∀ x, (getEncoderSession this wd).1.1 = Ok (Some x) →
      is_Some (sessionEncoder (getEncoderSession this wd).1.2).
Proof.
  intros Hthis. pose proof Hthis as (Henc & Hdec & Himg). unfold getEncoderSession.
  destruct (sessionEncoder this) as [s|] eqn:Hs.
  { cbn. rewrite Hs. split_and!; [done|done|by eauto]. }
  destruct (bufferEncoder this) as [buffer|] eqn:Hb.
  2:{ cbn. split_and!; [done|done|by intros x [=]]. }
  pose proof (getORTSession_from buffer wd) as Hfrom.
  destruct (getORTSession buffer wd) as [[[session ep]|m|] wd1]; cbn in *.
  - split_and!; [|done|by eauto]. split_and!; cbn; [|done|by eauto].
    intros session' ep' [= <- <-]. rewrite Hb.
    destruct (Hfrom session ep eq_refl) as (-> & ? & ?). done.
  - split_and!; [done|done|by intros x [=]].
  - split_and!; [done|done|by intros x [=]].
Qed.

Lemma getDecoderSession_consistent this wd :
  consistent this →
  consistent (getDecoderSession this wd).1.2
  ∧ modelConfig (getDecoderSession this wd).1.2 = modelConfig this
  ∧ imageEncoded (getDecoderSession this wd).1.2 = imageEncoded this.
Proof.
  intros Hthis. pose proof Hthis as (Henc & Hdec & Himg). unfold getDecoderSession.
  destruct (sessionDecoder this) as [s|] eqn:Hs; [done|].
  destruct (bufferDecoder this) as [buffer|] eqn:Hb; [|done].
  pose proof (getORTSession_from buffer wd) as Hfrom.
  destruct (getORTSession buffer wd) as [[[session ep]|m|] wd1]; cbn in *; [|done..].
  split_and!; [|done|done]. split_and!; cbn; [done| |done].
  intros session' ep' [= <- <-]. rewrite Hb.
  destruct (Hfrom session ep eq_refl) as (-> & ? & ?). done.
Qed.

Lemma createSessions_consistent this wd :
  consistent this →
  consistent (createSessions this wd).1.2
  ∧ modelConfig (createSessions this wd).1.2 = modelConfig this.
Proof.
  intros Hthis. unfold createSessions.
  destruct (getEncoderSession_consistent this wd Hthis) as (H1 & Hc1 & _).
  destruct (getEncoderSession this wd) as [[[[s|]|m|] this1] wd1]; cbn in *; try done.
  destruct (getDecoderSession_consistent this1 wd1 H1) as (H2 & Hc2 & _).
  destruct (getDecoderSession this1 wd1) as [[[[s'|]|m|] this2] wd2]; cbn in *;
    by rewrite <-Hc1.
Qed.

Lemma encodeImage_consistent this inputTensor wd :
  consistent this →
  consistent (encodeImage this inputTensor wd).1.2
  ∧ modelConfig (encodeImage this inputTensor wd).1.2 = modelConfig this.
Proof.
  intros Hthis. unfold encodeImage.
  destruct (getEncoderSession_consistent this wd Hthis) as (H1 & Hc1 & Hsome).
  destruct (getEncoderSession this wd) as [[[[[session ep]|]|m|] this1] wd1];
    cbn in *; try done.
  specialize (Hsome _ eq_refl). destruct H1 as (Henc & Hdec & Himg).
  destruct (session_run _ session _) as [results|m|]; [|done..].
  by destruct (modelType (modelConfig this1)).
Qed.

Lemma decode_consistent this points masks wd :
  consistent this →
  consistent (decode this points masks wd).1.2
  ∧ modelConfig (decode this points masks wd).1.2 = modelConfig this.
Proof.
  intros Hthis. unfold decode. destruct (imageEncoded this); [|done].
  destruct (getDecoderSession_consistent this wd Hthis) as (H1 & Hc1 & _).
  by destruct (getDecoderSession this wd) as [[[[[session ep]|]|m|] this1] wd1].
Qed.

Lemma downloadModels_new_consistent cfg wd :
  consistent (downloadModels (new_SAM2 cfg) wd).1
  ∧ modelConfig (downloadModels (new_SAM2 cfg) wd).1 = cfg.
Proof.
  unfold downloadModels.
  destruct (downloadModel _ wd) as [enc wd1]. destruct (downloadModel _ wd1) as [dec wd2].
  cbn. split; [|done]. split_and!; cbn; [by intros ? ? [=]..|by intros [? [=]]].
Qed.

Lemma onmessage_in_order request ws :
  worker_in_order ws → worker_in_order (onmessage request ws).2.
Proof.
  intros Hws. pose proof Hws as [Hnull Hsam].
  destruct request as [modelId|float32Array shape|points maskArray maskShape| |type];
    cbn [onmessage]; [| | |done..].
  - unfold onPing.
    set (key := match modelId with
                | Some m => if decide (m = "") then DEFAULT_MODEL_ID else m
                | None => DEFAULT_MODEL_ID
                end).
    destruct (getModelConfig key) as [[modelConfig|member]|message|] eqn:Hconfig;
      [| |done..].
    + destruct (downloadModels_new_consistent modelConfig (world ws)) as [Hdl Hcfg].
      destruct (downloadModels (new_SAM2 modelConfig) (world ws)) as [sam1 wd1].
      destruct (createSessions_consistent sam1 wd1 Hdl) as [Hcs Hcfg'].
      destruct (createSessions sam1 wd1) as [[[report|message|] sam2] wd2];
        cbn in *; (split; cbn; [done|]); intros this [= <-];
        (split; [exists key; split; [done|]; by rewrite Hcfg', Hcfg|done]).
    + cbn. split; [done|]. by intros this [=].
  - unfold onEncodeImage. destruct (sam ws) as [|sam0|member] eqn:Hslot.
    + done.
    + destruct (Hsam sam0 eq_refl) as [(modelId & Hid & Hconfig) Hcons].
      destruct (encodeImageTensor _ _ _) as [tensorData tensorShape].
      destruct (new_Tensor tensorData tensorShape) as [imgTensor|message|];
        [|done..].
      destruct (encodeImage_consistent sam0 imgTensor (world ws) Hcons) as [Hen Hcfg].
      destruct (encodeImage sam0 imgTensor (world ws)) as [[[[]|message|] sam1] wd1];
        cbn in *; (split; cbn; [by rewrite Hid|]); intros this [= <-];
        (split; [exists modelId; by rewrite Hcfg|done]).
    + by destruct (new_Tensor _ _).
  - unfold onDecodeMask.
    destruct (sam ws) as [|sam0|member] eqn:Hslot.
    + done.
    + destruct (Hsam sam0 eq_refl) as [(modelId & Hid & Hconfig) Hcons].
      destruct (match maskArray, maskShape with
                | Some a, Some s =>
                    match new_Tensor a s with
                    | Ok t => Ok (Some t)
                    | Throw message => Throw message
                    | Pending => Pending
                    end
                | _, _ => Ok None
                end) as [masks|message|]; [|done..].
      destruct (decode_consistent sam0 points masks (world ws) Hcons) as [Hde Hcfg].
      destruct (decode sam0 points masks (world ws)) as [[[results|message|] sam1] wd1];
        cbn in *.
      * destruct (or_else (mjoin (own_property results "masks"))
                          (mjoin (own_property results "low_res_masks"))),
                 (or_else (mjoin (own_property results "iou_predictions"))
                          (mjoin (own_property results "iou_pred")));
          cbn; (split; cbn; [by rewrite Hid|]); intros this [= <-];
          (split; [exists modelId; by rewrite Hcfg|done]).
      * split; cbn; [by rewrite Hid|]. intros this [= <-].
        split; [exists modelId; by rewrite Hcfg|done].
      * split; cbn; [by rewrite Hid|]. intros this [= <-].
        split; [exists modelId; by rewrite Hcfg|done].
    + destruct (match maskArray, maskShape with
                | Some a, Some s =>
                    match new_Tensor a s with
                    | Ok t => Ok (Some t)
                    | Throw message => Throw message
                    | Pending => Pending
                    end
                | _, _ => Ok None
                end); done.
Qed.

Lemma own_property_elem {V : Type} (o : list (string * V)) (key : string) (v : V) :
  own_property o key = Some v → (key, v) ∈ o.
Proof.
  induction o as [|[k v'] o IH]; [done|]. cbn. case_decide as Hk.
  - intros [= <-]. subst k. apply list_elem_of_here.
  - intros Hrest. apply list_elem_of_further. by apply IH.
Qed.

(** X17.  After every sequence of requests the state of a worker is in
    order: [sam] is set exactly when [stats.modelId] is; a [SAM2] held by
    the worker runs the descriptor that the registry gives for
    [stats.modelId] (never a descriptor of the caller's own); each of its
    sessions was created from the model bytes it holds, by the webgpu or
    the cpu provider; and it holds embeddings only together with an
    encoder session. *)
Theorem worker_state_in_order (env : World) (rs : list Request) :
  let ws := after_requests env rs in
  (sam ws = SamNull ↔ stats_modelId (stats ws) = None)
  ∧ ∀ this, sam ws = SamOn this →
      (∃ modelId, stats_modelId (stats ws) = Some modelId
                  ∧ getModelConfig modelId = Ok (OwnValue (modelConfig this))
                  ∧ (modelId, modelConfig this) ∈ MODEL_CONFIGS)
      ∧ session_from (bufferEncoder this) (sessionEncoder this)
      ∧ session_from (bufferDecoder this) (sessionDecoder this)
      ∧ (is_Some (imageEncoded this) → is_Some (sessionEncoder this)).
Proof.
  intros ws.
  assert (worker_in_order ws) as [Hnull Hsam].
  { subst ws. induction rs as [|request rs IH] using rev_ind.
    - split; [done|]. by intros this [=].
    - rewrite after_requests_snoc. by apply onmessage_in_order. }
  split; [done|]. intros this Hthis.
  destruct (Hsam this Hthis) as [(modelId & Hid & Hconfig) (Henc & Hdec & Himg)].
  split_and!; [|done..].
  exists modelId. split_and!; [done..|].
  apply own_property_elem.
  unfold getModelConfig, get_property in Hconfig.
  destruct (own_property MODEL_CONFIGS modelId) as [cfg|]; [by injection Hconfig as <-|].
  by case_decide.
Qed.

Lemma worker_state_in_order_witness :
  ∃ this modelId,
    sam (after_requests failing_backend_world [Ping (Some "mobilesam")]) = SamOn this
    ∧ stats_modelId (stats (after_requests failing_backend_world [Ping (Some "mobilesam")]))
      = Some modelId
    ∧ (modelId, modelConfig this) ∈ MODEL_CONFIGS.
Proof.
  assert (∃ this,
            sam (after_requests failing_backend_world [Ping (Some "mobilesam")])
            = SamOn this) as [this Hthis] by (vm_compute; eauto).
  destruct (worker_state_in_order failing_backend_world [Ping (Some "mobilesam")])
    as [_ Hsam].
  destruct (Hsam this Hthis) as [(modelId & Hid & _ & Hin) _].
  exists this, modelId. split_and!; [exact Hthis|exact Hid|exact Hin].
Defined.

(** ** [SAMClient]: initialization *)



(** ** [SAMClient]: images, prompts and disposal *)

(** X19.  [setImage] never changes the readiness or the descriptor of the
    client.  On a client that is not ready it throws 'Client not
    initialized' and changes nothing; on a ready client an image without
    pixels (width or height 0) makes [drawImage] throw before anything is
    stored, so the client is unchanged as well.  When the call resolves,
    the image had pixels, the client holds a canvas of the descriptor's
    image size whose bitmap is the black canvas with the image drawn into
    the letterbox, and the encoded image size is the descriptor's. *)
Theorem setImage_outcomes (br : Browser) (client : SAMClient.t) (image : ImageInput) :
  let source := imageToCanvas image in
  let size := imageSize (SAMClient.modelConfig client) in
  let r := (SAMClient.setImage br client image).1 in
  let client' := (SAMClient.setImage br client image).2 in
  SAMClient.isReady client' = SAMClient.isReady client
  ∧ SAMClient.modelConfig client' = SAMClient.modelConfig client
  ∧ (SAMClient.isReady client = false →
     r = Throw "Client not initialized. Call initialize() first." ∧ client' = client)
  ∧ (SAMClient.isReady client = true → width source = 0 ∨ height source = 0 →
     (∃ message, r = Throw message) ∧ client' = client)
  ∧ (r = Ok () →
     0 < width source ∧ 0 < height source ∧ 0 < w size ∧ 0 < h size
     ∧ SAMClient.encodedImageSize client' = Some size
     ∧ ∃ canvas,
         SAMClient.imageCanvas client' = Some canvas
         ∧ width canvas = w size ∧ height canvas = h size
         ∧ bitmap canvas
           = drawImage_bitmap br source (whole_canvas source)
               (resizeAndPadBox {| w := width source; h := height source |} size)
               (fillRect_black (new_Canvas (w size) (h size)))).
Proof.
  intros source size r client'. subst r client'.
  unfold SAMClient.setImage. fold source size.
  destruct (SAMClient.isReady client) eqn:Hready; cbn [negb].
  2:{ cbn. rewrite Hready. split_and!; first [done | by intros [=]]. }
  unfold createSquareCanvas, drawImage.
  case_decide as Hempty.
  { cbn. rewrite Hready. split_and!; first [done | by eauto | by intros [=]]. }
  cbn [SAMClient.worker SAMClient.modelConfig SAMClient.isReady].
  unfold canvasToFloat32Array, getImageData. cbn [width height bitmap new_Canvas fillRect_black].
  case_decide as Hzero.
  { cbn. split_and!;
      first [done | by intros [=] | intros _ ?; by exfalso; apply Hempty]. }
  destruct (SAMWorker.encodeImage _ _ _) as [[[]|message|] wk]; cbn;
    (split_and!; try done; try (by intros [=]);
     try (intros _ ?; by exfalso; apply Hempty)).
  intros _. split_and!; [lia..|done|]. by eexists.
Qed.

Lemma setImage_outcomes_witness :
  ∃ canvas,
    SAMClient.imageCanvas client_with_image.2 = Some canvas
    ∧ width canvas = 2 ∧ height canvas = 2.
Proof.
  pose proof (setImage_outcomes stub_browser
                (SAMClient.initialize (SAMClient.new tiny_config)
                   (Some "https://example.org/worker.js") working_world).2
                (InputImageData 2 2 (replicate 16 "255"%byte)))
    as (_ & _ & _ & _ & Hok).
  destruct Hok as (_ & _ & _ & _ & _ & canvas & Hcanvas & Hw & Hh & _).
  { vm_compute. reflexivity. }
  exists canvas. split_and!; [exact Hcanvas|exact Hw|exact Hh].
Defined.




(** X21.  [dispose] terminates the worker and forgets the image: a client
    that had a worker is afterwards in the state of a new client on the
    same descriptor.  On a disposed client [segment] throws 'Image not
    set', [setImage] throws 'Client not initialized', both without any
    change; disposing again changes nothing; and [initialize] behaves as
    on the new client. *)
Theorem dispose_outcomes (br : Browser) (client : SAMClient.t) :
  let disposed := SAMClient.dispose client in
  (is_Some (SAMWorker.worker (SAMClient.worker client)) →
   disposed = SAMClient.new (SAMClient.modelConfig client))
  ∧ SAMWorker.worker (SAMClient.worker disposed) = None
  ∧ SAMClient.dispose disposed = disposed
  ∧ (∀ options,
       SAMClient.segment br disposed options
       = (Throw "Image not set. Call setImage() first.", disposed))
  ∧ (∀ image,
       SAMClient.setImage br disposed image
       = (Throw "Client not initialized. Call initialize() first.", disposed))
  ∧ (∀ workerUrl env,
       (SAMClient.initialize disposed workerUrl env).1
       = (SAMClient.initialize (SAMClient.new (SAMClient.modelConfig client))
            workerUrl env).1).
Proof.
  intros disposed. subst disposed. unfold SAMClient.dispose, SAMWorker.terminate.
  destruct client as [[[ws|] initialized] cfg canvas size ready]; cbn.
  - by split_and!.
  - split_and!; try done; try (by intros [? [=]]).
    intros [url|] env; [|done].
    unfold SAMClient.initialize, SAMClient.set_worker, SAMWorker.createWorker,
      SAMWorker.initialize.
    cbn [SAMClient.worker SAMClient.new SAMWorker.worker SAMWorker.new
         SAMClient.modelConfig SAMWorker.initialized].
    destruct (onmessage (Ping (Some (id cfg))) (new_WorkerScope env)) as [messages ws'].
    destruct (first_settled _ messages) as [report|message|]; [|done..].
    by destruct (success report).
Qed.

(** ** Planes of a mask tensor *)

Lemma sliceTensor_plane (data : Float32Array) (dims : list nat)
    (width height maskIndex : nat) :
  dims !! 2 = Some width → dims !! 3 = Some height →
  sliceTensor data dims maskIndex
  = take (width * height) (drop (maskIndex * (width * height)) data).
Proof.
  intros Hw Hh. unfold sliceTensor. rewrite Hw, Hh. cbv zeta.
  rewrite typed_array_slice_nonneg. by rewrite (Nat.mul_comm maskIndex).
Qed.

Lemma typed_array_slice_empty {A : Type} (data : list A) :
  typed_array_slice data 0 0 = [].
Proof.
  unfold typed_array_slice. cbn. rewrite Z.min_l by lia. by rewrite take_0.
Qed.

Lemma sliceTensor_undefined (data : Float32Array) (dims : list nat) (maskIndex : nat) :
  dims !! 2 = None ∨ dims !! 3 = None → sliceTensor data dims maskIndex = [].
Proof.
  intros Hmissing. unfold sliceTensor.
  destruct (dims !! 2) eqn:H2, (dims !! 3) eqn:H3;
    try apply typed_array_slice_empty.
  destruct Hmissing; congruence.
Qed.

Lemma planes_join (data : Float32Array) (stride n : nat) :
  mjoin ((fun i => take stride (drop (i * stride) data)) <$> seq 0 n)
  = take (n * stride) data.
Proof.
  induction n as [|n IH]; [by rewrite take_0|].
  rewrite seq_S, fmap_app, join_app, IH. cbn [fmap list_fmap mjoin list_join].
  rewrite app_nil_r, take_take_drop. f_equal. lia.
Qed.

(** X22.  The planes that [sliceTensor] cuts from a tensor of [n] masks
    tile it: for dimensions [_, _, width, height] and a buffer of
    [n * width * height] values, the planes 0 .. n-1 put one after the
    other give the buffer back, each plane has [width * height] values, and
    every index from [n] on gives an empty plane.  When the dimensions have
    no entry 2 or 3 every plane is empty. *)
Theorem sliceTensor_tiles (data : Float32Array) (dims : list nat)
    (width height n : nat) :
  (dims !! 2 = Some width → dims !! 3 = Some height →
   length data = n * (width * height) →
   mjoin (sliceTensor data dims <$> seq 0 n) = data
   ∧ (∀ i, i < n → length (sliceTensor data dims i) = width * height)
   ∧ (∀ i, n ≤ i → sliceTensor data dims i = []))
  ∧ (dims !! 2 = None ∨ dims !! 3 = None → ∀ i, sliceTensor data dims i = []).
Proof.
  split.
  - intros Hw Hh Hlen. split_and!.
    + assert (sliceTensor data dims <$> seq 0 n
              = (fun i => take (width * height) (drop (i * (width * height)) data))
                  <$> seq 0 n) as ->.
      { apply list_fmap_ext. intros ? i ?. by apply sliceTensor_plane. }
      rewrite planes_join. apply take_ge. lia.
    + intros i Hi. rewrite (sliceTensor_plane _ _ width height) by done.
      rewrite length_take, length_drop, Hlen. 
      assert ((i + 1) * (width * height) ≤ n * (width * height)) by (apply Nat.mul_le_mono_r; lia).
      lia.
    + intros i Hi. rewrite (sliceTensor_plane _ _ width height) by done.
      rewrite drop_ge; [by rewrite take_nil|].
      rewrite Hlen. apply Nat.mul_le_mono_r. lia.
  - intros Hmissing i. by apply sliceTensor_undefined.
Qed.

Lemma sliceTensor_tiles_witness :
  mjoin (sliceTensor (num_of_Z <$> [0; 0; 1; 1; 2; 2]%Z) [1; 3; 1; 2] <$> seq 0 3)
  = num_of_Z <$> [0; 0; 1; 1; 2; 2]%Z.
Proof.
  destruct (sliceTensor_tiles (num_of_Z <$> [0; 0; 1; 1; 2; 2]%Z) [1; 3; 1; 2] 1 2 3)
    as [Htiles _].
  destruct (Htiles eq_refl eq_refl eq_refl) as [Hjoin _].
  exact Hjoin.
Defined.

(** X23.  [segment] can build a result from a decoder answer exactly when
    the mask tensor holds a whole, non-empty plane for the best index: with
    [stride = dims[2] * dims[3]] and [i] the index of the best score,
    [stride > 0] and [(i + 1) * stride] values are present.  The result
    then carries that plane and the best score.  Otherwise the construction
    of the [ImageData] throws; it never stays pending. *)
Theorem selectResult_resolves_iff (masks iou_predictions : Tensor) :
  let stride := dim (t_dims masks) 2 * dim (t_dims masks) 3 in
  let best := bestMask (t_data iou_predictions) in
  ((∃ r, SAMClient.selectResult masks iou_predictions = Ok r)
   ↔ 0 < stride ∧ (best.1 + 1) * stride ≤ length (t_data masks))
  ∧ (∀ r, SAMClient.selectResult masks iou_predictions = Ok r →
       sr_data r = take stride (drop (best.1 * stride) (t_data masks))
       ∧ sr_score r = best.2)
  ∧ ((∃ message, SAMClient.selectResult masks iou_predictions = Throw message)
     ↔ stride = 0 ∨ length (t_data masks) < (best.1 + 1) * stride).
Proof.
  intros stride best. unfold SAMClient.selectResult. fold best.
  destruct best as [bestMaskIdx bestScore] eqn:Hbest. cbn [fst snd].
  set (plane := sliceTensor (t_data masks) (t_dims masks) bestMaskIdx).
  assert (plane = take stride (drop (bestMaskIdx * stride) (t_data masks))) as Hplane.
  { unfold plane, stride, dim.
    destruct (t_dims masks !! 2) as [d2|] eqn:H2, (t_dims masks !! 3) as [d3|] eqn:H3;
      cbn [default].
    - by apply sliceTensor_plane.
    - rewrite sliceTensor_undefined by (by right). by rewrite Nat.mul_0_r, take_0.
    - rewrite sliceTensor_undefined by (by left). by rewrite Nat.mul_0_l, take_0.
    - rewrite sliceTensor_undefined by (by left). by rewrite Nat.mul_0_l, take_0. }
  assert (length plane = stride `min` (length (t_data masks) - bestMaskIdx * stride))
    as Hlen by (by rewrite Hplane, length_take, length_drop).
  unfold float32ArrayToCanvas. fold plane.
  rewrite (Nat.mul_comm (dim (t_dims masks) 3)). fold stride.
  case_decide as Hok.
  - split_and!.
    + split; [intros _; lia|eauto].
    + by intros r [= <-].
    + split; [by intros [? ?]|lia].
  - split_and!.
    + split; [by intros [? ?]|]. intros [? ?]. exfalso. apply Hok. lia.
    + by intros r.
    + split; [intros _; lia|eauto].
Qed.

(** ** Arrays whose length disagrees with the declared shape *)

(** X24.  [chwToHwc] and [applyNormalization] never fail on an array whose
    length disagrees with the declared shape, and always return an array
    of the input's length.  Elements beyond [C * H * W] are not copied:
    the result holds 0 there.  Inside the shape, [chwToHwc] puts at
    position (h, w, c) what it reads at (c, h, w), which is NaN when the
    input is too short to hold that element; a write beyond the end of the
    result is dropped. *)
Theorem transforms_outside_shape (x : Float32Array) (C H W : nat)
    (n : Normalization) :
  length (chwToHwc x C H W) = length x
  ∧ length (applyNormalization x C H W n) = length x
  ∧ (∀ j, C * H * W ≤ j → j < length x →
       chwToHwc x C H W !! j = Some (num_of_Z 0)
       ∧ applyNormalization x C H W n !! j = Some (num_of_Z 0))
  ∧ (∀ c h w, c < C → h < H → w < W → hwc_index C H W c h w < length x →
       chwToHwc x C H W !! hwc_index C H W c h w
       = Some (aget x (chw_index C H W c h w)))
  ∧ (∀ c h w, c < C → h < H → w < W → length x ≤ chw_index C H W c h w →
       hwc_index C H W c h w < length x →
       chwToHwc x C H W !! hwc_index C H W c h w = Some NaN).
Proof.
  assert (∀ c h w, c < C → h < H → w < W → hwc_index C H W c h w < length x →
            chwToHwc x C H W !! hwc_index C H W c h w
            = Some (aget x (chw_index C H W c h w))) as Hinside.
  { intros c h w Hc Hh Hw Hlt. rewrite chwToHwc_writes.
    apply (writes_touched (fun '(h, w, c) => hwc_index C H W c h w)
             (fun '(h, w, c) => aget x (chw_index C H W c h w)) _ _ (h, w, c)).
    - by apply elem_of_range3.
    - by rewrite length_new_Float32Array.
    - intros [[h' w'] c'] Hin Heq. apply elem_of_range3 in Hin as (? & ? & ?).
      apply hwc_index_inj in Heq as (-> & -> & ->); done. }
  split_and!.
  - apply chwToHwc_length.
  - apply applyNormalization_length.
  - intros j Hge Hlt. split.
    + rewrite chwToHwc_writes, writes_untouched.
      * unfold new_Float32Array. by rewrite lookup_replicate_2.
      * intros [[h w] c] Hin Heq. apply elem_of_range3 in Hin as (Hh & Hw & Hc).
        pose proof (hwc_index_lt C H W c h w Hc Hh Hw). lia.
    + rewrite applyNormalization_writes, writes_untouched.
      * unfold new_Float32Array. by rewrite lookup_replicate_2.
      * intros [c i] Hin Heq. apply elem_of_range2 in Hin as (Hc & Hi).
        pose proof (mixed_radix_lt (H * W) C c i Hc Hi). lia.
  - exact Hinside.
  - intros c h w Hc Hh Hw Hshort Hlt. rewrite Hinside by done.
    unfold aget. by rewrite lookup_ge_None_2.
Qed.

(** ** Refinement with a previous mask *)

(** X25.  The mask input that [segment] prepares from a previous result,
    in a browser whose [drawImage] keeps the size of the destination and
    for a positive mask size: when the previous result is consistent (its
    data is not empty and holds shape[1] * shape[0] values, as every
    result of [segment] does) the preparation succeeds with
    [maskSize.w * maskSize.h] values of the interval [0, 1] and the shape
    [1, 1, maskSize.h, maskSize.w], which the tensor constructor of the
    worker accepts; when it is not, the construction of the [ImageData]
    throws. *)
Theorem previousMaskInput_well_formed (br : Browser) (client : SAMClient.t)
    (previous : SegmentResult) :
  keeps_size br →
  let size := maskSize (SAMClient.modelConfig client) in
  0 < w size → 0 < h size →
  (0 < length (sr_data previous)
   ∧ length (sr_data previous) = (sr_shape previous).2 * (sr_shape previous).1 →
   ∃ maskArray,
     SAMClient.previousMaskInput br client previous
     = Ok (maskArray, [1; 1; h size; w size])
     ∧ length maskArray = w size * h size
     ∧ (∀ i, i < length maskArray → in_unit_interval (aget maskArray i) = true)
     ∧ new_Tensor maskArray [1; 1; h size; w size]
       = Ok {| t_data := maskArray; t_dims := [1; 1; h size; w size] |})
  ∧ (length (sr_data previous) = 0
     ∨ length (sr_data previous) ≠ (sr_shape previous).2 * (sr_shape previous).1 →
     ∃ message, SAMClient.previousMaskInput br client previous = Throw message).
Proof.
  intros Hbr size Hw Hh. unfold SAMClient.previousMaskInput. fold size.
  unfold float32ArrayToCanvas. split.
  - intros [Hpos Hlen]. rewrite decide_True by done.
    unfold resizeCanvas, drawImage. cbn [width height].
    rewrite decide_False by nia.
    unfold maskCanvasToFloat32Array, getImageData. cbn [width height bitmap new_Canvas].
    rewrite decide_False by lia.
    set (pixels := drawImage_bitmap br _ _ _ _).
    assert (length pixels = 4 * (w size * h size)) as Hpixels.
    { unfold pixels. rewrite Hbr. unfold new_Canvas. cbn [bitmap].
      by rewrite length_replicate. }
    eexists. split_and!.
    + done.
    + apply maskCanvas_loop_length.
    + intros i Hi. rewrite maskCanvas_loop_length in Hi.
      unfold aget. rewrite maskCanvas_loop_lookup by done. cbn [default].
      destruct (lookup_lt_is_Some_2 pixels (i * 4)) as [r Hr]; [lia|].
      destruct (lookup_lt_is_Some_2 pixels (i * 4 + 1)) as [g Hg]; [lia|].
      destruct (lookup_lt_is_Some_2 pixels (i * 4 + 2)) as [b Hb]; [lia|].
      rewrite (bget_lookup _ _ r Hr), (bget_lookup _ _ g Hg), (bget_lookup _ _ b Hb).
      apply rgb_average_in_unit_interval.
    + unfold new_Tensor. rewrite decide_True; [done|].
      rewrite maskCanvas_loop_length. cbn [foldr]. lia.
  - intros Hbad. rewrite decide_False by lia. eauto.
Qed.

Lemma previousMaskInput_well_formed_witness :
  ∃ maskArray,
    SAMClient.previousMaskInput stub_browser (SAMClient.new tiny_config) single_result
    = Ok (maskArray, [1; 1; 2; 2])
    ∧ length maskArray = 4.
Proof.
  assert (keeps_size stub_browser) as Hbr by (intros source src_rect dst_rect dst; reflexivity).
  destruct (previousMaskInput_well_formed stub_browser (SAMClient.new tiny_config)
              single_result Hbr ltac:(simpl; lia) ltac:(simpl; lia)) as [Hok _].
  destruct Hok as (maskArray & Heq & Hlen & _).
  { split; [simpl; lia|reflexivity]. }
  exists maskArray. split; [exact Heq|exact Hlen].
Defined.

(** ** Embeddings after a failed [encodeImage] *)

Lemma getEncoderSession_keeps this wd :
  modelConfig (getEncoderSession this wd).1.2 = modelConfig this
  ∧ sessionDecoder (getEncoderSession this wd).1.2 = sessionDecoder this
  ∧ bufferDecoder (getEncoderSession this wd).1.2 = bufferDecoder this.
Proof.
  unfold getEncoderSession.
  destruct (sessionEncoder this), (bufferEncoder this) as [buffer|]; try done.
  by destruct (getORTSession buffer wd) as [[s|m|] wd1].
Qed.

(** X26.  When [encodeImage] resolves, the object holds exactly the
    embeddings of this run: three entries for SAM2, one for MobileSAM,
    read from the results under the output names of the session; the run
    is the last thing done to the environment and its only input is the
    tensor under the descriptor's encoder input name.  When it does not
    resolve, the embeddings of the previous image stay, and a later
    [decode] does not throw 'Image not encoded' but runs the decoder on
    those stale embeddings. *)
Theorem encodeImage_embeddings (this : SAM2) (inputTensor : Tensor) (wd : World) :
  let r := (encodeImage this inputTensor wd).1.1 in
  let this' := (encodeImage this inputTensor wd).1.2 in
  let wd' := (encodeImage this inputTensor wd).2 in
  let inputs := [(encoderInputName (modelConfig this), Some inputTensor)] in
  (r = Ok () →
   ∃ session ep results,
     sessionEncoder this' = Some (session, ep)
     ∧ last (trace wd') = Some (EvSessionRun session inputs)
     ∧ session_run wd' session inputs = Ok results
     ∧ imageEncoded this'
       = Some match modelType (modelConfig this) with
              | sam2 => [("high_res_feats_0", output_at wd' session results 0);
                         ("high_res_feats_1", output_at wd' session results 1);
                         ("image_embed", output_at wd' session results 2)]
              | mobilesam => [("image_embed", output_at wd' session results 0)]
              end)
  ∧ (r ≠ Ok () → imageEncoded this' = imageEncoded this)
  ∧ (r ≠ Ok () →
     ∀ encoded session ep points masks,
       imageEncoded this = Some encoded → sessionDecoder this = Some (session, ep) →
       let decoderInputs := decoderInputs this' encoded points masks in
       decode this' points masks wd'
       = (session_run wd' session decoderInputs, this',
          log_event (EvSessionRun session decoderInputs) wd')).
Proof.
  intros r this' wd' inputs. subst r this' wd' inputs. unfold encodeImage.
  destruct (getEncoderSession_keeps this wd) as (Hcfg & Hdec & _).
  pose proof (getEncoderSession_imageEncoded this wd) as Himg.
  assert (∀ x, (getEncoderSession this wd).1.1 = Ok (Some x) →
            sessionEncoder (getEncoderSession this wd).1.2 = Some x) as Hsession.
  { unfold getEncoderSession.
    destruct (sessionEncoder this) as [s|] eqn:Hs; [cbn; by intros x [= <-]|].
    destruct (bufferEncoder this) as [buffer|]; [|by intros x [=]].
    destruct (getORTSession buffer wd) as [[s|m|] wd1]; cbn; by intros x [= <-]. }
  destruct (getEncoderSession this wd) as [[[[[session ep]|]|m|] this1] wd1];
    cbn [fst snd] in *.
  2-4: (split_and!; [done|done|]; intros _ encoded s e points masks Hen Hse;
        unfold decode; rewrite Himg, Hen; unfold getDecoderSession;
        by rewrite Hdec, Hse).
  rewrite Hcfg. cbn [log_event session_run].
  destruct (session_run wd1 session _) as [results|m|] eqn:Hrun.
  - destruct (modelType (modelConfig this)) eqn:Htype; cbn [fst snd].
    all: split_and!; [|done..].
    all: intros _; exists session, ep, results; cbn.
    all: split_and!; [by apply Hsession|by rewrite last_snoc|done|by rewrite Himg || done].
  - cbn [fst snd]. split_and!; [done|done|].
    intros _ encoded s e points masks Hen Hse.
    unfold decode. rewrite Himg, Hen. unfold getDecoderSession. by rewrite Hdec, Hse.
  - cbn [fst snd]. split_and!; [done|done|].
    intros _ encoded s e points masks Hen Hse.
    unfold decode. rewrite Himg, Hen. unfold getDecoderSession. by rewrite Hdec, Hse.
Qed.

Lemma encodeImage_embeddings_witness :
  ∃ session ep,
    sessionEncoder
      (encodeImage (downloadModels (new_SAM2 tiny_config) working_world).1 single_mask
         (downloadModels (new_SAM2 tiny_config) working_world).2).1.2
    = Some (session, ep).
Proof.
  destruct (encodeImage_embeddings
              (downloadModels (new_SAM2 tiny_config) working_world).1 single_mask
              (downloadModels (new_SAM2 tiny_config) working_world).2) as (Hok & _).
  destruct Hok as (session & ep & results & Hsession & _).
  { vm_compute. reflexivity. }
  exists session, ep. exact Hsession.
Defined.

(** ** The calls of [SAMClient] settle *)






